(** * hnsw: a shallow embedding of graph.go

    The development follows the Go source top-down: values and errors,
    [MakeNodes], the layer-node methods ([addNeighbor], [search],
    [replenish], [isolate]), the layer accessors, and the [Graph]
    methods ([randomLevel], [Add], [Delete], [Lookup], [Len], [Dims]).

    Go pointers to [layerNode] objects are addresses into an explicit
    object store; Go maps are [gmap]s; the unspecified iteration order of
    a Go [range] over a map is driven by a schedule that is part of the
    state, so that every statement proved for all schedules covers every
    order the runtime may pick. *)

From Stdlib Require Import ZArith String Floats.SpecFloat.
From stdpp Require Import gmap list sorting.

Local Open Scope Z_scope.

(** ** Go values *)

(** [float32] and [float64] values are IEEE-754 data; graph.go only ever
    compares [float32]s, and [SFltb] is the IEEE comparison (false as soon
    as one side is NaN). *)
Abbreviation float32 := spec_float.
Abbreviation float64 := spec_float.

(** [type Vector = []float32] *)
Definition Vector : Type := list float32.

(** Go [int] is 64 bits wide; [wrap_int] is the wrap-around of [+]. *)
Definition wrap_int (z : Z) : Z :=
  (z + 2 ^ 63) mod 2 ^ 64 - 2 ^ 63.

(** The [error] values graph.go builds with [fmt.Errorf], and the errors a
    caller-supplied distance function may hand back. *)
Inductive error : Type :=
| ErrKeysVecsLength                 (* "keys and vecs must have the same length" *)
| ErrNodeNil                        (* "node is nil" *)
| ErrMlZero                         (* "ml must be greater than 0" *)
| ErrGraphMlZero                    (* "(*Graph).Ml must be greater than 0" *)
| ErrDimMismatch (dims len : Z)     (* "embedding dimension mismatch: %d != %d" *)
| ErrInvalidLevel (level : Z)       (* "invalid level: %d" *)
| ErrDistanceUnset                  (* "(*Graph).Distance must be set" *)
| ErrEmptyNeighborhood              (* "empty neighborhood" *)
| ErrNodeNotUpdated                 (* "node not updated" *)
| ErrNodeNotAdded                   (* "node not added" *)
| ErrGraphEmpty                     (* "graph is empty" *)
| ErrUnreachable                    (* "unreachable" *)
| ErrDistance (msg : string).       (* an error made by a DistanceFunc *)

(** [type DistanceFunc func(a, b []float32) (float32, error)]: the type
    is declared next to the distance functions, outside graph.go. *)
Definition DistanceFunc : Type := Vector → Vector → float32 + error.

(** How a call ends: it returns, it panics (nil dereference, index out of
    range, negative [make] size), or the model ran out of the fuel that
    bounds the one loop of graph.go whose termination is not structural
    (the frontier loop of [search]). *)
Inductive outcome (A : Type) : Type :=
| Done (a : A)
| Panic
| OutOfFuel.
Arguments Done {A} a.
Arguments Panic {A}.
Arguments OutOfFuel {A}.

(** State-and-outcome monad: Go statements that read and write a state
    [S] and may panic. *)
Definition prog (S A : Type) : Type := S → outcome (A * S).

Definition ret {S A} (a : A) : prog S A := λ s, Done (a, s).

Definition bind {S A B} (c : prog S A) (k : A → prog S B) : prog S B :=
  λ s, match c s with
       | Done (a, s') => k a s'
       | Panic => Panic
       | OutOfFuel => OutOfFuel
       end.

Definition panic {S A} : prog S A := λ _, Panic.
Definition get {S} : prog S S := λ s, Done (s, s).
Definition put {S} (s : S) : prog S unit := λ _, Done (tt, s).
Definition gets {S A} (f : S → A) : prog S A := λ s, Done (f s, s).
Definition modify {S} (f : S → S) : prog S unit := λ s, Done (tt, f s).

(** A pure computation that may panic, lifted into [prog]. *)
Definition lift {S A} (o : outcome A) : prog S A :=
  λ s, match o with
       | Done a => Done (a, s)
       | Panic => Panic
       | OutOfFuel => OutOfFuel
       end.

Notation "'let*' x ':=' c 'in' k" := (bind c (λ x, k))
  (at level 10, x pattern, c at level 100, k at level 200).

(** ** Nodes and the object store *)

(** [K cmp.Ordered]: keys have a zero value and are ordered by [K_lt],
    the order [slices.Sort] sorts by. *)
Class Ordered (K : Type) : Type := {
  K_zero : K;
  K_lt : K → K → Prop;
  K_lt_dec :: RelDecision K_lt
}.

(** [type Node[K] struct { Key K; Value Vector }] *)
Record Node (K : Type) : Type := mkNode { Key : K; Value : Vector }.
Arguments mkNode {K} Key Value.
Arguments Key {K} n.
Arguments Value {K} n.

(** A [*layerNode[K]] is an address of the object store. *)
Abbreviation addr := nat.

(** [type layerNode[K] struct { Node[K]; neighbors map[K]*layerNode[K] }].
    A nil [neighbors] map is the empty map: [len], [range], lookup and
    [delete] do not tell them apart, and [addNeighbor] allocates the map
    before its only insertion. *)
Record layerNode (K : Type) `{Countable K} : Type := mkLayerNode {
  lnode : Node K;
  neighbors : gmap K addr
}.
Arguments mkLayerNode {K _ _} lnode neighbors.
Arguments lnode {K _ _} l.
Arguments neighbors {K _ _} l.

(** The memory the layer-node methods work on: the [layerNode] objects by
    address, and the schedule that settles map iteration order: every
    [range] over a map takes the next entry of [sched] as its plan (the
    keys to visit first, in that order). *)
Record memory (K : Type) `{Countable K} : Type := mkMemory {
  objs : gmap addr (layerNode K);
  sched : list (list K)
}.
Arguments mkMemory {K _ _} objs sched.
Arguments objs {K _ _} m.
Arguments sched {K _ _} m.

(** [type searchCandidate[K] struct { node *layerNode[K]; dist float32 }] *)
Record searchCandidate : Type := mkCandidate { node : addr; dist : float32 }.

(** [func (s searchCandidate[K]) Less(o searchCandidate[K]) bool] *)
Definition Less (s o : searchCandidate) : bool := SFltb (dist s) (dist o).

(** [type SearchResultNode[K] struct { Node[K]; Distance float32 }] *)
Record SearchResultNode (K : Type) : Type := mkSearchResultNode {
  result_Node : Node K;
  result_Distance : float32
}.
Arguments mkSearchResultNode {K} result_Node result_Distance.
Arguments result_Node {K} s.
Arguments result_Distance {K} s.

(** The operations [search] uses of [heap.Heap[T]]; the heap package is
    not part of graph.go. [heap_Init] is the heap after [Init] of an empty
    slice; [Pop], [PopLast], [Min] and [Max] have no result on an empty
    heap (the Go code indexes out of range there). *)
Class HeapOps (T : Type) : Type := {
  Heap : Type;
  heap_Init : Heap;
  heap_Push : T → Heap → Heap;
  heap_Pop : Heap → option (T * Heap);
  heap_PopLast : Heap → option (T * Heap);
  heap_Min : Heap → option T;
  heap_Max : Heap → option T;
  heap_Len : Heap → nat;
  heap_Slice : Heap → list T
}.

(** [*rand.Rand]: the stream of [Float64] draws and how many were taken. *)
Record rand : Type := mkRand { draws : nat → float64; pos : nat }.

(** What graph.go takes from outside the file: [CosineDistance] (declared
    with the distance functions), [math.Log], [math.Round], the
    conversion [int(x)] of a [float64] (implementation-specific when [x]
    is not a finite value within range), and the generator
    [defaultRand()] seeds from the wall clock. *)
Class Externals : Type := {
  CosineDistance : DistanceFunc;
  math_Log : float64 → float64;
  math_Round : float64 → float64;
  int_of_float64 : float64 → Z;
  defaultRand : rand
}.

(** [type layer[K] struct { nodes map[K]*layerNode[K] }]; a nil [nodes]
    map is the empty map. *)
Abbreviation layer K := (gmap K addr).

(** [type Graph[K] struct]. The lock [mu] is not modelled: every method
    below is the body that runs while the lock is held. [mem] is the
    memory the graph's pointers refer to. *)
Record Graph (K : Type) `{Countable K} : Type := mkGraph {
  Distance : option DistanceFunc;
  Rng : option rand;
  M : Z;
  Ml : float64;
  EfSearch : Z;
  EfConstruction : Z;
  layers : list (layer K);
  mem : memory K
}.
Arguments mkGraph {K _ _} Distance Rng M Ml EfSearch EfConstruction layers mem.
Arguments Distance {K _ _} g.
Arguments Rng {K _ _} g.
Arguments M {K _ _} g.
Arguments Ml {K _ _} g.
Arguments EfSearch {K _ _} g.
Arguments EfConstruction {K _ _} g.
Arguments layers {K _ _} g.
Arguments mem {K _ _} g.

(** [return] or fall through to the next iteration, for loop bodies. *)
Inductive flow : Type := Continue | Return.

Section model.

Context {K : Type} `{Countable K} `{!Ordered K}.
Context `{!HeapOps searchCandidate} `{!Externals}.

(** [func MakeNode(key K, vec Vector) Node[K]] *)
Definition MakeNode (key : K) (vec : Vector) : Node K :=
  {| Key := key; Value := vec |}.

(** The loop of [MakeNodes]: [nodes[i] = MakeNode(keys[i], vecs[i])] for
    the indices [i] of [keys]; an index out of range panics. *)
Fixpoint MakeNodes_loop (idx : list nat) (keys : list K) (vecs : list Vector)
    (nodes : list (Node K)) : outcome (list (Node K)) :=
  match idx with
  | [] => Done nodes
  | i :: idx' =>
      match keys !! i, vecs !! i with
      | Some key, Some vec =>
          if decide (i < length nodes)%nat
          then MakeNodes_loop idx' keys vecs (<[i := MakeNode key vec]> nodes)
          else Panic
      | _, _ => Panic
      end
  end.

(** [func MakeNodes(keys []K, vecs []Vector) ([]Node[K], error)]; the
    slice returned with an error is nil. *)
Definition MakeNodes (keys : list K) (vecs : list Vector)
    : outcome (list (Node K) * option error) :=
  if decide (length keys ≠ length vecs) then Done ([], Some ErrKeysVecsLength)
  else
    let nodes := replicate (length keys) {| Key := K_zero; Value := [] |} in
    match MakeNodes_loop (seq 0 (length keys)) keys vecs nodes with
    | Done nodes => Done (nodes, None)
    | Panic => Panic
    | OutOfFuel => OutOfFuel
    end.

(** *** Memory primitives *)

(** Reading through a pointer. *)
Definition deref (a : addr) : prog (memory K) (layerNode K) :=
  λ s, match objs s !! a with
       | Some n => Done (n, s)
       | None => Panic
       end.

(** Writing the [neighbors] field of the object at [a] (insertions and
    deletions in the map it holds). *)
Definition set_neighbors (a : addr) (nb : gmap K addr) : prog (memory K) unit :=
  λ s, match objs s !! a with
       | Some n =>
           Done (tt, {| objs := <[a := {| lnode := lnode n; neighbors := nb |}]> (objs s);
                        sched := sched s |})
       | None => Panic
       end.

(** [&layerNode[K]{...}]: a new object at an unused address. *)
Definition alloc (n : layerNode K) : prog (memory K) addr :=
  λ s, let a := fresh (dom (objs s)) in
       Done (a, {| objs := <[a := n]> (objs s); sched := sched s |}).

(** The plan of the next [range] over a map. *)
Definition next_plan : prog (memory K) (list K) :=
  λ s, match sched s with
       | [] => Done ([], s)
       | plan :: rest => Done (plan, {| objs := objs s; sched := rest |})
       end.

(** The entries of [m] in the order a plan gives: the keys the plan
    names, once each and when present, then the other keys. *)
Definition range_order (plan : list K) (m : gmap K addr) : list (K * addr) :=
  let first := remove_dups (filter (λ k, is_Some (m !! k)) plan) in
  let rest := filter (λ k, k ∉ first) (map_to_list m).*1 in
  omap (λ k, (λ p, (k, p)) <$> m !! k) (first ++ rest).

(** [for key, p := range n.neighbors { body }] where the body may write
    to maps, the ranged one included. [range_keys] visits the keys of a
    list in turn: a key already visited, or not in the map when its turn
    comes, is passed over; the body runs on the entry the map holds then.
    [range_neighbors] first visits the keys of the plan, which may name
    entries the body has put into the map since the loop began (Go may or
    may not produce those), then every entry the map had at loop start
    that is still there and was not visited. *)
Fixpoint range_keys (a : addr) (body : K → addr → prog (memory K) flow)
    (keys visited : list K) : prog (memory K) (flow * list K) :=
  match keys with
  | [] => ret (Continue, visited)
  | key :: keys' =>
      if decide (key ∈ visited) then range_keys a body keys' visited
      else
        let* n := deref a in
        match neighbors n !! key with
        | None => range_keys a body keys' visited
        | Some p =>
            let* c := body key p in
            match c with
            | Return => ret (Return, key :: visited)
            | Continue => range_keys a body keys' (key :: visited)
            end
        end
  end.

Definition range_neighbors (a : addr) (body : K → addr → prog (memory K) flow)
    : prog (memory K) flow :=
  let* n := deref a in
  let* plan := next_plan in
  let* r := range_keys a body plan [] in
  match r with
  | (Return, _) => ret Return
  | (Continue, visited) =>
      let* r := range_keys a body (map_to_list (neighbors n)).*1 visited in
      ret (fst r)
  end.

(** *** addNeighbor *)

(** [float32(math.Inf(-1))] *)
Definition neg_inf : float32 := S754_infinity true.

(** The loop of [addNeighbor] that finds the neighbor with the worst
    distance; it reads only, so it visits the entries the map has, in
    the order the plan gives. [worst] is [None] for the nil pointer. *)
Fixpoint worst_loop (distance : DistanceFunc) (nValue : Vector)
    (entries : list (K * addr)) (worstDist : float32) (worst : option addr)
    : prog (memory K) (option addr + error) :=
  match entries with
  | [] => ret (inl worst)
  | (_, neighbor) :: entries' =>
      let* nb := deref neighbor in
      match distance (Value (lnode nb)) nValue with
      | inr err => ret (inr err)
      | inl d =>
          if SFltb worstDist d || bool_decide (worst = None)
          then worst_loop distance nValue entries' d (Some neighbor)
          else worst_loop distance nValue entries' worstDist worst
      end
  end.

(** [func (n *layerNode[K]) addNeighbor(newNode *layerNode[K], m int,
    dist DistanceFunc) error], with the method it calls on the evicted
    neighbor as a parameter ([replenish] below). *)
Definition addNeighbor_with (replenish : addr → Z → prog (memory K) unit)
    (n newNode : addr) (m : Z) (distance : DistanceFunc)
    : prog (memory K) (option error) :=
  let* nn := deref n in
  let* new := deref newNode in
  let* _ := set_neighbors n (<[Key (lnode new) := newNode]> (neighbors nn)) in
  let* nn := deref n in
  if decide (Z.of_nat (size (neighbors nn)) ≤ m) then ret None
  else
    let* plan := next_plan in
    let* r := worst_loop distance (Value (lnode nn))
                (range_order plan (neighbors nn)) neg_inf None in
    match r with
    | inr err => ret (Some err)
    | inl None => panic
    | inl (Some worst) =>
        let* w := deref worst in
        let* nn := deref n in
        let* _ := set_neighbors n (delete (Key (lnode w)) (neighbors nn)) in
        let* w := deref worst in
        let* nn := deref n in
        let* _ := set_neighbors worst (delete (Key (lnode nn)) (neighbors w)) in
        let* _ := replenish worst m in
        ret None
    end.

(** [func (n *layerNode[K]) replenish(m int)], with the [addNeighbor] it
    calls as a parameter. *)
Definition replenish_with
    (addNeighbor : addr → addr → Z → DistanceFunc → prog (memory K) (option error))
    (n : addr) (m : Z) : prog (memory K) unit :=
  let* nn := deref n in
  if decide (m ≤ Z.of_nat (size (neighbors nn))) then ret tt
  else
    let* _ := range_neighbors n (λ _ neighbor,
      range_neighbors neighbor (λ key candidate,
        let* nn := deref n in
        if decide (is_Some (neighbors nn !! key)) then ret Continue
        else if decide (candidate = n) then ret Continue
        else
          let* _ := addNeighbor n candidate m CosineDistance in
          let* nn := deref n in
          if decide (m ≤ Z.of_nat (size (neighbors nn))) then ret Return
          else ret Continue)) in
    ret tt.

(** The two methods call each other in the source. The recursion stops
    after one round: [replenish] calls [addNeighbor] only while the map
    is below [m], so that call returns before it looks for a worst
    neighbor ([replenish_unfold] below proves that [replenish] satisfies
    the recursive equation of the source). [unreached] stands for the
    call that is never made. *)
Definition unreached : addr → Z → prog (memory K) unit := λ _ _ _, OutOfFuel.

Definition replenish (n : addr) (m : Z) : prog (memory K) unit :=
  replenish_with (addNeighbor_with unreached) n m.

Definition addNeighbor (n newNode : addr) (m : Z) (distance : DistanceFunc)
    : prog (memory K) (option error) :=
  addNeighbor_with replenish n newNode m distance.

(** [func (n *layerNode[K]) isolate(m int)] *)
Definition isolate (n : addr) (m : Z) : prog (memory K) unit :=
  let* _ := range_neighbors n (λ _ neighbor,
    let* nn := deref n in
    let* nb := deref neighbor in
    let* _ := set_neighbors neighbor (delete (Key (lnode nn)) (neighbors nb)) in
    let* _ := replenish neighbor m in
    ret Continue) in
  ret tt.

(** *** search *)

(** The loop variables of [search]. *)
Record search_state : Type := mkSearch {
  candidates : Heap;
  result : Heap;
  visited : gset K;
  improved : bool
}.

(** [maps.Keys(current.neighbors)] followed by [slices.Sort]. *)
Definition sorted_keys (m : gmap K addr) : list K :=
  merge_sort (λ a b, ¬ K_lt b a) (map_to_list m).*1.

(** The inner loop of [search], over the sorted neighbor keys of
    [current]. *)
Fixpoint search_neighbors (store : gmap addr (layerNode K)) (k efSearch : Z)
    (target : Vector) (distance : DistanceFunc) (current : layerNode K)
    (neighborKeys : list K) (st : search_state)
    : outcome (search_state + error) :=
  match neighborKeys with
  | [] => Done (inl st)
  | neighborID :: rest =>
      match neighbors current !! neighborID with
      | None => Panic
      | Some neighbor =>
          if decide (neighborID ∈ visited st)
          then search_neighbors store k efSearch target distance current rest st
          else
            let visited' := {[neighborID]} ∪ visited st in
            match store !! neighbor with
            | None => Panic
            | Some nb =>
                match distance (Value (lnode nb)) target with
                | inr err => Done (inr err)
                | inl d =>
                    let c := {| node := neighbor; dist := d |} in
                    (* improved = improved || dist < result.Min().dist *)
                    let improved' :=
                      if improved st then Some true
                      else (λ rmin, SFltb d (dist rmin)) <$> heap_Min (result st) in
                    (* the two branches that update result *)
                    let result' :=
                      if decide (Z.of_nat (heap_Len (result st)) < k)
                      then Some (heap_Push c (result st))
                      else
                        match heap_Max (result st) with
                        | None => None
                        | Some rmax =>
                            if SFltb d (dist rmax)
                            then (λ r, heap_Push c r.2) <$> heap_PopLast (result st)
                            else Some (result st)
                        end in
                    let pushed := heap_Push c (candidates st) in
                    let candidates' :=
                      if decide (efSearch < Z.of_nat (heap_Len pushed))
                      then snd <$> heap_PopLast pushed
                      else Some pushed in
                    match improved', result', candidates' with
                    | Some i, Some r, Some cs =>
                        search_neighbors store k efSearch target distance current rest
                          {| candidates := cs; result := r;
                             visited := visited'; improved := i |}
                    | _, _, _ => Panic
                    end
                end
            end
      end
  end.

(** [for candidates.Len() > 0 { ... }]; one unit of fuel per iteration. *)
Fixpoint search_loop (fuel : nat) (store : gmap addr (layerNode K)) (k efSearch : Z)
    (target : Vector) (distance : DistanceFunc) (cs res : Heap) (seen : gset K)
    : outcome (list searchCandidate + error) :=
  if decide (heap_Len cs = 0%nat) then Done (inl (heap_Slice res))
  else
    match fuel with
    | O => OutOfFuel
    | S fuel' =>
        match heap_Pop cs with
        | None => Panic
        | Some (c, cs') =>
            match store !! node c with
            | None => Panic
            | Some current =>
                match search_neighbors store k efSearch target distance current
                        (sorted_keys (neighbors current))
                        {| candidates := cs'; result := res;
                           visited := seen; improved := false |} with
                | Done (inl st) =>
                    if negb (improved st) && bool_decide (k ≤ Z.of_nat (heap_Len (result st)))
                    then Done (inl (heap_Slice (result st)))
                    else search_loop fuel' store k efSearch target distance
                           (candidates st) (result st) (visited st)
                | Done (inr err) => Done (inr err)
                | Panic => Panic
                | OutOfFuel => OutOfFuel
                end
            end
        end
    end.

(** [func (n *layerNode[K]) search(k int, efSearch int, target Vector,
    distance DistanceFunc) ([]searchCandidate[K], error)]; [n] is [None]
    for the nil receiver. [make] with a negative capacity panics. The
    method reads the store and writes nothing. *)
Definition search (fuel : nat) (store : gmap addr (layerNode K)) (k efSearch : Z)
    (target : Vector) (distance : DistanceFunc) (n : option addr)
    : outcome (list searchCandidate + error) :=
  match n with
  | None => Done (inr ErrNodeNil)
  | Some a =>
      if decide (efSearch < 0) then Panic
      else
        match store !! a with
        | None => Panic
        | Some nn =>
            match distance (Value (lnode nn)) target with
            | inr err => Done (inr err)
            | inl d =>
                let cs := heap_Push {| node := a; dist := d |} heap_Init in
                if decide (k < 0) then Panic
                else
                  match heap_Min cs with
                  | None => Panic
                  | Some c0 =>
                      search_loop fuel store k efSearch target distance cs
                        (heap_Push c0 heap_Init) {[Key (lnode nn)]}
                  end
            end
        end
  end.

(** ** Layers *)

(** [func (l *layer[K]) entry() *layerNode[K]]: the first node a [range]
    over the map yields, nil for an empty layer. *)
Definition entry (l : layer K) : prog (memory K) (option addr) :=
  let* plan := next_plan in
  ret (snd <$> head (range_order plan l)).

(** [func (l *layer[K]) size() int] *)
Definition layer_size (l : layer K) : Z := Z.of_nat (size l).

(** ** Graph *)

Definition set_layers (g : Graph K) (ls : list (layer K)) : Graph K :=
  {| Distance := Distance g; Rng := Rng g; M := M g; Ml := Ml g;
     EfSearch := EfSearch g; EfConstruction := EfConstruction g;
     layers := ls; mem := mem g |}.

Definition set_mem (g : Graph K) (s : memory K) : Graph K :=
  {| Distance := Distance g; Rng := Rng g; M := M g; Ml := Ml g;
     EfSearch := EfSearch g; EfConstruction := EfConstruction g;
     layers := layers g; mem := s |}.

Definition set_Rng (g : Graph K) (r : option rand) : Graph K :=
  {| Distance := Distance g; Rng := r; M := M g; Ml := Ml g;
     EfSearch := EfSearch g; EfConstruction := EfConstruction g;
     layers := layers g; mem := mem g |}.

(** A layer-node method run on the memory of the graph. *)
Definition on_mem {A} (c : prog (memory K) A) : prog (Graph K) A :=
  λ g, match c (mem g) with
       | Done (a, s) => Done (a, set_mem g s)
       | Panic => Panic
       | OutOfFuel => OutOfFuel
       end.

(** A write to the node map of layer [i]. *)
Definition modify_layer (i : nat) (f : layer K → layer K) : prog (Graph K) unit :=
  λ g, match layers g !! i with
       | Some l => Done (tt, set_layers g (<[i := f l]> (layers g)))
       | None => Panic
       end.

(** [float64(numNodes)] and the constants [0] and [1]. *)
Definition float64_of_int (z : Z) : float64 := binary_normalize 53 1024 z 0 false.
Definition float64_zero : float64 := S754_zero false.
Definition float64_one : float64 := float64_of_int 1.

(** [func NewGraph[K cmp.Ordered]() *Graph[K]]; [0.25] is [2^-2]. *)
Definition NewGraph : Graph K :=
  {| Distance := Some CosineDistance; Rng := Some defaultRand;
     M := 16; Ml := binary_normalize 53 1024 1 (-2) false;
     EfSearch := 20; EfConstruction := 40;
     layers := []; mem := {| objs := ∅; sched := [] |} |}.

(** [func maxLevel(ml float64, numNodes int) (int, error)] *)
Definition maxLevel (ml : float64) (numNodes : Z) : Z * option error :=
  if SFeqb ml float64_zero then (0, Some ErrMlZero)
  else if decide (numNodes = 0) then (1, None)
  else
    let l := math_Log (float64_of_int numNodes) in
    let l := SFdiv 53 1024 l (math_Log (SFdiv 53 1024 float64_one ml)) in
    let m := wrap_int (int_of_float64 (math_Round l) + 1) in
    (m, None).

(** [h.Rng.Float64()], after [h.Rng] was set to [defaultRand()] if nil. *)
Definition Float64 : prog (Graph K) float64 :=
  λ g, let rng := default defaultRand (Rng g) in
       Done (draws rng (pos rng),
             set_Rng g (Some {| draws := draws rng; pos := S (pos rng) |})).

(** [for level := 0; level < max; level++ { ... }; return max, nil]:
    [steps] iterations are left, the next one at [level]. *)
Fixpoint randomLevel_loop (steps : nat) (level max : Z)
    : prog (Graph K) (Z * option error) :=
  match steps with
  | O => ret (max, None)
  | S steps' =>
      let* r := Float64 in
      let* ml := gets Ml in
      if SFltb ml r then ret (level, None)
      else randomLevel_loop steps' (level + 1) max
  end.

(** [func (h *Graph[K]) randomLevel() (int, error)] *)
Definition randomLevel : prog (Graph K) (Z * option error) :=
  let* g := get in
  match layers g with
  | [] => randomLevel_loop 1 0 1
  | l0 :: _ =>
      if SFeqb (Ml g) float64_zero then ret (0, Some ErrGraphMlZero)
      else
        match maxLevel (Ml g) (layer_size l0) with
        | (_, Some err) => ret (0, Some err)
        | (max, None) => randomLevel_loop (Z.to_nat max) 0 max
        end
  end.

(** [func (g *Graph[K]) Dims() int]; the entry of an empty base layer is
    nil, and reading its [Value] panics. *)
Definition Dims : prog (Graph K) Z :=
  let* g := get in
  match layers g with
  | [] => ret 0
  | l0 :: _ =>
      let* e := on_mem (entry l0) in
      match e with
      | None => panic
      | Some a =>
          let* n := on_mem (deref a) in
          ret (Z.of_nat (length (Value (lnode n))))
      end
  end.

(** [func (g *Graph[K]) assertDims(n Vector) error] *)
Definition assertDims (n : Vector) : prog (Graph K) (option error) :=
  let* g := get in
  match layers g with
  | [] => ret None
  | _ :: _ =>
      let* dims := Dims in
      if decide (dims ≠ Z.of_nat (length n))
      then ret (Some (ErrDimMismatch dims (Z.of_nat (length n))))
      else ret None
  end.

(** [func (h *Graph[K]) Len() int] *)
Definition Len (g : Graph K) : Z :=
  match layers g with
  | [] => 0
  | l0 :: _ => layer_size l0
  end.

(** The edge loop of [Add]:
    [for _, node := range neighborhood {
       node.node.addNeighbor(newNode, g.M, g.Distance)
       newNode.addNeighbor(node.node, g.M, g.Distance) }];
    what [addNeighbor] returns is dropped. *)
Fixpoint add_edges (neighborhood : list searchCandidate) (newNode : addr)
    (m : Z) (distance : DistanceFunc) : prog (memory K) unit :=
  match neighborhood with
  | [] => ret tt
  | c :: rest =>
      let* _ := addNeighbor (node c) newNode m distance in
      let* _ := addNeighbor newNode (node c) m distance in
      add_edges rest newNode m distance
  end.

(** The layer loop of [Add], [for i := len(g.layers) - 1; i >= 0; i--]:
    [n] layers are left, the next one at index [n - 1]. The result is the
    error the loop returns with, or [wasUpdated] when it runs to its end. *)
Fixpoint Add_layers (fuel : nat) (key : K) (vec : Vector) (insertLevel : Z)
    (n : nat) (elevator : option K) (wasUpdated : bool)
    : prog (Graph K) (error + bool) :=
  match n with
  | O => ret (inr wasUpdated)
  | S i =>
      let* g := get in
      match layers g !! i with
      | None => panic
      | Some layer =>
          let* newNode :=
            on_mem (alloc {| lnode := {| Key := key; Value := vec |};
                             neighbors := ∅ |}) in
          let* e := on_mem (entry layer) in
          match e with
          | None =>
              let* _ := modify_layer i (λ _, {[key := newNode]}) in
              Add_layers fuel key vec insertLevel i elevator wasUpdated
          | Some _ =>
              let* e := on_mem (entry layer) in
              let searchPoint :=
                match elevator with
                | Some el => layer !! el
                | None => e
                end in
              match Distance g with
              | None => ret (inl ErrDistanceUnset)
              | Some distance =>
                  let* s := gets mem in
                  let* found :=
                    lift (search fuel (objs s) (M g) (EfConstruction g) vec
                            distance searchPoint) in
                  match found with
                  | inr err => ret (inl err)
                  | inl [] => ret (inl ErrEmptyNeighborhood)
                  | inl ((c0 :: _) as neighborhood) =>
                      let* n0 := on_mem (deref (node c0)) in
                      let elevator := Some (Key (lnode n0)) in
                      if decide (Z.of_nat i ≤ insertLevel) then
                        let* wasUpdated :=
                          match layer !! key with
                          | Some old =>
                              let* _ := modify_layer i (delete key) in
                              let* _ := on_mem (isolate old (M g)) in
                              ret true
                          | None => ret wasUpdated
                          end in
                        let* _ := modify_layer i (insert key newNode) in
                        let* _ := on_mem (add_edges neighborhood newNode (M g) distance) in
                        Add_layers fuel key vec insertLevel i elevator wasUpdated
                      else Add_layers fuel key vec insertLevel i elevator wasUpdated
                  end
              end
          end
      end
  end.

(** The body of the node loop of [Add], for one node. *)
Definition Add_node (fuel : nat) (nd : Node K) : prog (Graph K) (option error) :=
  let key := Key nd in
  let vec := Value nd in
  let* _ := assertDims vec in
  let* lvl := randomLevel in
  match lvl with
  | (_, Some err) => ret (Some err)
  | (insertLevel, None) =>
      (* for insertLevel >= len(g.layers) { g.layers = append(g.layers, &layer[K]{}) } *)
      let* _ := modify (λ g, set_layers g
                  (layers g ++ replicate
                     (Z.to_nat (insertLevel + 1 - Z.of_nat (length (layers g)))) ∅)) in
      if decide (insertLevel < 0) then ret (Some (ErrInvalidLevel insertLevel))
      else
        let* preLen := gets Len in
        let* g := get in
        let* r := Add_layers fuel key vec insertLevel (length (layers g)) None false in
        match r with
        | inl err => ret (Some err)
        | inr wasUpdated =>
            let* len := gets Len in
            if wasUpdated
            then if decide (len ≠ preLen) then ret (Some ErrNodeNotUpdated) else ret None
            else if decide (len ≠ preLen + 1) then ret (Some ErrNodeNotAdded) else ret None
        end
  end.

(** [func (g *Graph[K]) Add(nodes ...Node[K]) error] *)
Fixpoint Add (fuel : nat) (nodes : list (Node K)) : prog (Graph K) (option error) :=
  match nodes with
  | [] => ret None
  | nd :: rest =>
      let* err := Add_node fuel nd in
      match err with
      | Some e => ret (Some e)
      | None => Add fuel rest
      end
  end.

(** The loop of [DeleteWithLock], [for _, layer := range h.layers], over
    the layer indices. *)
Fixpoint Delete_layers (key : K) (idx : list nat) (deleted : bool)
    : prog (Graph K) bool :=
  match idx with
  | [] => ret deleted
  | i :: idx' =>
      let* g := get in
      match layers g !! i with
      | None => panic
      | Some layer =>
          match layer !! key with
          | None => Delete_layers key idx' deleted
          | Some nd =>
              let* _ := modify_layer i (delete key) in
              let* _ := on_mem (isolate nd (M g)) in
              Delete_layers key idx' true
          end
      end
  end.

(** [func (h *Graph[K]) DeleteWithLock(key K) bool] *)
Definition DeleteWithLock (key : K) : prog (Graph K) bool :=
  let* g := get in
  match layers g with
  | [] => ret false
  | _ :: _ => Delete_layers key (seq 0 (length (layers g))) false
  end.

(** [func (h *Graph[K]) Delete(key K) bool] *)
Definition Delete (key : K) : prog (Graph K) bool := DeleteWithLock key.

(** [func (h *Graph[K]) Lookup(key K) (Vector, bool)] *)
Definition Lookup (g : Graph K) (key : K) : outcome (Vector * bool) :=
  match layers g with
  | [] => Done ([], false)
  | l0 :: _ =>
      match l0 !! key with
      | None => Done ([], false)
      | Some a =>
          match objs (mem g) !! a with
          | Some n => Done (Value (lnode n), true)
          | None => Panic
          end
      end
  end.

(** [searchPoint.search(k, efSearch, near, h.Distance)] in [Search], which
    does not check [h.Distance]: with a nil function the call
    [distance(n.Value, target)] panics, and [search] reaches it whenever
    its receiver is not nil. *)
Definition search_with (fuel : nat) (store : gmap addr (layerNode K)) (k efSearch : Z)
    (target : Vector) (distance : option DistanceFunc) (n : option addr)
    : outcome (list searchCandidate + error) :=
  match distance with
  | Some d => search fuel store k efSearch target d n
  | None =>
      match n with
      | None => Done (inr ErrNodeNil)
      | Some _ => Panic
      end
  end.

(** [for _, node := range nodes { out = append(out, SearchResultNode[K]{
       Node: node.node.Node, Distance: node.dist }) }] *)
Fixpoint Search_out (nodes : list searchCandidate)
    : prog (memory K) (list (SearchResultNode K)) :=
  match nodes with
  | [] => ret []
  | c :: rest =>
      let* nn := deref (node c) in
      let* out := Search_out rest in
      ret ({| result_Node := lnode nn; result_Distance := dist c |} :: out)
  end.

(** The layer loop of [Search], [for layer := len(h.layers) - 1; layer >= 0;
    layer--]: [n] layers are left, the next one at index [n - 1]. *)
Fixpoint Search_layers (fuel : nat) (near : Vector) (k : Z) (n : nat)
    (elevator : option K)
    : prog (Graph K) (list (SearchResultNode K) * option error) :=
  match n with
  | O => ret ([], Some ErrUnreachable)
  | S layer =>
      let* h := get in
      match layers h !! layer with
      | None => panic
      | Some l =>
          let* e := on_mem (entry l) in
          let searchPoint :=
            match elevator with
            | Some el => l !! el
            | None => e
            end in
          let* s := gets mem in
          match layer with
          | S _ =>
              let* found :=
                lift (search_with fuel (objs s) 1 (EfSearch h) near
                        (Distance h) searchPoint) in
              match found with
              | inr err => ret ([], Some err)
              | inl [] => panic
              | inl (c0 :: _) =>
                  let* n0 := on_mem (deref (node c0)) in
                  Search_layers fuel near k layer (Some (Key (lnode n0)))
              end
          | O =>
              let* found :=
                lift (search_with fuel (objs s) k (EfSearch h) near
                        (Distance h) searchPoint) in
              match found with
              | inr err => ret ([], Some err)
              | inl nodes =>
                  let* out := on_mem (Search_out nodes) in
                  ret (out, None)
              end
          end
      end
  end.

(** [func (h *Graph[K]) Search(near Vector, k int)
    ([]SearchResultNode[K], error)]; what [assertDims] returns is
    dropped. *)
Definition Search (fuel : nat) (near : Vector) (k : Z)
    : prog (Graph K) (list (SearchResultNode K) * option error) :=
  let* _ := assertDims near in
  let* h := get in
  match layers h with
  | [] => ret ([], Some ErrGraphEmpty)
  | _ :: _ => Search_layers fuel near k (length (layers h)) None
  end.

End model.

(** * Properties

    The predicates the theorems below are stated with. *)

(** [c] relates every state it returns from to the state it returns in. *)
Definition stable {S A} (R : S → S → Prop) (c : prog S A) : Prop :=
  ∀ s a s', c s = Done (a, s') → R s s'.

(** Total correctness: [wp c Q s] holds when [c] returns from [s] with a
    result and a state that satisfy [Q]. *)
Definition wp {S A} (c : prog S A) (Q : A → S → Prop) (s : S) : Prop :=
  match c s with
  | Done (a, s') => Q a s'
  | _ => False
  end.

(** A rank that orders the values other than NaN as [SFcompare] does. *)
Definition SFrank (x : spec_float) : option (Z * Z * Z) :=
  match x with
  | S754_nan => None
  | S754_infinity true => Some (-2, 0, 0)
  | S754_infinity false => Some (2, 0, 0)
  | S754_zero _ => Some (0, 0, 0)
  | S754_finite false m e => Some (1, e, Z.pos m)
  | S754_finite true m e => Some (-1, - e, - Z.pos m)
  end.

Definition rank_lt (a b : Z * Z * Z) : Prop :=
  a.1.1 < b.1.1 ∨ (a.1.1 = b.1.1 ∧ (a.1.2 < b.1.2 ∨ (a.1.2 = b.1.2 ∧ a.2 < b.2))).

(** The selection rule of [addNeighbor] in the words of the
    specification: the first candidate examined is tentatively worst, and
    a later candidate replaces it iff its distance is strictly greater. *)
Fixpoint tentative_worst (cur : addr * float32) (rest : list (addr * float32))
    : addr * float32 :=
  match rest with
  | [] => cur
  | c :: rest' =>
      if SFltb cur.2 c.2 then tentative_worst c rest' else tentative_worst cur rest'
  end.

Section properties.

Context {K : Type} `{Countable K} `{!Ordered K}.
Context `{!HeapOps searchCandidate} `{!Externals}.

(** Every object of [s] is an object of [s'] with the same [Key] and
    [Value]. *)
Definition keeps_nodes (s s' : memory K) : Prop :=
  ∀ a n, objs s !! a = Some n → ∃ n', objs s' !! a = Some n' ∧ lnode n' = lnode n.

(** Every pointer held in a neighbor map points to an object of the
    store (Go pointers never dangle, and [addNeighbor] never stores nil). *)
Definition closed (st : gmap addr (layerNode K)) : Prop :=
  map_Forall (λ _ n, map_Forall (λ _ p, is_Some (st !! p)) (neighbors n)) st.

#[global] Instance closed_dec (st : gmap addr (layerNode K)) : Decision (closed st).
Proof. unfold closed. apply _. Defined.

(** [closed] memories whose objects are those of [D]. *)
Definition closed_on (D : gset addr) (s : memory K) : Prop :=
  dom (objs s) = D ∧ closed (objs s).

(** A graph whose pointers, in the layers and in the neighbor maps, all
    point to objects of its memory. *)
Definition graph_wf (g : Graph K) : Prop :=
  closed (objs (mem g)) ∧
  Forall (λ l : layer K, map_Forall (λ _ a, is_Some (objs (mem g) !! a)) l) (layers g).

#[global] Instance graph_wf_dec (g : Graph K) : Decision (graph_wf g).
Proof. unfold graph_wf. apply _. Defined.

(** What holds after a loop body, by the way it ended. *)
Definition flow_post (I J : memory K → Prop) (c : flow) (s : memory K) : Prop :=
  match c with Continue => I s | Return => J s end.

(** The node map of layer [i] after the layer loop of [Add] has passed
    it, for a new layer node [newNode] with key [key]. *)
Definition layer_after (i : nat) (insertLevel : Z) (key : K) (newNode : addr)
    (l : layer K) : layer K :=
  if decide (l = ∅) then {[key := newNode]}
  else if decide (Z.of_nat i ≤ insertLevel) then <[key := newNode]> l
  else l.

Definition same_layers (g g' : Graph K) : Prop := layers g' = layers g.

(** [key] is a key of the graph: the base layer holds it (the layer
    [Lookup] and [Len] read). *)
Definition has_key (g : Graph K) (key : K) : Prop :=
  match layers g with
  | [] => False
  | l0 :: _ => is_Some (l0 !! key)
  end.

(** [isolate] on each node of a list, in turn. *)
Fixpoint isolate_all (nodes : list addr) (m : Z) : prog (memory K) unit :=
  match nodes with
  | [] => ret tt
  | a :: rest => let* _ := isolate a m in isolate_all rest m
  end.

(** The layer nodes with key [key], by layer, bottom layer first. *)
Definition detached (ls : list (layer K)) (key : K) : list addr :=
  omap (λ l : layer K, l !! key) ls.

(** The distance [addNeighbor] computes for each entry it examines. *)
Definition examined (st : gmap addr (layerNode K)) (distance : DistanceFunc)
    (nValue : Vector) (entries : list (K * addr)) : list (addr * float32) :=
  omap (λ e : K * addr,
          match st !! e.2 with
          | Some pn =>
              match distance (Value (lnode pn)) nValue with
              | inl d => Some (e.2, d)
              | inr _ => None
              end
          | None => None
          end) entries.

(** An entry [key ↦ p] of a neighbor map is in order for a receiver with
    value [nValue]: [p] is an object whose [Key] is [key], and the
    distance function returns a distance for it. *)
Definition entry_ok (st : gmap addr (layerNode K)) (distance : DistanceFunc)
    (nValue : Vector) (key : K) (p : addr) : bool :=
  match st !! p with
  | Some pn =>
      bool_decide (Key (lnode pn) = key) &&
      match distance (Value (lnode pn)) nValue with
      | inl _ => true
      | inr _ => false
      end
  | None => false
  end.

(** The claim on [Delete] read on the state it leaves: a node detached
    from a layer of [g] is in the neighbor map of none of the nodes that
    were its neighbors. *)
Definition detached_isolated (g g' : Graph K) (key : K) : Prop :=
  ∀ d dn k p pn k',
    d ∈ detached (layers g) key → objs (mem g) !! d = Some dn →
    neighbors dn !! k = Some p → objs (mem g') !! p = Some pn →
    neighbors pn !! k' ≠ Some d.

(** The claim on [addNeighbor] as the specification words it: a call
    that leaves more than [m] entries after its insertion evicts exactly
    one of them. *)
Definition evicts_one (distance : DistanceFunc) (m : Z) (n newNode : addr)
    (s : memory K) : Prop :=
  ∀ nn new,
    objs s !! n = Some nn → objs s !! newNode = Some new →
    let ins := <[Key (lnode new) := newNode]> (neighbors nn) in
    m < Z.of_nat (size ins) →
    ∃ r s' nn' wk,
      addNeighbor n newNode m distance s = Done (r, s') ∧
      objs s' !! n = Some nn' ∧ is_Some (ins !! wk) ∧ neighbors nn' = delete wk ins.

(** The [i]-th draw to come from the generator of [g]. *)
Definition draw_of (g : Graph K) (i : nat) : float64 :=
  let rng := default defaultRand (Rng g) in draws rng (pos rng + i).

(** [g] after [n] draws. *)
Definition advance (g : Graph K) (n : nat) : Graph K :=
  let rng := default defaultRand (Rng g) in
  set_Rng g (Some {| draws := draws rng; pos := pos rng + n |}).

(** The ceiling of [randomLevel] in the words of the specification:
    [round(ln(|baseLayer|) / ln(1/Ml)) + 1], or [1] for a graph without
    nodes. *)
Definition level_ceiling (g : Graph K) : Z :=
  match layers g with
  | [] => 1
  | l0 :: _ =>
      if decide (l0 = ∅) then 1
      else
        let ratio :=
          SFdiv 53 1024 (math_Log (float64_of_int (Z.of_nat (size l0))))
                (math_Log (SFdiv 53 1024 float64_one (Ml g))) in
        wrap_int (int_of_float64 (math_Round ratio) + 1)
  end.

(** The graphs a sequence of completed [Add] and [Delete] calls builds
    from a graph without layers, whatever its configuration. *)
Inductive reachable : Graph K → Prop :=
| reachable_new distance rng m ml efSearch efConstruction plans :
    reachable (mkGraph distance rng m ml efSearch efConstruction []
                 (mkMemory ∅ plans))
| reachable_Add fuel nodes g g' :
    reachable g → Add fuel nodes g = Done (None, g') → reachable g'
| reachable_Delete key deleted g g' :
    reachable g → Delete key g = Done (deleted, g') → reachable g'.

(** Every edge is bidirectional: a neighbor of a node of layer [L] is a
    node of [L] and has the node's key in its own neighbor map. *)
Definition bidirectional (g : Graph K) : Prop :=
  ∀ (L : layer K) key a n k p,
    L ∈ layers g → L !! key = Some a → objs (mem g) !! a = Some n →
    neighbors n !! k = Some p →
    (∃ key', L !! key' = Some p) ∧
    ∃ pn, objs (mem g) !! p = Some pn ∧ is_Some (neighbors pn !! Key (lnode n)).

(** No node of a layer has more than [M] neighbors. *)
Definition within_M (g : Graph K) : Prop :=
  ∀ (L : layer K) key a n,
    L ∈ layers g → L !! key = Some a → objs (mem g) !! a = Some n →
    Z.of_nat (size (neighbors n)) ≤ M g.

(** [g'] still has every object of [g], with the node it held. *)
Definition keeps_graph (g g' : Graph K) : Prop := keeps_nodes (mem g) (mem g').

(** The keys of the graph: those of its base layer. *)
Definition keys_of (g : Graph K) : gset K := dom (default ∅ (head (layers g))).

(** [g'] is [g] but for the generator. *)
Definition only_Rng (g g' : Graph K) : Prop := g' = set_Rng g (Rng g').

(** [s'] has the objects of [s], unchanged. *)
Definition same_objs (s s' : memory K) : Prop := objs s' = objs s.

(** [g'] is [g] but for the schedule of map iteration: the parameters,
    the generator, the layers and the objects are the same. *)
Definition same_graph (g g' : Graph K) : Prop :=
  g' = set_mem g {| objs := objs (mem g); sched := sched (mem g') |}.

End properties.

(** * A concrete environment

    Integer keys, a heap, the functions graph.go takes from outside, and
    the graphs the closed statements at the end of the file run on. *)

#[global] Instance Z_Ordered : Ordered Z := {| K_zero := 0; K_lt := Z.lt |}.

(** Modelled from the spec: the heap package is not among the sources.
    A heap stores its elements ordered by [Less], ascending; [Pop] and
    [Min] give the least element, [PopLast] and [Max] the greatest, and
    [Slice] gives the contents. The heap is kept as a sorted list. *)
Fixpoint sorted_insert (c : searchCandidate) (h : list searchCandidate)
    : list searchCandidate :=
  match h with
  | [] => [c]
  | x :: h' => if Less c x then c :: h else x :: sorted_insert c h'
  end.

Fixpoint pop_last (h : list searchCandidate)
    : option (searchCandidate * list searchCandidate) :=
  match h with
  | [] => None
  | [x] => Some (x, [])
  | x :: h' => (λ r, (r.1, x :: r.2)) <$> pop_last h'
  end.

#[global] Instance list_heap : HeapOps searchCandidate := {|
  Heap := list searchCandidate;
  heap_Init := [];
  heap_Push := sorted_insert;
  heap_Pop h := match h with [] => None | x :: h' => Some (x, h') end;
  heap_PopLast := pop_last;
  heap_Min h := head h;
  heap_Max h := last h;
  heap_Len h := length h;
  heap_Slice h := h
|}.

(** The [float32] with the value of an integer, and the [float64] with
    the value [m * 2^e]. *)
Definition f32 (z : Z) : float32 := binary_normalize 24 128 z 0 false.
Definition f64 (m e : Z) : float64 := binary_normalize 53 1024 m e false.

(** Modelled from the spec: [CosineDistance] is declared outside
    graph.go; it is [1 − a·b / (‖a‖·‖b‖)], here in [float32] arithmetic. *)
Fixpoint dot (a b : Vector) : float32 :=
  match a, b with
  | x :: a', y :: b' => SFadd 24 128 (SFmul 24 128 x y) (dot a' b')
  | _, _ => S754_zero false
  end.

Definition cosine_distance : DistanceFunc :=
  λ a b,
    let norms := SFmul 24 128 (SFsqrt 24 128 (dot a a)) (SFsqrt 24 128 (dot b b)) in
    inl (SFsub 24 128 (f32 1) (SFdiv 24 128 (dot a b) norms)).

(** [math.Round]: to the nearest integer, halves away from zero. *)
Definition round_half_away (x : float64) : float64 :=
  match x with
  | S754_finite s m e =>
      if 0 <=? e then x
      else
        let p := 2 ^ (- e) in
        let q := Z.pos m / p in
        let q' := if p <=? 2 * (Z.pos m mod p) then q + 1 else q in
        binary_normalize 53 1024 (if s then - q' else q') 0 s
  | _ => x
  end.

(** [int(x)]: truncation toward zero; for NaN, the infinities and values
    outside [int] the result amd64 gives, the least [int]. *)
Definition trunc_int (x : float64) : Z :=
  match x with
  | S754_zero _ => 0
  | S754_finite s m e =>
      let a := if 0 <=? e then Z.pos m * 2 ^ e else Z.pos m / 2 ^ (- e) in
      let v := if s then - a else a in
      if (- 2 ^ 63 <=? v) && (v <? 2 ^ 63) then v else - 2 ^ 63
  | _ => - 2 ^ 63
  end.

(** [math.Log] at the arguments the graphs below reach, to [float64]
    precision: [ln 1], [ln 2], [ln 3] and [ln 4]. *)
Definition log_table (x : float64) : float64 :=
  if SFeqb x (float64_of_int 1) then S754_zero false
  else if SFeqb x (float64_of_int 2) then f64 0x162E42FEFA39EF (-53)
  else if SFeqb x (float64_of_int 3) then f64 0x1193EA7AAD030B (-52)
  else if SFeqb x (float64_of_int 4) then f64 0x162E42FEFA39EF (-52)
  else S754_nan.

(** A generator whose every draw is [0.5]. *)
Definition fixed_rng : rand := {| draws := λ _, f64 1 (-1); pos := 0 |}.

#[global] Instance go_env : Externals := {|
  CosineDistance := cosine_distance;
  math_Log := log_table;
  math_Round := round_half_away;
  int_of_float64 := trunc_int;
  defaultRand := fixed_rng
|}.

(** Two distance functions a caller may configure: the squared Euclidean
    distance, and the same with an error when the second vector is the
    origin. *)
Fixpoint sq_euclid_sum (a b : Vector) : float32 :=
  match a, b with
  | x :: a', y :: b' =>
      let d := SFsub 24 128 x y in
      SFadd 24 128 (SFmul 24 128 d d) (sq_euclid_sum a' b')
  | _, _ => S754_zero false
  end.

Definition sq_euclid : DistanceFunc := λ a b, inl (sq_euclid_sum a b).

Definition is_origin (v : Vector) : bool :=
  forallb (λ x, SFeqb x (S754_zero false)) v.

Definition origin_error : error := ErrDistance "the reference vector is the origin".

Definition guarded_sq_euclid : DistanceFunc :=
  λ a b, if is_origin b then inr origin_error else sq_euclid a b.

(** [NewGraph()] with [M] set to [m], [Distance] to [distance] and [Rng]
    to the generator that always draws [0.5], above [Ml = 0.25], so that
    every node is inserted at level 0. *)
Definition example_graph (m : Z) (distance : DistanceFunc) : Graph Z :=
  {| Distance := Some distance; Rng := Some fixed_rng;
     M := m; Ml := f64 1 (-2); EfSearch := 20; EfConstruction := 40;
     layers := []; mem := {| objs := ∅; sched := [] |} |}.

(** What a run returned, without the state it left. *)
Definition returned {S A : Type} (o : outcome (A * S)) : option A :=
  match o with
  | Done (a, _) => Some a
  | _ => None
  end.

(** The graph [Add] leaves. *)
Definition after_Add (nodes : list (Node Z)) (g : Graph Z) : Graph Z :=
  match Add 16 nodes g with
  | Done (_, g') => g'
  | _ => g
  end.

Definition after_Delete (key : Z) (g : Graph Z) : Graph Z :=
  match Delete key g with
  | Done (_, g') => g'
  | _ => g
  end.

(** Four points on a line, [M = 2]. *)
Definition line_nodes : list (Node Z) :=
  [mkNode 1 [f32 0]; mkNode 2 [f32 1]; mkNode 3 [f32 10]; mkNode 4 [f32 2]].

Definition line_graph : Graph Z := after_Add line_nodes (example_graph 2 sq_euclid).

(** One vector of three dimensions, then one of two. *)
Definition one_graph : Graph Z :=
  after_Add [mkNode 1 [f32 1; f32 1; f32 1]] (example_graph 16 sq_euclid).

Definition short_node : Node Z := mkNode 2 [f32 1; f32 1].

Definition two_graph : Graph Z := after_Add [short_node] one_graph.

(** The origin and a second point, [M = 1], with the guarded distance;
    then a third point next to the origin. *)
Definition pair_graph : Graph Z :=
  after_Add [mkNode 1 [f32 0]; mkNode 2 [f32 3]] (example_graph 1 guarded_sq_euclid).

Definition third_node : Node Z := mkNode 3 [f32 (-1)].

Definition triple_graph : Graph Z := after_Add [third_node] pair_graph.

(** The memory [Add] of [third_node] has built when it reaches its edge
    loop: the new layer node is allocated and [entry] has run twice. *)
Definition triple_memory : memory Z :=
  match (let* newNode := alloc (mkLayerNode third_node ∅) in
         let* _ := entry (default ∅ (head (layers pair_graph))) in
         let* _ := entry (default ∅ (head (layers pair_graph))) in
         ret newNode) (mem pair_graph) with
  | Done (_, s) => s
  | _ => mem pair_graph
  end.

(** Three objects: the receiver 0 with key 1 at [0] and the neighbor 1,
    the neighbor 1 with key 2 at [5], and the object 2 with key 3 at [1],
    not yet linked. *)
Definition small_memory (origin : Z) : memory Z :=
  {| objs := {[ 0%nat := mkLayerNode (mkNode 1 [f32 origin]) {[ 2 := 1%nat ]};
                1%nat := mkLayerNode (mkNode 2 [f32 5]) {[ 1 := 0%nat ]};
                2%nat := mkLayerNode (mkNode 3 [f32 1]) ∅ ]};
     sched := [] |}.

(** A graph without layers whose [Ml] is [0]. *)
Definition zero_Ml_graph : Graph Z :=
  {| Distance := Some sq_euclid; Rng := Some fixed_rng;
     M := 16; Ml := S754_zero false; EfSearch := 20; EfConstruction := 40;
     layers := []; mem := {| objs := ∅; sched := [] |} |}.

(** The replacement of the vector of key 1. *)
Definition replacement : Node Z := mkNode 1 [f32 2; f32 2; f32 2].

Definition replaced_graph : Graph Z := after_Add [replacement] one_graph.

(** The memory a call of [addNeighbor] with the guarded distance leaves
    when the receiver is the origin. *)
Definition failed_memory : memory Z :=
  match addNeighbor 0%nat 2%nat 1 guarded_sq_euclid (small_memory 0) with
  | Done (_, s) => s
  | _ => small_memory 0
  end.

(** [g] with its [Distance] field set to [d] ([None] for nil). *)
Definition with_Distance (d : option DistanceFunc) (g : Graph Z) : Graph Z :=
  {| Distance := d; Rng := Rng g; M := M g; Ml := Ml g;
     EfSearch := EfSearch g; EfConstruction := EfConstruction g;
     layers := layers g; mem := mem g |}.

(** A generator whose first draw is [0.125], below [Ml = 0.25], and whose
    other draws are [0.5]: the first node of a graph goes to level 1. *)
Definition low_first_rng : rand :=
  {| draws := λ i, match i with O => f64 1 (-3) | S _ => f64 1 (-1) end;
     pos := 0 |}.

(** Two nodes, the first in two layers and the second in the base layer
    only; then the first one deleted, which empties the top layer. *)
Definition tower_graph : Graph Z :=
  after_Add [mkNode 1 [f32 0]; mkNode 2 [f32 3]]
    {| Distance := Some sq_euclid; Rng := Some low_first_rng;
       M := 16; Ml := f64 1 (-2); EfSearch := 20; EfConstruction := 40;
       layers := []; mem := {| objs := ∅; sched := [] |} |}.

Definition topless_graph : Graph Z := after_Delete 1 tower_graph.

(** Three points on a line, each the neighbor of the other two
    ([M = 2]); then the middle one deleted. *)
Definition triangle_nodes : list (Node Z) :=
  [mkNode 1 [f32 0]; mkNode 2 [f32 1]; mkNode 3 [f32 10]].

Definition triangle_graph : Graph Z :=
  after_Add triangle_nodes (example_graph 2 sq_euclid).

Definition deleted_graph : Graph Z := after_Delete 2 triangle_graph.

(** * Proofs *)

(** ** The order of [SFltb] *)

Lemma SFltb_rank (x y : spec_float) :
  SFltb x y = true ↔ ∃ a b, SFrank x = Some a ∧ SFrank y = Some b ∧ rank_lt a b.
Proof.
  unfold SFltb, rank_lt.
  destruct x as [sx|sx| |sx mx ex], y as [sy|sy| |sy my ey]; simpl;
    try (split; [discriminate | intros (a & b & Ha & Hb & Hlt); discriminate]);
    try destruct sx; try destruct sy; simpl;
    try (split; [discriminate | intros (a & b & [= <-] & [= <-] & Hlt); simpl in Hlt; lia]);
    try (split; [intros _; eexists _, _; split; [reflexivity|]; split; [reflexivity|]; simpl; lia | reflexivity]).
  all: rewrite Pos.compare_cont_spec; simpl;
    destruct (Z.compare_spec ex ey) as [->|Hlt|Hgt]; simpl;
      [destruct (Pos.compare_spec mx my) as [->|Hm|Hm]; simpl| |];
    (split;
      [ first [ discriminate
              | intros _; eexists _, _; split; [reflexivity|]; split; [reflexivity|];
                simpl; lia ]
      | first [ reflexivity
              | intros (a & b & [= <-] & [= <-] & Hl); simpl in Hl; lia ] ]).
Qed.

Lemma SFltb_irrefl x : SFltb x x = false.
Proof.
  destruct (SFltb x x) eqn:E; [|done].
  apply SFltb_rank in E as (a & b & Ha & Hb & Hlt).
  rewrite Ha in Hb. injection Hb as <-. unfold rank_lt in Hlt. lia.
Qed.

Lemma SFltb_trans x y z : SFltb x y = true → SFltb y z = true → SFltb x z = true.
Proof.
  intros (a & b & Ha & Hb & Hab)%SFltb_rank (b' & c & Hb' & Hc & Hbc)%SFltb_rank.
  apply SFltb_rank. exists a, c. rewrite Hb in Hb'. injection Hb' as <-.
  repeat split; [done..|]. unfold rank_lt in *. lia.
Qed.

(** Between two comparable values any third value that is not NaN falls on
    one side. *)
Lemma SFltb_cotrans x y z :
  SFltb x z = true → is_Some (SFrank y) → SFltb x y = true ∨ SFltb y z = true.
Proof.
  intros (a & c & Ha & Hc & Hac)%SFltb_rank [b Hb].
  destruct (decide (rank_lt a b)) as [Hab|Hab].
  - left. apply SFltb_rank. eauto.
  - right. apply SFltb_rank. exists b, c. repeat split; [done..|].
    unfold rank_lt in *. lia.
Qed.

Lemma SFltb_nan_l x y : SFrank x = None → SFltb x y = false.
Proof.
  intros Hx. destruct (SFltb x y) eqn:E; [|done].
  apply SFltb_rank in E as (a & b & Ha & _). congruence.
Qed.

Section proofs.
Context {K : Type} `{Countable K} `{!Ordered K}.
Context `{!HeapOps searchCandidate} `{!Externals}.

Local Abbreviation same_layers := (same_layers (K := K)).
Local Abbreviation keeps_nodes := (keeps_nodes (K := K)).

(** ** MakeNodes *)

Lemma MakeNodes_loop_spec (keys : list K) (vecs : list Vector) :
  length keys = length vecs →
  ∀ (n start : nat) (nodes : list (Node K)),
    (start + n = length keys)%nat →
    length nodes = length keys →
    ∃ nodes',
      MakeNodes_loop (seq start n) keys vecs nodes = Done nodes' ∧
      length nodes' = length keys ∧
      (∀ i, (i < start)%nat → nodes' !! i = nodes !! i) ∧
      (∀ i key vec, (start ≤ i)%nat → keys !! i = Some key →
         vecs !! i = Some vec → nodes' !! i = Some (MakeNode key vec)).
Proof.
  intros Hlen n. induction n as [|n IH]; intros start nodes Hsn Hnodes.
  - exists nodes. simpl. repeat split; auto.
    intros i key vec Hi Hk. apply lookup_lt_Some in Hk. lia.
  - simpl.
    destruct (lookup_lt_is_Some_2 keys start) as [key Hkey]; [lia|].
    destruct (lookup_lt_is_Some_2 vecs start) as [vec Hvec]; [lia|].
    rewrite Hkey, Hvec.
    destruct (decide (start < length nodes)%nat) as [_|Hge]; [|lia].
    destruct (IH (S start) (<[start := MakeNode key vec]> nodes))
      as (nodes' & Hrun & Hl & Hlow & Hhigh).
    + lia.
    + rewrite length_insert. exact Hnodes.
    + exists nodes'. split; [exact Hrun|]. split; [exact Hl|]. split.
      * intros i Hi. rewrite Hlow by lia.
        apply list_lookup_insert_ne. lia.
      * intros i key' vec' Hi Hk Hv.
        destruct (decide (i = start)) as [->|Hne].
        -- rewrite Hlow by lia.
           rewrite list_lookup_insert_eq by lia. congruence.
        -- apply Hhigh; auto. lia.
Qed.

(** C10. [MakeNodes keys vecs] returns an error exactly when the two
    slices differ in length; otherwise it returns, without error, a slice
    as long as [keys] whose [i]-th node has [Key = keys[i]] and
    [Value = vecs[i]]. *)
Theorem MakeNodes_spec (keys : list K) (vecs : list Vector) :
  ∃ nodes err,
    MakeNodes keys vecs = Done (nodes, err) ∧
    (is_Some err ↔ length keys ≠ length vecs) ∧
    (err = None →
       length nodes = length keys ∧
       ∀ i key vec, keys !! i = Some key → vecs !! i = Some vec →
         ∃ node, nodes !! i = Some node ∧ Key node = key ∧ Value node = vec).
Proof.
  unfold MakeNodes.
  destruct (decide (length keys ≠ length vecs)) as [Hne|Heq].
  - exists [], (Some ErrKeysVecsLength). split; [reflexivity|].
    split; [split; eauto|]. discriminate.
  - assert (Hlen : length keys = length vecs) by lia.
    destruct (MakeNodes_loop_spec keys vecs Hlen (length keys) 0%nat
                (replicate (length keys) {| Key := K_zero; Value := [] |}))
      as (nodes' & Hrun & Hl & _ & Hhigh).
    + lia.
    + apply length_replicate.
    + rewrite Hrun. exists nodes', None. split; [reflexivity|].
      split.
      * split; [intros [? ?]; discriminate | intros ?; contradiction].
      * intros _. split; [exact Hl|].
        intros i key vec Hk Hv. exists (MakeNode key vec).
        split; [apply Hhigh; auto; lia | split; reflexivity].
Qed.



Lemma bind_Done {S A B} (c : prog S A) (k : A → prog S B) s b s'' :
  bind c k s = Done (b, s'') ↔ ∃ a s', c s = Done (a, s') ∧ k a s' = Done (b, s'').
Proof.
  unfold bind. split.
  - destruct (c s) as [[a s']| |]; [|discriminate..]. eauto.
  - intros (a & s' & -> & Hk). exact Hk.
Qed.

Lemma bind_run {S A B} (c : prog S A) (k : A → prog S B) s a s' :
  c s = Done (a, s') → bind c k s = k a s'.
Proof. intros Hc. unfold bind. by rewrite Hc. Qed.

Lemma bind_unfold {S A B} (c : prog S A) (k : A → prog S B) s :
  bind c k s = match c s with
               | Done (a, s') => k a s'
               | Panic => Panic
               | OutOfFuel => OutOfFuel
               end.
Proof. done. Qed.

Lemma ret_Done {S A} (a b : A) (s s' : S) : ret a s = Done (b, s') ↔ a = b ∧ s = s'.
Proof. unfold ret. split; [intros [= -> ->]; auto | intros [-> ->]; auto]. Qed.

Section stable.
Context {S : Type} (R : S → S → Prop) `{!PreOrder R}.

Lemma stable_ret {A} (a : A) : stable R (ret a).
Proof. intros s b s' [_ <-]%ret_Done. reflexivity. Qed.

Lemma stable_bind {A B} (c : prog S A) (k : A → prog S B) :
  stable R c → (∀ a, stable R (k a)) → stable R (bind c k).
Proof.
  intros Hc Hk s b s'' (a & s' & H1 & H2)%bind_Done.
  etransitivity; [eapply Hc | eapply Hk]; eauto.
Qed.

Lemma stable_panic {A} : stable R (@panic S A).
Proof. intros s a s'. discriminate. Qed.

Lemma stable_lift {A} (o : outcome A) : stable R (lift o).
Proof. intros s a s'. unfold lift. destruct o; intros [= _ <-] || discriminate. reflexivity. Qed.

Lemma stable_get : stable R get.
Proof. intros s a s' [= _ <-]. reflexivity. Qed.

Lemma stable_gets {A} (f : S → A) : stable R (gets f).
Proof. intros s a s' [= _ <-]. reflexivity. Qed.
End stable.

#[local] Instance keeps_nodes_preorder : PreOrder keeps_nodes.
Proof.
  split.
  - intros s a n Hn. eauto.
  - intros s1 s2 s3 H12 H23 a n Hn.
    destruct (H12 a n Hn) as (n2 & Hn2 & E2).
    destruct (H23 a n2 Hn2) as (n3 & Hn3 & E3).
    exists n3. split; [done|congruence].
Qed.

Lemma deref_Done (a : addr) (s : memory K) n s' :
  deref a s = Done (n, s') ↔ objs s !! a = Some n ∧ s' = s.
Proof.
  unfold deref. destruct (objs s !! a) as [x|]; split.
  - intros [= -> ->]. auto.
  - intros [[= ->] ->]. reflexivity.
  - discriminate.
  - intros [? _]. discriminate.
Qed.

Lemma keeps_deref a : stable keeps_nodes (deref (K := K) a).
Proof. intros s n s' [_ ->]%deref_Done. reflexivity. Qed.

Lemma keeps_set_neighbors a nb : stable keeps_nodes (set_neighbors (K := K) a nb).
Proof.
  intros s [] s'. unfold set_neighbors.
  destruct (objs s !! a) as [n|] eqn:Ha; [|discriminate].
  intros [= <-] b nb' Hb. simpl.
  destruct (decide (b = a)) as [->|Hne].
  - rewrite lookup_insert_eq. eexists. split; [done|]. simpl. congruence.
  - rewrite lookup_insert_ne by done. eauto.
Qed.

Lemma keeps_alloc n : stable keeps_nodes (alloc (K := K) n).
Proof.
  intros s a s'. unfold alloc. intros [= <- <-] b nb Hb. simpl.
  rewrite lookup_insert_ne; [eauto|].
  intros <-. apply (is_fresh (dom (objs s))). apply elem_of_dom. eauto.
Qed.

Lemma keeps_next_plan : stable keeps_nodes (next_plan (K := K)).
Proof.
  intros s a s'. unfold next_plan.
  destruct (sched s); intros [= _ <-]; intros b nb Hb; simpl; eauto.
Qed.

Lemma keeps_range_keys a body :
  (∀ k p, stable keeps_nodes (body k p)) →
  ∀ keys visited, stable keeps_nodes (range_keys (K := K) a body keys visited).
Proof.
  intros Hbody keys. induction keys as [|key keys IH]; intros visited; simpl.
  - apply stable_ret; apply _.
  - destruct (decide (key ∈ visited)) as [Hin|Hnin]; [apply IH|].
    apply stable_bind; [apply _ | apply keeps_deref |]. intros n.
    destruct (neighbors n !! key); [|apply IH].
    apply stable_bind; [apply _ | apply Hbody |]. intros [|].
    + apply IH.
    + apply stable_ret; apply _.
Qed.

Create HintDb stable discriminated.

#[local] Hint Resolve keeps_deref keeps_set_neighbors keeps_alloc keeps_next_plan : stable.
#[local] Hint Extern 1 (stable _ (ret _)) => (apply stable_ret; apply _) : stable.
#[local] Hint Extern 1 (stable _ panic) => apply stable_panic : stable.

Ltac stable_prog :=
  repeat first
    [ solve [auto with stable]
    | match goal with
      | |- stable _ (bind _ _) => apply stable_bind; [apply _ | |]
      | |- ∀ _, _ => intro
      | |- stable _ (if ?b then _ else _) => destruct b
      | |- stable _ (match ?x with _ => _ end) => destruct x
      end ].

Lemma keeps_worst_loop distance nValue entries :
  ∀ worstDist worst,
    stable keeps_nodes (worst_loop (K := K) distance nValue entries worstDist worst).
Proof.
  induction entries as [|[k neighbor] entries IH]; intros worstDist worst; simpl;
    stable_prog.
Qed.
#[local] Hint Resolve keeps_worst_loop : stable.

Lemma keeps_range_neighbors a body :
  (∀ k p, stable keeps_nodes (body k p)) →
  stable keeps_nodes (range_neighbors (K := K) a body).
Proof.
  intros Hbody. unfold range_neighbors.
  pose proof (keeps_range_keys a body Hbody). stable_prog.
Qed.

Lemma keeps_addNeighbor_with replenish n newNode m distance :
  (∀ a m, stable keeps_nodes (replenish a m)) →
  stable keeps_nodes (addNeighbor_with (K := K) replenish n newNode m distance).
Proof. intros Hrep. unfold addNeighbor_with. stable_prog. Qed.

Lemma keeps_replenish_with addN n m :
  (∀ a b m d, stable keeps_nodes (addN a b m d)) →
  stable keeps_nodes (replenish_with (K := K) addN n m).
Proof.
  intros HaddN. unfold replenish_with. stable_prog.
  apply keeps_range_neighbors. intros _ neighbor.
  apply keeps_range_neighbors. intros key candidate. stable_prog.
Qed.

Lemma keeps_replenish n m : stable keeps_nodes (replenish (K := K) n m).
Proof.
  apply keeps_replenish_with. intros a b m' d.
  apply keeps_addNeighbor_with. intros a' m'' s x s'. discriminate.
Qed.
#[local] Hint Resolve keeps_replenish : stable.

Lemma keeps_addNeighbor n newNode m distance :
  stable keeps_nodes (addNeighbor (K := K) n newNode m distance).
Proof. apply keeps_addNeighbor_with. intros. apply keeps_replenish. Qed.
#[local] Hint Resolve keeps_addNeighbor : stable.

Lemma keeps_isolate n m : stable keeps_nodes (isolate (K := K) n m).
Proof.
  unfold isolate. stable_prog. apply keeps_range_neighbors. intros. stable_prog.
Qed.
#[local] Hint Resolve keeps_isolate : stable.

Lemma keeps_add_edges neighborhood newNode m distance :
  stable keeps_nodes (add_edges (K := K) neighborhood newNode m distance).
Proof. induction neighborhood as [|c rest IH]; simpl; stable_prog. Qed.
#[local] Hint Resolve keeps_add_edges : stable.

Lemma keeps_entry (l : layer K) : stable keeps_nodes (entry l).
Proof. unfold entry. stable_prog. Qed.
#[local] Hint Resolve keeps_entry : stable.

Lemma omap_lookup_keys (m : gmap K addr) (l : list (K * addr)) :
  (∀ k p, (k, p) ∈ l → m !! k = Some p) →
  omap (λ k, (λ p, (k, p)) <$> m !! k) l.*1 = l.
Proof.
  induction l as [|[k p] l IH]; intros Hl; simpl; [done|].
  rewrite (Hl k p) by left. simpl. f_equal. apply IH.
  intros k' p' Hin. apply Hl. by right.
Qed.

Lemma range_order_perm (plan : list K) (m : gmap K addr) :
  range_order plan m ≡ₚ map_to_list m.
Proof.
  unfold range_order.
  set (first := remove_dups (filter (λ k, is_Some (m !! k)) plan)).
  set (keys := (map_to_list m).*1).
  assert (Hkeys : ∀ k, k ∈ keys ↔ is_Some (m !! k)).
  { intros k. unfold keys. rewrite list_elem_of_fmap. split.
    - intros ([k' p] & -> & Hin). apply elem_of_map_to_list in Hin. eauto.
    - intros [p Hp]. exists (k, p). split; [done|]. by apply elem_of_map_to_list. }
  assert (Hperm : first ++ filter (λ k, k ∉ first) keys ≡ₚ keys).
  { apply NoDup_Permutation.
    - apply NoDup_app. split; [apply NoDup_remove_dups|]. split.
      + intros k Hk1 Hk2%list_elem_of_filter. tauto.
      + apply NoDup_filter, NoDup_fst_map_to_list.
    - apply NoDup_fst_map_to_list.
    - intros k. rewrite elem_of_app, list_elem_of_filter. split.
      + intros [Hk|[_ Hk]]; [|done]. apply Hkeys.
        unfold first in Hk. rewrite elem_of_remove_dups, list_elem_of_filter in Hk. tauto.
      + intros Hk. destruct (decide (k ∈ first)); auto. }
  rewrite Hperm. unfold keys. rewrite omap_lookup_keys; [done|].
  intros k p Hin. by apply elem_of_map_to_list.
Qed.

Lemma range_order_nil (plan : list K) (m : gmap K addr) :
  range_order plan m = [] ↔ m = ∅.
Proof.
  rewrite <- map_to_list_empty_iff. split; intros E.
  - apply Permutation_nil_r. rewrite <- E. symmetry. apply range_order_perm.
  - apply Permutation_nil_r. rewrite <- E. apply range_order_perm.
Qed.

Lemma next_plan_Done (s : memory K) plan s' :
  next_plan s = Done (plan, s') → objs s' = objs s.
Proof. unfold next_plan. destruct (sched s); intros [= _ <-]; done. Qed.

Lemma entry_Done (l : layer K) s e s' :
  entry l s = Done (e, s') → objs s' = objs s ∧ (e = None ↔ l = ∅).
Proof.
  unfold entry. intros (plan & s1 & Hplan & [<- <-]%ret_Done)%bind_Done.
  split; [by eapply next_plan_Done|].
  rewrite <- (range_order_nil plan l).
  destruct (range_order plan l); simpl; split; done.
Qed.

Lemma on_mem_Done {A} (c : prog (memory K) A) g a g' :
  on_mem c g = Done (a, g') ↔ ∃ s', c (mem g) = Done (a, s') ∧ g' = set_mem g s'.
Proof.
  unfold on_mem. destruct (c (mem g)) as [[a' s']| |]; split.
  - intros [= -> <-]. eauto.
  - intros (s'' & [= -> ->] & ->). done.
  - discriminate.
  - intros (? & ? & _). discriminate.
  - discriminate.
  - intros (? & ? & _). discriminate.
Qed.

Lemma modify_layer_Done i f (g : Graph K) u g' :
  modify_layer i f g = Done (u, g') ↔
  ∃ l, layers g !! i = Some l ∧ g' = set_layers g (<[i := f l]> (layers g)).
Proof.
  unfold modify_layer. destruct (layers g !! i) as [l|]; split.
  - intros [= <-]. eauto.
  - intros (l' & [= <-] & ->). by destruct u.
  - discriminate.
  - intros (? & ? & _). discriminate.
Qed.

Lemma on_mem_keeps {A} (c : prog (memory K) A) g a g' :
  stable keeps_nodes c → on_mem c g = Done (a, g') →
  layers g' = layers g ∧ keeps_nodes (mem g) (mem g').
Proof.
  intros Hc (s' & Hrun & ->)%on_mem_Done. split; [done|]. simpl. eapply Hc, Hrun.
Qed.

Lemma Add_layers_step fuel key vec lvl i el wu (g : Graph K) r g' :
  Add_layers fuel key vec lvl (S i) el wu g = Done (r, g') →
  ∃ l, layers g !! i = Some l ∧
    let newNode := fresh (dom (objs (mem g))) in
    ((∃ e, r = inl e) ∨
     ∃ g1 el' wu',
       Add_layers fuel key vec lvl i el' wu' g1 = Done (r, g') ∧
       layers g1 = <[i := layer_after i lvl key newNode l]> (layers g) ∧
       ∃ n', objs (mem g1) !! newNode = Some n' ∧ lnode n' = mkNode key vec).
Proof.
  simpl. intros (g0 & ? & [= <- <-] & Hrun)%bind_Done.
  destruct (layers g !! i) as [l|] eqn:Hl; [|discriminate].
  exists l. split; [done|]. simpl.
  apply bind_Done in Hrun as (newNode & ga & Halloc & Hrun).
  apply on_mem_Done in Halloc as (sa & Halloc & ->).
  unfold alloc in Halloc. injection Halloc as <- <-.
  set (newNode := fresh (dom (objs (mem g)))) in *.
  set (ga := set_mem g _) in *.
  assert (Hnew : ∃ n', objs (mem ga) !! newNode = Some n' ∧ lnode n' = mkNode key vec).
  { eexists. split; [apply lookup_insert_eq|done]. }
  assert (Hla : layers ga = layers g) by done.
  clearbody ga.
  assert (Hkeep : ∀ g1, keeps_nodes (mem ga) (mem g1) →
            ∃ n', objs (mem g1) !! newNode = Some n' ∧ lnode n' = mkNode key vec).
  { intros g1 Hk. destruct Hnew as (n0 & Hn0 & E0).
    destruct (Hk _ _ Hn0) as (n1 & Hn1 & E1). exists n1. split; [done|congruence]. }
  apply bind_Done in Hrun as (e & ge & Hentry & Hrun).
  pose proof Hentry as (se & Hentry' & ->)%on_mem_Done.
  apply entry_Done in Hentry' as [_ Hempty].
  apply on_mem_keeps in Hentry as [Hle Hke]; [|apply keeps_entry].
  destruct e as [e0|].
  - (* the layer has an entry *)
    assert (Hne : l ≠ ∅) by (intros E; apply Hempty in E; discriminate).
    apply bind_Done in Hrun as (e & g2 & Hentry2 & Hrun).
    apply on_mem_keeps in Hentry2 as [Hl2 Hk2]; [|apply keeps_entry].
    destruct (Distance g) as [distance|];
      [|apply ret_Done in Hrun as [<- _]; left; eauto].
    apply bind_Done in Hrun as (s & ? & [= <- <-] & Hrun).
    apply bind_Done in Hrun as (found & g3 & Hfound & Hrun).
    assert (g3 = g2) as ->.
    { unfold lift in Hfound. destruct (search _ _ _ _ _ _ _); congruence. }
    clear Hfound.
    destruct found as [[|c0 rest]|err];
      [apply ret_Done in Hrun as [<- _]; left; eauto | |
       apply ret_Done in Hrun as [<- _]; left; eauto].
    apply bind_Done in Hrun as (n1 & g3 & Hderef & Hrun).
    apply on_mem_keeps in Hderef as [Hl3 Hk3]; [|apply keeps_deref].
    assert (Hk03 : keeps_nodes (mem ga) (mem g3)).
    { etransitivity; [exact Hke|]. etransitivity; [exact Hk2|exact Hk3]. }
    assert (Hlay3 : layers g3 = layers g) by congruence.
    unfold layer_after. rewrite decide_False by done.
    destruct (decide (Z.of_nat i ≤ lvl)) as [Hle'|Hgt].
    + apply bind_Done in Hrun as (wu' & g4 & Hupd & Hrun).
      assert (Hg4 : keeps_nodes (mem ga) (mem g4) ∧
                ∃ l4, layers g4 = <[i := l4]> (layers g) ∧ <[key := newNode]> l4 = <[key := newNode]> l).
      { destruct (l !! key) as [old|] eqn:Hold.
        - apply bind_Done in Hupd as ([] & g5 & Hdel & Hupd).
          apply modify_layer_Done in Hdel as (l5 & Hl5 & ->).
          apply bind_Done in Hupd as ([] & g6 & Hiso & Hupd).
          apply on_mem_keeps in Hiso as [Hl6 Hk6]; [|apply keeps_isolate].
          apply ret_Done in Hupd as [_ <-]. split.
          + etransitivity; [exact Hk03|exact Hk6].
          + exists (delete key l). rewrite Hl6. simpl.
            rewrite Hlay3 in Hl5 |- *. rewrite Hl in Hl5. injection Hl5 as <-.
            split; [done|]. apply insert_delete_eq.
        - apply ret_Done in Hupd as [_ <-]. split; [done|].
          exists l. split; [|done]. rewrite Hlay3. symmetry. by apply list_insert_id. }
      destruct Hg4 as (Hk4 & l4 & Hlay4 & Hins).
      apply bind_Done in Hrun as ([] & g5 & Hmod & Hrun).
      apply modify_layer_Done in Hmod as (l5 & Hl5 & ->).
      apply bind_Done in Hrun as ([] & g6 & Hedges & Hrun).
      apply on_mem_keeps in Hedges as [Hl6 Hk6]; [|apply keeps_add_edges].
      right. exists g6, (Some (Key (lnode n1))), wu'. split; [done|]. split.
      * rewrite Hl6. simpl. rewrite Hlay4 in Hl5 |- *.
        rewrite list_lookup_insert_eq in Hl5 by (by eapply lookup_lt_Some).
        injection Hl5 as <-. rewrite list_insert_insert_eq. by rewrite Hins.
      * apply Hkeep. etransitivity; [exact Hk4|exact Hk6].
    + right. exists g3, (Some (Key (lnode n1))), wu. split; [done|]. split.
      * rewrite Hlay3. symmetry. by apply list_insert_id.
      * by apply Hkeep.
  - (* the layer is empty: it is seeded with the new node *)
    assert (l = ∅) as -> by (by apply Hempty).
    apply bind_Done in Hrun as ([] & g2 & Hmod & Hrun).
    apply modify_layer_Done in Hmod as (l2 & Hl2 & ->).
    right. exists (set_layers (set_mem ga se) (<[i := {[key := newNode]}]> (layers (set_mem ga se)))), el, wu.
    split; [done|]. split.
    + simpl. unfold layer_after. rewrite decide_True by done. by rewrite Hla.
    + by apply Hkeep.
Qed.

#[local] Instance same_layers_preorder : PreOrder same_layers.
Proof.
  split; [done|]. unfold same_layers. intros g1 g2 g3 H12 H23. congruence.
Qed.

Lemma same_layers_on_mem {A} (c : prog (memory K) A) : stable same_layers (on_mem c).
Proof. intros g a g' (s' & _ & ->)%on_mem_Done. done. Qed.

Lemma same_layers_Float64 : stable same_layers (Float64 (K := K)).
Proof. intros g a g' [= _ <-]. done. Qed.

#[local] Hint Resolve same_layers_on_mem same_layers_Float64 : stable.
#[local] Hint Extern 1 (stable _ get) => (apply stable_get; apply _) : stable.
#[local] Hint Extern 1 (stable _ (gets _)) => (apply stable_gets; apply _) : stable.

Lemma same_layers_randomLevel_loop steps :
  ∀ level max, stable same_layers (randomLevel_loop steps level max).
Proof. induction steps as [|steps IH]; intros level max; simpl; stable_prog. Qed.
#[local] Hint Resolve same_layers_randomLevel_loop : stable.

Lemma same_layers_randomLevel : stable same_layers (randomLevel (K := K)).
Proof. unfold randomLevel. stable_prog. Qed.

Lemma same_layers_Dims : stable same_layers (Dims (K := K)).
Proof. unfold Dims. stable_prog. Qed.
#[local] Hint Resolve same_layers_Dims : stable.

Lemma same_layers_assertDims vec : stable same_layers (assertDims vec).
Proof. unfold assertDims. stable_prog. Qed.

(** What a successful [Add] of one node went through. *)
Lemma Add_node_Done fuel nd (g g' : Graph K) :
  Add_node fuel nd g = Done (None, g') →
  ∃ lvl g1 wu,
    0 ≤ lvl ∧
    layers g1 = layers g ++ replicate (Z.to_nat (lvl + 1 - Z.of_nat (length (layers g)))) ∅ ∧
    Add_layers fuel (Key nd) (Value nd) lvl (length (layers g1)) None false g1
      = Done (inr wu, g').
Proof.
  unfold Add_node. intros (x & ga & Hdims & Hrun)%bind_Done.
  apply same_layers_assertDims in Hdims.
  apply bind_Done in Hrun as ([lvl err] & gb & Hlvl & Hrun).
  apply same_layers_randomLevel in Hlvl.
  destruct err as [err|]; [apply ret_Done in Hrun as [[=] _]|].
  apply bind_Done in Hrun as ([] & gc & [= <-] & Hrun).
  destruct (decide (lvl < 0)) as [Hneg|Hpos]; [apply ret_Done in Hrun as [[=] _]|].
  apply bind_Done in Hrun as (preLen & ? & [= <- <-] & Hrun).
  apply bind_Done in Hrun as (gd & ? & [= <- <-] & Hrun).
  apply bind_Done in Hrun as (r & ge & Hlayers & Hrun).
  destruct r as [err|wu]; [apply ret_Done in Hrun as [[=] _]|].
  assert (ge = g') as ->.
  { apply bind_Done in Hrun as (len & ? & [= <- <-] & Hrun).
    repeat case_match; apply ret_Done in Hrun as [_ ->]; done. }
  eexists lvl, _, wu. split; [lia|]. split; [|exact Hlayers].
  simpl. unfold same_layers in *. congruence.
Qed.

Lemma Add_Done fuel nd (g g' : Graph K) :
  Add fuel [nd] g = Done (None, g') → Add_node fuel nd g = Done (None, g').
Proof.
  simpl. intros ([e|] & g1 & Hnode & Hrun)%bind_Done;
    apply ret_Done in Hrun as [[=] <-]. done.
Qed.

Lemma Add_layers_base fuel key vec lvl n :
  ∀ el wu (g : Graph K) wu' g',
    Add_layers fuel key vec lvl n el wu g = Done (inr wu', g') →
    (0 < n)%nat →
    ∀ l0, layers g !! 0%nat = Some l0 →
      ∃ newNode n',
        layers g' !! 0%nat = Some (layer_after 0 lvl key newNode l0) ∧
        objs (mem g') !! newNode = Some n' ∧ lnode n' = mkNode key vec.
Proof.
  induction n as [|i IH]; intros el wu g wu' g' Hrun Hn l0 Hl0; [lia|].
  apply Add_layers_step in Hrun as (l & Hl & [[e [=]]|(g1 & el' & wu1 & Hrest & Hlay & Hnew)]).
  destruct i as [|i].
  - apply ret_Done in Hrest as [_ <-].
    assert (l = l0) as -> by congruence.
    destruct Hnew as (n' & Hn' & E). eexists _, n'. split; [|done].
    rewrite Hlay. apply list_lookup_insert_eq. by eapply lookup_lt_Some.
  - eapply IH; [exact Hrest | lia |].
    rewrite Hlay. rewrite list_lookup_insert_ne by done. exact Hl0.
Qed.

Lemma Add_base_layer fuel nd (g g' : Graph K) :
  Add fuel [nd] g = Done (None, g') →
  ∃ lvl newNode n' rest',
    0 ≤ lvl ∧
    layers g' = layer_after 0 lvl (Key nd) newNode (default ∅ (head (layers g))) :: rest' ∧
    objs (mem g') !! newNode = Some n' ∧ lnode n' = mkNode (Key nd) (Value nd).
Proof.
  intros (lvl & g1 & wu & Hlvl & Hlay1 & Hrun)%Add_Done%Add_node_Done.
  assert (Hhead : layers g1 !! 0%nat = Some (default ∅ (head (layers g)))).
  { rewrite Hlay1. destruct (layers g) as [|l0 ls]; simpl; [|done].
    destruct (Z.to_nat _) eqn:E; [simpl in E; lia|done]. }
  eapply Add_layers_base in Hrun as (newNode & n' & Hl' & Hn' & E); [| |exact Hhead].
  - destruct (layers g') as [|l0' rest'] eqn:E'; [discriminate|].
    injection Hl' as ->. exists lvl, newNode, n', rest'. done.
  - apply lookup_lt_Some in Hhead. lia.
Qed.

Lemma Add_Lookup fuel (g : Graph K) nd g' :
  Add fuel [nd] g = Done (None, g') →
  Lookup g' (Key nd) = Done (Value nd, true).
Proof.
  intros (lvl & newNode & n' & rest' & Hlvl & Hlay & Hn' & E)%Add_base_layer.
  unfold Lookup. rewrite Hlay.
  assert (Hk : layer_after 0 lvl (Key nd) newNode (default ∅ (head (layers g))) !! Key nd
               = Some newNode).
  { unfold layer_after. case_decide; [apply lookup_singleton_eq|].
    rewrite decide_True by lia. apply lookup_insert_eq. }
  rewrite Hk, Hn', E. done.
Qed.

(** C9. After a successful [Add] of one node, [Lookup] of its key gives
    its vector, whether or not the key was there before; so a second
    successful [Add] under the same key makes [Lookup] give the second
    vector. *)
Theorem Add_then_Lookup fuel (g : Graph K) nd g' :
  Add fuel [nd] g = Done (None, g') →
  Lookup g' (Key nd) = Done (Value nd, true) ∧
  ∀ v' g'',
    Add fuel [mkNode (Key nd) v'] g' = Done (None, g'') →
    Lookup g'' (Key nd) = Done (v', true).
Proof.
  intros Hadd. split; [by eapply Add_Lookup|].
  intros v' g'' Hadd'. by apply (Add_Lookup fuel g' (mkNode (Key nd) v') g'').
Qed.

(** C6. After a successful [Add] of one node, [Len] is what it was when
    the key was already in the graph, and one more when it was not; an
    [Add] that would leave any other [Len] does not succeed. *)
Theorem Add_Len fuel (g : Graph K) nd g' :
  Add fuel [nd] g = Done (None, g') →
  (has_key g (Key nd) → Len g' = Len g) ∧
  (¬ has_key g (Key nd) → Len g' = Len g + 1).
Proof.
  intros (lvl & newNode & n' & rest' & Hlvl & Hlay & _)%Add_base_layer.
  unfold Len, has_key, layer_size. rewrite Hlay. unfold layer_after.
  destruct (layers g) as [|l0 ls]; simpl.
  - rewrite decide_True by done. rewrite map_size_singleton. split; [done|lia].
  - split.
    + intros [a Ha]. rewrite decide_False by (intros ->; by rewrite lookup_empty in Ha).
      rewrite decide_True by lia. rewrite map_size_insert_Some by eauto. done.
    + intros Hno. apply eq_None_not_Some in Hno.
      case_decide as Hemp.
      * subst l0. rewrite map_size_singleton, map_size_empty. lia.
      * rewrite decide_True by lia. rewrite map_size_insert_None by done. lia.
Qed.

Lemma wp_Done {S A} (c : prog S A) (Q : A → S → Prop) s :
  wp c Q s ↔ ∃ a s', c s = Done (a, s') ∧ Q a s'.
Proof.
  unfold wp. destruct (c s) as [[a s']| |]; split; try done.
  - eauto.
  - intros (? & ? & [= <- <-] & ?). done.
  - intros (? & ? & [=] & _).
  - intros (? & ? & [=] & _).
Qed.

Lemma wp_ret {S A} (a : A) (Q : A → S → Prop) s : Q a s → wp (ret a) Q s.
Proof. done. Qed.

Lemma wp_bind {S A B} (c : prog S A) (k : A → prog S B) (Q : B → S → Prop) s :
  wp c (λ a s', wp (k a) Q s') s → wp (bind c k) Q s.
Proof. unfold wp, bind. destruct (c s) as [[a s']| |]; done. Qed.

Lemma wp_mono {S A} (c : prog S A) (Q Q' : A → S → Prop) s :
  (∀ a s', Q a s' → Q' a s') → wp c Q s → wp c Q' s.
Proof. unfold wp. destruct (c s) as [[a s']| |]; auto. Qed.

Lemma wp_deref (a : addr) (Q : layerNode K → memory K → Prop) s n :
  objs s !! a = Some n → Q n s → wp (deref a) Q s.
Proof. intros Ha HQ. unfold wp, deref. by rewrite Ha. Qed.

Lemma wp_set_neighbors (a : addr) nb (Q : unit → memory K → Prop) s n :
  objs s !! a = Some n →
  Q tt {| objs := <[a := {| lnode := lnode n; neighbors := nb |}]> (objs s);
          sched := sched s |} →
  wp (set_neighbors a nb) Q s.
Proof. intros Ha HQ. unfold wp, set_neighbors. by rewrite Ha. Qed.

Lemma wp_next_plan (Q : list K → memory K → Prop) s :
  (∀ plan sch, Q plan {| objs := objs s; sched := sch |}) → wp next_plan Q s.
Proof.
  intros HQ. unfold wp, next_plan. destruct s as [st [|plan rest]]; simpl; apply HQ.
Qed.

Lemma closed_on_sched D (s : memory K) sch :
  closed_on D s → closed_on D {| objs := objs s; sched := sch |}.
Proof. done. Qed.

Lemma closed_on_lookup D (s : memory K) a :
  closed_on D s → a ∈ D → ∃ n, objs s !! a = Some n.
Proof. intros [<- _] Ha. by apply elem_of_dom in Ha. Qed.

Lemma closed_on_neighbor D (s : memory K) a n k p :
  closed_on D s → objs s !! a = Some n → neighbors n !! k = Some p → p ∈ D.
Proof. intros [<- Hc] Ha Hp. apply elem_of_dom. exact (Hc a n Ha k p Hp). Qed.

Lemma closed_on_update D (s : memory K) a n nb sch :
  closed_on D s → objs s !! a = Some n →
  (∀ k p, nb !! k = Some p → p ∈ D) →
  closed_on D {| objs := <[a := {| lnode := lnode n; neighbors := nb |}]> (objs s);
                 sched := sch |}.
Proof.
  intros [HD Hc] Ha Hnb. split; simpl.
  - rewrite dom_insert_L, HD. apply elem_of_dom_2 in Ha. rewrite HD in Ha.
    apply subseteq_union_1_L. by apply singleton_subseteq_l.
  - intros b nb' Hb k p Hp.
    assert (Hin : p ∈ dom (objs s)).
    { destruct (decide (b = a)) as [->|Hne].
      - rewrite lookup_insert_eq in Hb. injection Hb as <-. simpl in Hp.
        rewrite HD. eauto.
      - rewrite lookup_insert_ne in Hb by done. apply elem_of_dom.
        exact (Hc b nb' Hb k p Hp). }
    apply elem_of_dom in Hin as [x Hx].
    destruct (decide (p = a)) as [->|Hne].
    + rewrite lookup_insert_eq. eauto.
    + rewrite lookup_insert_ne by done. eauto.
Qed.

Lemma wp_range_keys (I J : memory K → Prop) a body :
  (∀ s, I s → is_Some (objs s !! a)) →
  (∀ k p s n, I s → objs s !! a = Some n → neighbors n !! k = Some p →
     wp (body k p) (flow_post I J) s) →
  ∀ keys visited s, I s →
    wp (range_keys a body keys visited) (λ r s', flow_post I J r.1 s') s.
Proof.
  intros Hvalid Hbody keys. induction keys as [|key keys IH]; intros visited s HI; simpl.
  - by apply wp_ret.
  - destruct (decide (key ∈ visited)) as [Hin|Hnin]; [by apply IH|].
    apply wp_bind. destruct (Hvalid s HI) as [n Hn].
    eapply wp_deref; [exact Hn|].
    destruct (neighbors n !! key) as [p|] eqn:Hp; [|by apply IH].
    apply wp_bind. eapply wp_mono; [|by eapply Hbody].
    intros [|] s' Hpost; simpl in Hpost.
    + by apply IH.
    + by apply wp_ret.
Qed.

Lemma wp_range_neighbors (I J : memory K → Prop) a body :
  (∀ s sch, I s → I {| objs := objs s; sched := sch |}) →
  (∀ s, I s → is_Some (objs s !! a)) →
  (∀ k p s n, I s → objs s !! a = Some n → neighbors n !! k = Some p →
     wp (body k p) (flow_post I J) s) →
  ∀ s, I s → wp (range_neighbors a body) (flow_post I J) s.
Proof.
  intros Hsched Hvalid Hbody s HI. unfold range_neighbors.
  apply wp_bind. destruct (Hvalid s HI) as [n Hn].
  eapply wp_deref; [exact Hn|].
  apply wp_bind, wp_next_plan. intros plan sch.
  apply wp_bind. eapply wp_mono; [|apply (wp_range_keys I J); eauto].
  intros [[|] visited] s' Hpost; simpl in Hpost.
  - apply wp_bind. eapply wp_mono; [|apply (wp_range_keys I J); eauto].
    intros r s'' Hpost'. by apply wp_ret.
  - by apply wp_ret.
Qed.

Lemma size_insert_le (m : gmap K addr) k p : (size (<[k := p]> m) ≤ S (size m))%nat.
Proof.
  destruct (m !! k) eqn:E.
  - rewrite map_size_insert_Some by eauto. lia.
  - rewrite map_size_insert_None by done. lia.
Qed.

(** Below [m] neighbors, [addNeighbor] inserts and returns: it does not
    look for a worst neighbor and does not call [replenish]. *)
Lemma wp_addNeighbor_below R n c m d (s : memory K) nn cn (Q : option error → memory K → Prop) :
  objs s !! n = Some nn → objs s !! c = Some cn →
  Z.of_nat (size (neighbors nn)) < m →
  Q None {| objs := <[n := {| lnode := lnode nn;
                              neighbors := <[Key (lnode cn) := c]> (neighbors nn) |}]> (objs s);
            sched := sched s |} →
  wp (addNeighbor_with R n c m d) Q s.
Proof.
  intros Hn Hc Hsize HQ. unfold addNeighbor_with.
  apply wp_bind. eapply wp_deref; [exact Hn|].
  apply wp_bind. eapply wp_deref; [exact Hc|].
  apply wp_bind. eapply wp_set_neighbors; [exact Hn|].
  apply wp_bind. eapply wp_deref; [apply lookup_insert_eq|]. simpl.
  pose proof (size_insert_le (neighbors nn) (Key (lnode cn)) c).
  rewrite decide_True by lia. by apply wp_ret.
Qed.

(** [replenish] returns on a closed store; it leaves the store closed and
    writes to the receiver only. *)
Lemma wp_replenish D n m (s : memory K) :
  closed_on D s → n ∈ D →
  wp (replenish n m)
     (λ _ s', closed_on D s' ∧ ∀ a, a ≠ n → objs s' !! a = objs s !! a) s.
Proof.
  intros Hcl Hn. unfold replenish, replenish_with.
  destruct (closed_on_lookup D s n Hcl Hn) as [nn Hnn].
  apply wp_bind. eapply wp_deref; [exact Hnn|].
  destruct (decide (m ≤ Z.of_nat (size (neighbors nn)))) as [Hfull|Hroom];
    [by apply wp_ret|].
  set (J := λ s' : memory K,
              closed_on D s' ∧ ∀ a, a ≠ n → objs s' !! a = objs s !! a).
  set (I := λ s' : memory K,
              J s' ∧ ∃ nn, objs s' !! n = Some nn ∧ Z.of_nat (size (neighbors nn)) < m).
  assert (HIsched : ∀ s sch, I s → I {| objs := objs s; sched := sch |}) by done.
  apply wp_bind.
  eapply wp_mono;
    [|apply (wp_range_neighbors I J); [exact HIsched| | |]].
  - intros c s' Hpost. apply wp_ret. destruct c; simpl in Hpost; [apply Hpost|done].
  - intros s0 [_ (nn0 & Hnn0 & _)]. eauto.
  - intros k0 neighbor s0 nn0 HI0 Hnn0 Hnb.
    assert (Hnb_in : neighbor ∈ D)
      by exact (closed_on_neighbor D s0 n nn0 k0 neighbor (proj1 (proj1 HI0)) Hnn0 Hnb).
    apply (wp_range_neighbors I J); [exact HIsched| | |exact HI0].
    + intros s1 [[Hc1 _] _]. destruct (closed_on_lookup D s1 neighbor Hc1 Hnb_in); eauto.
    + intros key candidate s1 nb1 [[Hc1 Hfr1] (nn1 & Hnn1 & Hsz1)] Hnb1 Hcand.
      assert (Hcand_in : candidate ∈ D)
        by exact (closed_on_neighbor D s1 neighbor nb1 key candidate Hc1 Hnb1 Hcand).
      destruct (closed_on_lookup D s1 candidate Hc1 Hcand_in) as [cn Hcn].
      apply wp_bind. eapply wp_deref; [exact Hnn1|].
      assert (HI1 : I s1) by (split; [split|]; eauto).
      destruct (decide (is_Some (neighbors nn1 !! key))); [by apply wp_ret|].
      destruct (decide (candidate = n)); [by apply wp_ret|].
      apply wp_bind. eapply wp_addNeighbor_below; [exact Hnn1|exact Hcn|exact Hsz1|].
      assert (Hc2 : J
                {| objs := <[n := {| lnode := lnode nn1;
                                     neighbors := <[Key (lnode cn) := candidate]> (neighbors nn1) |}]>
                             (objs s1);
                   sched := sched s1 |}).
      { split.
        - apply closed_on_update; [done..|].
          intros k p [[_ <-]|[_ Hp]]%lookup_insert_Some; [done|].
          exact (closed_on_neighbor D s1 n nn1 k p Hc1 Hnn1 Hp).
        - intros a Ha. simpl. rewrite lookup_insert_ne by done. by apply Hfr1. }
      apply wp_bind. eapply wp_deref; [apply lookup_insert_eq|]. simpl.
      destruct (decide (m ≤ _)) as [Hfull'|Hroom']; apply wp_ret; simpl; [done|].
      split; [done|]. eexists. split; [apply lookup_insert_eq|]. simpl. lia.
  - split; [done|]. exists nn. split; [done|lia].
Qed.

Lemma wp_isolate D n m (s : memory K) :
  closed_on D s → n ∈ D → wp (isolate n m) (λ _ s', closed_on D s') s.
Proof.
  intros Hcl Hn. unfold isolate. apply wp_bind.
  eapply wp_mono;
    [|apply (wp_range_neighbors (closed_on D) (closed_on D));
      [apply closed_on_sched| | |exact Hcl]].
  - intros c s' Hpost. apply wp_ret. by destruct c.
  - intros s0 Hc0. destruct (closed_on_lookup D s0 n Hc0 Hn); eauto.
  - intros k0 neighbor s0 nn0 Hc0 Hnn0 Hnb.
    assert (Hnb_in : neighbor ∈ D)
      by exact (closed_on_neighbor D s0 n nn0 k0 neighbor Hc0 Hnn0 Hnb).
    destruct (closed_on_lookup D s0 neighbor Hc0 Hnb_in) as [nb Hnb'].
    apply wp_bind. eapply wp_deref; [exact Hnn0|].
    apply wp_bind. eapply wp_deref; [exact Hnb'|].
    apply wp_bind. eapply wp_set_neighbors; [exact Hnb'|].
    apply wp_bind. eapply wp_mono; [|apply (wp_replenish D); [|exact Hnb_in]].
    + intros [] s1 [Hc1 _]. by apply wp_ret.
    + apply closed_on_update; [done..|].
      intros k p [_ Hp]%lookup_delete_Some.
      exact (closed_on_neighbor D s0 neighbor nb k p Hc0 Hnb' Hp).
Qed.

Lemma set_mem_layers_id (g : Graph K) : set_mem (set_layers g (layers g)) (mem g) = g.
Proof. by destruct g. Qed.

Lemma elem_of_list_insert_inv {A} (l : list A) i x y :
  y ∈ <[i := x]> l → y ∈ l ∨ y = x.
Proof.
  intros [j Hj]%list_elem_of_lookup_1. destruct (decide (i = j)) as [->|Hne].
  - right. pose proof (lookup_lt_Some _ _ _ Hj) as Hlt. rewrite length_insert in Hlt.
    rewrite list_lookup_insert_eq in Hj by done. congruence.
  - left. rewrite list_lookup_insert_ne in Hj by done. by eapply list_elem_of_lookup_2.
Qed.

Lemma Delete_layers_spec key D n :
  ∀ start deleted (g : Graph K),
    (start + n = length (layers g))%nat →
    closed_on D (mem g) →
    (∀ l k a, l ∈ layers g → l !! k = Some a → a ∈ D) →
    ∃ s',
      isolate_all (detached (drop start (layers g)) key) (M g) (mem g) = Done (tt, s') ∧
      Delete_layers key (seq start n) deleted g =
        Done (deleted || bool_decide (detached (drop start (layers g)) key ≠ []),
              set_mem (set_layers g (take start (layers g) ++
                                     (delete key <$> drop start (layers g)))) s').
Proof.
  induction n as [|n IH]; intros start deleted g Hlen Hcl Hptr.
  - rewrite drop_ge, take_ge by lia. simpl. exists (mem g). split; [done|].
    rewrite app_nil_r, set_mem_layers_id. unfold ret. by rewrite orb_false_r.
  - destruct (lookup_lt_is_Some_2 (layers g) start) as [l Hl]; [lia|].
    rewrite (drop_S _ _ _ Hl). simpl.
    rewrite (bind_run get _ g g g) by done. rewrite Hl.
    destruct (l !! key) as [nd|] eqn:Hkey.
    + set (g1 := set_layers g (<[start := delete key l]> (layers g))).
      rewrite (bind_run (modify_layer start (delete key)) _ g tt g1)
        by (apply modify_layer_Done; eauto).
      assert (Hnd : nd ∈ D) by (eapply Hptr; [by eapply list_elem_of_lookup_2|done]).
      pose proof (wp_isolate D nd (M g) (mem g) Hcl Hnd) as Hiso.
      apply wp_Done in Hiso as ([] & s1 & Hiso & Hcl1).
      rewrite (bind_run (on_mem (isolate nd (M g))) _ g1 tt (set_mem g1 s1))
        by (apply on_mem_Done; eauto).
      destruct (IH (S start) true (set_mem g1 s1)) as (s' & Hall & Hrun).
      * simpl. rewrite length_insert. lia.
      * done.
      * simpl. intros l' k a [Hin| ->]%elem_of_list_insert_inv Hk;
          [by eapply Hptr|].
        apply lookup_delete_Some in Hk as [_ Hk].
        eapply Hptr; [by eapply list_elem_of_lookup_2|done].
      * exists s'. simpl in Hall, Hrun.
        rewrite drop_insert_lt in Hall, Hrun by lia.
        split; [simpl; rewrite (bind_run _ _ _ _ _ Hiso); exact Hall|].
        rewrite Hrun. do 2 f_equal.
        -- by rewrite bool_decide_true, orb_true_r.
        -- unfold set_mem, set_layers, g1. simpl. f_equal.
           erewrite take_S_r by (apply list_lookup_insert_eq; by eapply lookup_lt_Some).
           rewrite take_insert_ge by lia. by rewrite <- app_assoc.
    + destruct (IH (S start) deleted g) as (s' & Hall & Hrun); [lia|done..|].
      exists s'. split; [exact Hall|]. rewrite Hrun. do 2 f_equal.
      unfold set_mem, set_layers. simpl. f_equal.
      erewrite take_S_r by done. rewrite <- app_assoc. simpl.
      by rewrite delete_id.
Qed.

Lemma detached_nil (ls : list (layer K)) key :
  detached ls key ≠ [] ↔ ∃ l, l ∈ ls ∧ is_Some (l !! key).
Proof.
  unfold detached. induction ls as [|l ls IH]; simpl.
  - split; [done|]. intros (l & Hin & _). by apply not_elem_of_nil in Hin.
  - destruct (l !! key) as [a|] eqn:Hl.
    + split; [|done]. intros _. exists l. split; [left|eauto].
    + rewrite IH. split.
      * intros (l' & Hin & Hs). exists l'. split; [by right|done].
      * intros (l' & [->|Hin]%elem_of_cons & Hs).
        -- rewrite Hl in Hs. by destruct Hs.
        -- eauto.
Qed.

(** X24. On a graph whose pointers are all valid, [Delete key] returns;
    it returns true iff some layer held [key]; afterwards no layer holds
    [key], the layer stack is as long as before (every layer is kept,
    with [key] removed), and the memory is the one that [isolate], run on
    each detached layer node in turn, leaves. *)
Theorem Delete_spec (g : Graph K) key :
  graph_wf g →
  ∃ deleted g',
    Delete key g = Done (deleted, g') ∧
    (deleted = true ↔ ∃ l, l ∈ layers g ∧ is_Some (l !! key)) ∧
    layers g' = delete key <$> layers g ∧
    (∀ l, l ∈ layers g' → l !! key = None) ∧
    length (layers g') = length (layers g) ∧
    isolate_all (detached (layers g) key) (M g) (mem g) = Done (tt, mem g').
Proof.
  intros [Hcl Hptr].
  assert (Hgone : ∀ l, l ∈ delete key <$> layers g → l !! key = None).
  { intros l (l' & -> & _)%list_elem_of_fmap. apply lookup_delete_eq. }
  unfold Delete, DeleteWithLock. rewrite (bind_run get _ g g g) by done.
  destruct (layers g) as [|l0 ls] eqn:Hlayers.
  - exists false, g. rewrite Hlayers. simpl. repeat split; try done.
    intros (l & Hin & _). by apply not_elem_of_nil in Hin.
  - rewrite <- Hlayers in *.
    destruct (Delete_layers_spec key (dom (objs (mem g))) (length (layers g)) 0 false g)
      as (s' & Hall & Hrun); [done|done| |].
    { intros l k a Hin Hk. apply elem_of_dom.
      rewrite Forall_forall in Hptr. exact (Hptr l Hin k a Hk). }
    rewrite drop_0 in Hall, Hrun. rewrite take_0 in Hrun. simpl in Hrun.
    eexists _, _. split; [exact Hrun|]. simpl. split; [|split; [done|]].
    + rewrite bool_decide_eq_true. apply detached_nil.
    + split; [done|]. split; [apply length_fmap|done].
Qed.

Lemma tentative_worst_nan cur rest :
  SFrank cur.2 = None → tentative_worst cur rest = cur.
Proof.
  intros Hnan. induction rest as [|c rest IH]; simpl; [done|].
  by rewrite SFltb_nan_l.
Qed.

Lemma tentative_worst_max rest :
  ∀ cur x, x ∈ cur :: rest → SFltb (tentative_worst cur rest).2 x.2 = false.
Proof.
  induction rest as [|c rest IH]; intros cur x Hx; simpl.
  - apply list_elem_of_singleton in Hx as ->. apply SFltb_irrefl.
  - destruct (SFltb cur.2 c.2) eqn:Hlt.
    + apply elem_of_cons in Hx as [->|Hx]; [|by apply IH].
      destruct (SFltb (tentative_worst c rest).2 cur.2) eqn:E; [|done].
      pose proof (SFltb_trans _ _ _ E Hlt) as Hbad.
      rewrite (IH c c) in Hbad by left. done.
    + apply elem_of_cons in Hx as [->|[->|Hx]%elem_of_cons].
      * apply IH. left.
      * destruct (SFrank cur.2) as [r|] eqn:Hr.
        -- destruct (SFltb (tentative_worst cur rest).2 c.2) eqn:E; [|done].
           destruct (SFltb_cotrans _ cur.2 _ E) as [H1|H1]; [by rewrite Hr| |congruence].
           rewrite (IH cur cur) in H1 by left. done.
        -- rewrite tentative_worst_nan by done. by apply SFltb_nan_l.
      * apply IH. by right.
Qed.

Lemma worst_loop_run distance nValue entries :
  ∀ w worstDist (s : memory K),
    Forall (λ e : K * addr, ∃ pn d, objs s !! e.2 = Some pn ∧
                     distance (Value (lnode pn)) nValue = inl d) entries →
    worst_loop distance nValue entries worstDist (Some w) s =
      Done (inl (Some (tentative_worst (w, worstDist)
                         (examined (objs s) distance nValue entries)).1), s).
Proof.
  induction entries as [|[k p] entries IH]; intros w worstDist s Hall; simpl; [done|].
  apply Forall_cons in Hall as [(pn & d & Hp & Hd) Hall]. simpl in Hp.
  rewrite (bind_run (deref p) _ s pn s) by (by apply deref_Done).
  rewrite Hp, Hd. simpl. rewrite orb_false_r.
  destruct (SFltb worstDist d); by apply IH.
Qed.

Lemma worst_loop_first distance nValue k p entries (s : memory K) :
  Forall (λ e : K * addr, ∃ pn d, objs s !! e.2 = Some pn ∧
                   distance (Value (lnode pn)) nValue = inl d) ((k, p) :: entries) →
  ∃ first rest,
    examined (objs s) distance nValue ((k, p) :: entries) = first :: rest ∧
    worst_loop distance nValue ((k, p) :: entries) neg_inf None s =
      Done (inl (Some (tentative_worst first rest).1), s).
Proof.
  intros Hall. pose proof Hall as [(pn & d & Hp & Hd) Hall']%Forall_cons.
  simpl in Hp. exists (p, d), (examined (objs s) distance nValue entries).
  simpl. rewrite Hp, Hd. split; [done|].
  rewrite (bind_run (deref p) _ s pn s) by (by apply deref_Done).
  rewrite Hd. rewrite orb_true_r. by apply worst_loop_run.
Qed.

Lemma examined_elem (st : gmap addr (layerNode K)) distance nValue entries k p pn d :
  (k, p) ∈ entries → st !! p = Some pn → distance (Value (lnode pn)) nValue = inl d →
  (p, d) ∈ examined st distance nValue entries.
Proof.
  intros Hin Hp Hd. unfold examined. apply list_elem_of_omap.
  exists (k, p). split; [done|]. simpl. by rewrite Hp, Hd.
Qed.

Lemma examined_inv (st : gmap addr (layerNode K)) distance nValue entries p d :
  (p, d) ∈ examined st distance nValue entries →
  ∃ k pn, (k, p) ∈ entries ∧ st !! p = Some pn ∧
          distance (Value (lnode pn)) nValue = inl d.
Proof.
  unfold examined. intros ([k p'] & Hin & Hx)%list_elem_of_omap. simpl in Hx.
  destruct (st !! p') as [pn|] eqn:Hp; [|done].
  destruct (distance _ _) as [d'|] eqn:Hd; [|done].
  injection Hx as <- <-. eauto.
Qed.

Lemma tentative_worst_elem rest : ∀ cur, tentative_worst cur rest ∈ cur :: rest.
Proof.
  induction rest as [|c rest IH]; intros cur; simpl; [left|].
  destruct (SFltb cur.2 c.2).
  - right. apply IH.
  - pose proof (IH cur) as [E|Hin]%elem_of_cons; [rewrite E; left|by do 2 right].
Qed.

Lemma next_plan_run (s : memory K) :
  next_plan s = Done (default [] (head (sched s)),
                      {| objs := objs s; sched := tail (sched s) |}).
Proof. unfold next_plan. by destruct s as [st [|plan rest]]. Qed.

Lemma set_neighbors_run (s : memory K) a n nb :
  objs s !! a = Some n →
  set_neighbors a nb s =
    Done (tt, {| objs := <[a := {| lnode := lnode n; neighbors := nb |}]> (objs s);
                 sched := sched s |}).
Proof. intros Ha. unfold set_neighbors. by rewrite Ha. Qed.

Lemma deref_run (s : memory K) a n : objs s !! a = Some n → deref a s = Done (n, s).
Proof. intros Ha. by apply deref_Done. Qed.

Lemma examined_ext (st st' : gmap addr (layerNode K)) distance nValue entries :
  (∀ p, lnode <$> st' !! p = lnode <$> st !! p) →
  examined st' distance nValue entries = examined st distance nValue entries.
Proof.
  intros Hext. unfold examined.
  induction entries as [|[k p] entries IH]; [done|].
  cbn [omap list_omap]. rewrite IH. simpl. specialize (Hext p).
  destruct (st' !! p) as [x|], (st !! p) as [y|]; simpl in Hext; try done.
  injection Hext as ->. done.
Qed.

(** C5 (amended). Let the store be closed, every key of the receiver's
    neighbor map be the [Key] of the node it refers to, and the distance
    function return a distance for every entry. Then a call of
    [addNeighbor] that leaves more than [m] entries after its insertion
    returns without error, and: it picks one entry [wk ↦ worst] by the
    rule of the specification ([tentative_worst] over the entries in the
    order examined); no entry has a strictly greater distance than the
    one picked; the receiver loses that entry and [worst] loses the
    receiver's key, after which [replenish worst m] runs and gives the
    final memory; and when [worst] is not the receiver itself, the
    receiver ends with exactly the other entries, one fewer. *)
Theorem addNeighbor_evicts (s : memory K) n newNode m distance nn new :
  closed (objs s) →
  objs s !! n = Some nn →
  objs s !! newNode = Some new →
  let ins := <[Key (lnode new) := newNode]> (neighbors nn) in
  m < Z.of_nat (size ins) →
  map_Forall (λ k p, entry_ok (objs s) distance (Value (lnode nn)) k p = true) ins →
  let order := range_order (default [] (head (sched s))) ins in
  ∃ wk worst d s',
    addNeighbor n newNode m distance s = Done (None, s') ∧
    ins !! wk = Some worst ∧
    (∃ first rest,
       examined (objs s) distance (Value (lnode nn)) order = first :: rest ∧
       tentative_worst first rest = (worst, d)) ∧
    (∀ k p pn d', ins !! k = Some p → objs s !! p = Some pn →
       distance (Value (lnode pn)) (Value (lnode nn)) = inl d' → SFltb d d' = false) ∧
    (∃ wn,
       let st1 := <[n := mkLayerNode (lnode nn) (delete wk ins)]> (objs s) in
       st1 !! worst = Some wn ∧
       replenish worst m
         {| objs := <[worst := mkLayerNode (lnode wn)
                                 (delete (Key (lnode nn)) (neighbors wn))]> st1;
            sched := tail (sched s) |} = Done (tt, s')) ∧
    (worst ≠ n →
       ∃ nn', objs s' !! n = Some nn' ∧ neighbors nn' = delete wk ins ∧
              size (neighbors nn') = pred (size ins)).
Proof.
  intros Hcl Hn Hnew ins Hsize Hok order.
  assert (Hent : ∀ k p, ins !! k = Some p →
            ∃ pn d, objs s !! p = Some pn ∧ Key (lnode pn) = k ∧
                    distance (Value (lnode pn)) (Value (lnode nn)) = inl d).
  { intros k p Hk. specialize (Hok k p Hk). unfold entry_ok in Hok.
    destruct (objs s !! p) as [pn|]; [|done].
    apply andb_true_iff in Hok as [Hkey Hd]. apply bool_decide_eq_true in Hkey.
    destruct (distance _ _) as [d|] eqn:Hdist; [|done]. by exists pn, d. }
  set (st0 := <[n := mkLayerNode (lnode nn) ins]> (objs s)).
  assert (Hext0 : ∀ p, lnode <$> st0 !! p = lnode <$> objs s !! p).
  { intros p. unfold st0. destruct (decide (p = n)) as [->|Hne].
    - by rewrite lookup_insert_eq, Hn.
    - by rewrite lookup_insert_ne. }
  (* the entries examined and their distances *)
  assert (Hall : Forall (λ e : K * addr, ∃ pn d, st0 !! e.2 = Some pn ∧
                    distance (Value (lnode pn)) (Value (lnode nn)) = inl d) order).
  { apply Forall_forall. intros [k p] Hin. simpl.
    assert (Hk : ins !! k = Some p).
    { apply elem_of_map_to_list. by rewrite <- (range_order_perm (default [] (head (sched s)))). }
    destruct (Hent k p Hk) as (pn & d & Hp & _ & Hd).
    specialize (Hext0 p). rewrite Hp in Hext0.
    destruct (st0 !! p) as [pn'|]; [|done]. injection Hext0 as E.
    exists pn', d. by rewrite E. }
  assert (Hne : order ≠ []).
  { unfold order. rewrite range_order_nil. apply insert_non_empty. }
  destruct order as [|[k0 p0] entries] eqn:Horder; [done|]. clear Hne.
  destruct (worst_loop_first distance (Value (lnode nn)) k0 p0 entries
              {| objs := st0; sched := tail (sched s) |} Hall)
    as (first & rest & Hex & Hloop).
  cbn [objs] in Hex. rewrite (examined_ext (objs s) st0) in Hex by done.
  destruct (tentative_worst first rest) as [worst d] eqn:Hworst. simpl in Hloop.
  (* the worst entry is an entry of the map *)
  assert (Hwin : (worst, d) ∈ examined (objs s) distance (Value (lnode nn)) ((k0, p0) :: entries)).
  { rewrite Hex, <- Hworst. apply tentative_worst_elem. }
  apply examined_inv in Hwin as (wk & wn0 & Hwin & Hw0 & Hwd).
  assert (Hwk : ins !! wk = Some worst).
  { apply elem_of_map_to_list.
    rewrite <- (range_order_perm (default [] (head (sched s)))).
    fold order. by rewrite Horder. }
  destruct (Hent wk worst Hwk) as (wn0' & _ & Hw0' & Hkey & _).
  assert (wn0' = wn0) as -> by congruence.
  set (st1 := <[n := mkLayerNode (lnode nn) (delete wk ins)]> (objs s)).
  assert (Hst1 : <[n := mkLayerNode (lnode nn) (delete wk ins)]> st0 = st1)
    by apply insert_insert_eq.
  assert (Hw_st0 : ∃ w0, st0 !! worst = Some w0 ∧ lnode w0 = lnode wn0).
  { specialize (Hext0 worst). rewrite Hw0 in Hext0.
    destruct (st0 !! worst) as [w0|]; [|done]. injection Hext0 as E. eauto. }
  destruct Hw_st0 as (w0 & Hw_st0 & Ew0).
  assert (Hw_st1 : ∃ wn, st1 !! worst = Some wn ∧ lnode wn = lnode wn0 ∧
            ∀ k p, neighbors wn !! k = Some p → is_Some (objs s !! p)).
  { unfold st1. destruct (decide (worst = n)) as [->|Hwn].
    - rewrite lookup_insert_eq. eexists. split; [done|]. simpl. split; [congruence|].
      intros k p [_ Hp]%lookup_delete_Some.
      destruct (Hent k p Hp) as (pn & _ & Hpn & _). eauto.
    - rewrite lookup_insert_ne by done. exists wn0. split; [done|]. split; [done|].
      intros k p Hp. eapply Hcl; eauto. }
  destruct Hw_st1 as (wn & Hw_st1 & Ewn & Hwn_ptr).
  set (s4 := {| objs := <[worst := mkLayerNode (lnode wn)
                                     (delete (Key (lnode nn)) (neighbors wn))]> st1;
                sched := tail (sched s) |}).
  (* the store stays closed up to the call of replenish *)
  assert (Hcl4 : closed_on (dom (objs s)) s4).
  { assert (Hcl1 : closed_on (dom (objs s)) {| objs := st1; sched := tail (sched s) |}).
    { apply (closed_on_update _ {| objs := objs s; sched := sched s |}); [done|done|].
      intros k p [_ Hp]%lookup_delete_Some.
      destruct (Hent k p Hp) as (pn & _ & Hpn & _). apply elem_of_dom. eauto. }
    apply (closed_on_update _ {| objs := st1; sched := tail (sched s) |}); [done|done|].
    intros k p [_ Hp]%lookup_delete_Some. apply elem_of_dom. eauto. }
  pose proof (wp_replenish (dom (objs s)) worst m s4 Hcl4) as Hrep.
  apply wp_Done in Hrep as ([] & s' & Hrep & _ & Hframe);
    [|apply elem_of_dom; eauto].
  exists wk, worst, d, s'. split; [|split; [done|split; [eauto|split; [|split]]]].
  - unfold addNeighbor, addNeighbor_with.
    rewrite (bind_run _ _ _ _ _ (deref_run s n nn Hn)).
    rewrite (bind_run _ _ _ _ _ (deref_run s newNode new Hnew)).
    rewrite (bind_run _ _ _ _ _ (set_neighbors_run s n nn ins Hn)).
    fold st0.
    rewrite (bind_run (deref n) _ {| objs := st0; sched := sched s |}
               (mkLayerNode (lnode nn) ins) {| objs := st0; sched := sched s |})
      by (apply deref_run, lookup_insert_eq).
    simpl. rewrite decide_False by (fold ins; lia).
    rewrite (bind_run _ _ _ _ _ (next_plan_run {| objs := st0; sched := sched s |})).
    simpl. fold ins. fold order. rewrite Horder.
    rewrite (bind_run _ _ _ _ _ Hloop).
    rewrite (bind_run (deref worst) _ {| objs := st0; sched := tail (sched s) |} w0
               {| objs := st0; sched := tail (sched s) |}) by (by apply deref_run).
    rewrite (bind_run (deref n) _ {| objs := st0; sched := tail (sched s) |}
               (mkLayerNode (lnode nn) ins) {| objs := st0; sched := tail (sched s) |})
      by (apply deref_run, lookup_insert_eq).
    rewrite (bind_run _ _ _ _ _
               (set_neighbors_run {| objs := st0; sched := tail (sched s) |} n
                  (mkLayerNode (lnode nn) ins) _ (lookup_insert_eq _ _ _))).
    simpl. rewrite Ew0, Hkey, Hst1.
    rewrite (bind_run (deref worst) _ {| objs := st1; sched := tail (sched s) |} wn
               {| objs := st1; sched := tail (sched s) |}) by (by apply deref_run).
    rewrite (bind_run (deref n) _ {| objs := st1; sched := tail (sched s) |}
               (mkLayerNode (lnode nn) (delete wk ins))
               {| objs := st1; sched := tail (sched s) |})
      by (apply deref_run, lookup_insert_eq).
    rewrite (bind_run _ _ _ _ _
               (set_neighbors_run {| objs := st1; sched := tail (sched s) |} worst wn _ Hw_st1)).
    simpl. fold s4. by rewrite (bind_run _ _ _ _ _ Hrep).
  - intros k p pn d' Hk Hp Hd.
    assert (Hin : (p, d') ∈ first :: rest).
    { rewrite <- Hex. eapply examined_elem; [|done..].
      rewrite <- Horder. unfold order.
      rewrite (range_order_perm (default [] (head (sched s)))).
      by apply elem_of_map_to_list. }
    pose proof (tentative_worst_max rest first (p, d') Hin) as Hmax.
    by rewrite Hworst in Hmax.
  - exists wn. split; [done|]. exact Hrep.
  - intros Hwn. rewrite Hframe by done. simpl.
    rewrite lookup_insert_ne by done. unfold st1. rewrite lookup_insert_eq.
    eexists. split; [done|]. simpl. split; [done|].
    apply map_size_delete_Some. eauto.
Qed.

(** Two loop bodies that agree wherever the invariant holds give the same
    loop. *)
Lemma range_keys_ext (I : memory K → Prop) a body1 body2 :
  (∀ k p s, I s → body1 k p s = body2 k p s) →
  (∀ k p s s', I s → body1 k p s = Done (Continue, s') → I s') →
  ∀ keys visited s, I s →
    range_keys a body1 keys visited s = range_keys a body2 keys visited s ∧
    ∀ v s', range_keys a body1 keys visited s = Done ((Continue, v), s') → I s'.
Proof.
  intros Heq Hinv keys. induction keys as [|key keys IH]; intros visited s HI; simpl.
  - split; [done|]. by intros v s' [= _ <-].
  - destruct (decide (key ∈ visited)) as [Hin|Hnin]; [by apply IH|].
    destruct (objs s !! a) as [n|] eqn:Ha;
      [|rewrite !(bind_unfold (deref a)); unfold deref; rewrite Ha; done].
    rewrite !(bind_run _ _ _ _ _ (deref_run s a n Ha)).
    destruct (neighbors n !! key) as [p|]; [|by apply IH].
    rewrite !bind_unfold, <- (Heq key p s HI).
    destruct (body1 key p s) as [[[|] s1]| |] eqn:Hb; try done.
    by eapply IH, Hinv.
Qed.

Lemma range_neighbors_ext (I : memory K → Prop) a body1 body2 :
  (∀ s sch, I s → I {| objs := objs s; sched := sch |}) →
  (∀ k p s, I s → body1 k p s = body2 k p s) →
  (∀ k p s s', I s → body1 k p s = Done (Continue, s') → I s') →
  ∀ s, I s →
    range_neighbors a body1 s = range_neighbors a body2 s ∧
    ∀ s', range_neighbors a body1 s = Done (Continue, s') → I s'.
Proof.
  intros Hsched Heq Hinv s HI. unfold range_neighbors.
  destruct (objs s !! a) as [n|] eqn:Ha;
    [|rewrite !(bind_unfold (deref a)); unfold deref; rewrite Ha; done].
  rewrite !(bind_run _ _ _ _ _ (deref_run s a n Ha)).
  rewrite !(bind_run _ _ _ _ _ (next_plan_run s)).
  set (s1 := {| objs := objs s; sched := tail (sched s) |}).
  assert (HI1 : I s1) by (by apply Hsched).
  destruct (range_keys_ext I a body1 body2 Heq Hinv (default [] (head (sched s))) [] s1 HI1)
    as [E1 P1].
  rewrite !(bind_unfold (range_keys _ _ _ _)), <- E1.
  destruct (range_keys a body1 _ [] s1) as [[[[|] v] s2]| |]; try done.
  specialize (P1 v s2 eq_refl).
  destruct (range_keys_ext I a body1 body2 Heq Hinv (map_to_list (neighbors n)).*1 v s2 P1)
    as [E2 P2].
  rewrite !(bind_unfold (range_keys _ _ _ _)), <- E2.
  destruct (range_keys a body1 _ v s2) as [[[c v'] s3]| |]; try done.
  split; [done|]. unfold ret. simpl. intros s' [= -> <-]. by eapply P2.
Qed.

Lemma addNeighbor_with_below R1 R2 n c m d (s : memory K) nn :
  objs s !! n = Some nn → Z.of_nat (size (neighbors nn)) < m →
  addNeighbor_with R1 n c m d s = addNeighbor_with R2 n c m d s ∧
  ∀ r s', addNeighbor_with R1 n c m d s = Done (r, s') →
    ∃ nn', objs s' !! n = Some nn' ∧
           (size (neighbors nn') ≤ S (size (neighbors nn)))%nat.
Proof.
  intros Hn Hsize. unfold addNeighbor_with.
  rewrite !(bind_run _ _ _ _ _ (deref_run s n nn Hn)).
  destruct (objs s !! c) as [cn|] eqn:Hc;
    [|rewrite !(bind_unfold (deref c)); unfold deref; rewrite Hc; done].
  rewrite !(bind_run _ _ _ _ _ (deref_run s c cn Hc)).
  rewrite !(bind_run _ _ _ _ _ (set_neighbors_run s n nn _ Hn)).
  rewrite !(bind_run (deref n) _ _ _ _ (deref_run _ n _ (lookup_insert_eq _ _ _))).
  simpl. pose proof (size_insert_le (neighbors nn) (Key (lnode cn)) c).
  rewrite !decide_True by lia. split; [done|].
  intros r s' [= _ <-]. simpl. rewrite lookup_insert_eq. eauto.
Qed.

(** The recursive equation of the source: [replenish] is
    [replenish_with] of the [addNeighbor] that calls [replenish]. *)
Lemma replenish_unfold n m (s : memory K) :
  replenish_with addNeighbor n m s = replenish n m s.
Proof.
  unfold replenish, replenish_with.
  destruct (objs s !! n) as [nn|] eqn:Hn;
    [|rewrite !(bind_unfold (deref n)); unfold deref; rewrite Hn; done].
  rewrite !(bind_run _ _ _ _ _ (deref_run s n nn Hn)).
  destruct (decide (m ≤ Z.of_nat (size (neighbors nn)))) as [Hfull|Hroom]; [done|].
  set (I := λ s' : memory K,
              ∃ nn, objs s' !! n = Some nn ∧ Z.of_nat (size (neighbors nn)) < m).
  assert (HIsched : ∀ s sch, I s → I {| objs := objs s; sched := sch |}) by done.
  assert (HI : I s) by (exists nn; split; [done|lia]).
  set (inner := λ (addN : addr → addr → Z → DistanceFunc → prog (memory K) (option error))
                   (key : K) (candidate : addr),
         let* nn := deref n in
         if decide (is_Some (neighbors nn !! key)) then ret Continue
         else if decide (candidate = n) then ret Continue
         else
           let* _ := addN n candidate m CosineDistance in
           let* nn := deref n in
           if decide (m ≤ Z.of_nat (size (neighbors nn))) then ret Return
           else ret Continue).
  assert (Hinner_eq : ∀ key candidate s1, I s1 →
            inner addNeighbor key candidate s1
            = inner (addNeighbor_with unreached) key candidate s1).
  { intros key candidate s1 (nn1 & Hnn1 & Hsz1). unfold inner.
    rewrite !(bind_run _ _ _ _ _ (deref_run s1 n nn1 Hnn1)).
    destruct (decide (is_Some (neighbors nn1 !! key))); [done|].
    destruct (decide (candidate = n)); [done|].
    rewrite !(bind_unfold (addNeighbor _ _ _ _)),
      !(bind_unfold (addNeighbor_with _ _ _ _ _)).
    destruct (addNeighbor_with_below replenish unreached n candidate m CosineDistance
                s1 nn1 Hnn1 Hsz1) as [E _].
    unfold addNeighbor. by rewrite E. }
  assert (Hinner_inv : ∀ key candidate s1 s2, I s1 →
            inner addNeighbor key candidate s1 = Done (Continue, s2) → I s2).
  { intros key candidate s1 s2 (nn1 & Hnn1 & Hsz1). unfold inner.
    rewrite !(bind_run _ _ _ _ _ (deref_run s1 n nn1 Hnn1)).
    destruct (decide (is_Some (neighbors nn1 !! key))); [intros [= <-]; eexists; eauto|].
    destruct (decide (candidate = n)); [intros [= <-]; eexists; eauto|].
    intros (r & s3 & Hadd & Hrest)%bind_Done.
    apply bind_Done in Hrest as (nn2 & ? & [Hnn2 ->]%deref_Done & Hrest).
    destruct (decide (m ≤ Z.of_nat (size (neighbors nn2)))); [done|].
    injection Hrest as <-. exists nn2. split; [done|lia]. }
  assert (Houter_eq : ∀ (k : K) neighbor s0, I s0 →
            range_neighbors neighbor (inner addNeighbor) s0
            = range_neighbors neighbor (inner (addNeighbor_with unreached)) s0).
  { intros k neighbor s0 HI0.
    by apply (range_neighbors_ext I neighbor _ _ HIsched Hinner_eq Hinner_inv s0 HI0). }
  assert (Houter_inv : ∀ (k : K) neighbor s0 s1, I s0 →
            range_neighbors neighbor (inner addNeighbor) s0 = Done (Continue, s1) → I s1).
  { intros k neighbor s0 s1 HI0.
    by apply (range_neighbors_ext I neighbor _ _ HIsched Hinner_eq Hinner_inv s0 HI0). }
  destruct (range_neighbors_ext I n
              (λ _ neighbor, range_neighbors neighbor (inner addNeighbor))
              (λ _ neighbor, range_neighbors neighbor (inner (addNeighbor_with unreached)))
              HIsched Houter_eq Houter_inv s HI) as [E _].
  rewrite !(bind_unfold (range_neighbors _ _)). fold (inner addNeighbor).
  fold (inner (addNeighbor_with unreached)). by rewrite E.
Qed.

Lemma Float64_run (g : Graph K) : Float64 g = Done (draw_of g 0, advance g 1).
Proof.
  unfold Float64, draw_of, advance. rewrite Nat.add_0_r, Nat.add_1_r. done.
Qed.

Lemma advance_advance (g : Graph K) (n : nat) : advance (advance g 1) n = advance g (S n).
Proof.
  unfold advance, set_Rng. simpl. do 3 f_equal. lia.
Qed.

Lemma draw_of_advance (g : Graph K) (i : nat) : draw_of (advance g 1) i = draw_of g (S i).
Proof. unfold draw_of, advance. simpl. f_equal. lia. Qed.

Lemma randomLevel_loop_first steps :
  ∀ level max (g : Graph K) (i : nat),
    (i < steps)%nat →
    SFltb (Ml g) (draw_of g i) = true →
    (∀ j, (j < i)%nat → SFltb (Ml g) (draw_of g j) = false) →
    randomLevel_loop steps level max g
      = Done ((level + Z.of_nat i, None), advance g (S i)).
Proof.
  induction steps as [|steps IH]; intros level max g i Hi Hab Hbelow; [lia|].
  simpl. rewrite (bind_run _ _ _ _ _ (Float64_run g)).
  rewrite (bind_run (gets Ml) _ (advance g 1) (Ml g) (advance g 1)) by done.
  destruct i as [|i].
  - rewrite Hab. unfold ret. do 3 f_equal. lia.
  - rewrite (Hbelow 0%nat) by lia.
    rewrite (IH (level + 1) max (advance g 1) i).
    + rewrite advance_advance. do 3 f_equal. lia.
    + lia.
    + by rewrite draw_of_advance.
    + intros j Hj. rewrite draw_of_advance. apply Hbelow. lia.
Qed.

Lemma randomLevel_loop_none steps :
  ∀ level max (g : Graph K),
    (∀ j, (j < steps)%nat → SFltb (Ml g) (draw_of g j) = false) →
    randomLevel_loop steps level max g
      = Done ((max, None), match steps with O => g | S _ => advance g steps end).
Proof.
  induction steps as [|steps IH]; intros level max g Hbelow; [done|].
  simpl. rewrite (bind_run _ _ _ _ _ (Float64_run g)).
  rewrite (bind_run (gets Ml) _ (advance g 1) (Ml g) (advance g 1)) by done.
  rewrite (Hbelow 0%nat) by lia.
  rewrite (IH (level + 1) max (advance g 1)).
  - destruct steps; [done|]. by rewrite advance_advance.
  - intros j Hj. rewrite draw_of_advance. apply Hbelow. lia.
Qed.

Lemma randomLevel_ceiling (g : Graph K) :
  layers g = [] ∨ SFeqb (Ml g) float64_zero = false →
  randomLevel g = randomLevel_loop (Z.to_nat (level_ceiling g)) 0 (level_ceiling g) g.
Proof.
  intros Hok. unfold randomLevel, level_ceiling.
  rewrite (bind_run get _ g g g) by done.
  destruct (layers g) as [|l0 ls]; [done|].
  destruct Hok as [?|Hml]; [done|]. rewrite Hml.
  unfold maxLevel, layer_size. rewrite Hml.
  destruct (decide (l0 = ∅)) as [->|Hne].
  - by rewrite map_size_empty.
  - rewrite decide_False; [done|].
    intros Hz. apply Hne, map_size_empty_inv. lia.
Qed.

(** C8 (amended). [randomLevel] fails when [Ml = 0] and the graph has a
    layer; a graph without layers is not checked for [Ml]. Otherwise,
    with the ceiling [max] of the specification ([level_ceiling]: 1 for a
    graph without nodes, [round(ln(|baseLayer|)/ln(1/Ml)) + 1] if it has
    some), it returns the first level below [max] whose draw is above
    [Ml], having taken the draws up to that one, and [max] when none of
    the [max] draws is. *)
Theorem randomLevel_spec (g : Graph K) :
  (layers g ≠ [] → SFeqb (Ml g) float64_zero = true →
     randomLevel g = Done ((0, Some ErrGraphMlZero), g)) ∧
  (layers g = [] ∨ SFeqb (Ml g) float64_zero = false →
     (∀ level : nat,
        Z.of_nat level < level_ceiling g →
        SFltb (Ml g) (draw_of g level) = true →
        (∀ j, (j < level)%nat → SFltb (Ml g) (draw_of g j) = false) →
        randomLevel g = Done ((Z.of_nat level, None), advance g (S level))) ∧
     ((∀ j : nat, Z.of_nat j < level_ceiling g → SFltb (Ml g) (draw_of g j) = false) →
        randomLevel g
          = Done ((level_ceiling g, None),
                  if decide (0 < level_ceiling g)
                  then advance g (Z.to_nat (level_ceiling g)) else g))).
Proof.
  split.
  - intros Hne Hml. unfold randomLevel. rewrite (bind_run get _ g g g) by done.
    destruct (layers g); [done|]. by rewrite Hml.
  - intros Hok. rewrite (randomLevel_ceiling g Hok). split.
    + intros level Hlt Hab Hbelow.
      by rewrite (randomLevel_loop_first _ 0 _ g level) by (done || lia).
    + intros Hbelow. rewrite randomLevel_loop_none.
      * destruct (decide (0 < level_ceiling g)) as [Hpos|Hneg].
        -- destruct (Z.to_nat (level_ceiling g)) eqn:E; [lia|done].
        -- replace (Z.to_nat (level_ceiling g)) with 0%nat by lia. done.
      * intros j Hj. apply Hbelow. lia.
Qed.
(** X1. [replenish] returns on every closed store that holds its
    receiver: the calls of [addNeighbor] it makes never evict, so the
    recursion of the two functions stops there. It allocates nothing,
    leaves the store closed and changes no object but the receiver. *)
Theorem replenish_returns n m (s : memory K) :
  closed (objs s) → is_Some (objs s !! n) →
  ∃ s', replenish n m s = Done (tt, s') ∧
        dom (objs s') = dom (objs s) ∧ closed (objs s') ∧
        ∀ a, a ≠ n → objs s' !! a = objs s !! a.
Proof.
  intros Hc Hn.
  assert (Hwp := wp_replenish (dom (objs s)) n m s (conj eq_refl Hc)
                   (proj2 (elem_of_dom _ _) Hn)).
  unfold wp in Hwp.
  destruct (replenish n m s) as [[[] s']| |]; [|done..].
  destruct Hwp as [[Hdom Hc'] Hframe]. by exists s'.
Qed.

(** X2. [isolate] returns on every closed store that holds its receiver,
    allocates nothing and leaves the store closed. *)
Theorem isolate_returns n m (s : memory K) :
  closed (objs s) → is_Some (objs s !! n) →
  ∃ s', isolate n m s = Done (tt, s') ∧
        dom (objs s') = dom (objs s) ∧ closed (objs s').
Proof.
  intros Hc Hn.
  assert (Hwp := wp_isolate (dom (objs s)) n m s (conj eq_refl Hc)
                   (proj2 (elem_of_dom _ _) Hn)).
  unfold wp in Hwp.
  destruct (isolate n m s) as [[[] s']| |]; [|done..].
  destruct Hwp as [Hdom Hc']. by exists s'.
Qed.

(** ** Delete, Lookup and Len *)

Lemma keeps_isolate_all nodes m :
  stable keeps_nodes (isolate_all (K := K) nodes m).
Proof. induction nodes as [|a rest IH]; simpl; stable_prog. Qed.

Lemma wp_isolate_all D nodes m :
  ∀ s : memory K,
    closed_on D s → (∀ a, a ∈ nodes → a ∈ D) →
    wp (isolate_all nodes m) (λ _ s', closed_on D s') s.
Proof.
  induction nodes as [|a rest IH]; intros s Hcl Hin; simpl.
  - by apply wp_ret.
  - apply wp_bind. eapply wp_mono; [|apply (wp_isolate D a m s Hcl); apply Hin; left].
    intros [] s1 Hcl1. apply IH; [done|]. intros b Hb. apply Hin. by right.
Qed.

Lemma detached_elem (ls : list (layer K)) key a :
  a ∈ detached ls key → ∃ l, l ∈ ls ∧ l !! key = Some a.
Proof.
  unfold detached. intros (l & Hl & Hk)%list_elem_of_omap. eauto.
Qed.

(** What [Delete] returns and leaves, on a graph whose pointers are
    valid. *)
Lemma Delete_run (g : Graph K) key :
  graph_wf g →
  ∃ s',
    isolate_all (detached (layers g) key) (M g) (mem g) = Done (tt, s') ∧
    Delete key g = Done (bool_decide (detached (layers g) key ≠ []),
                         set_mem (set_layers g (delete key <$> layers g)) s').
Proof.
  intros [Hcl Hptr].
  unfold Delete, DeleteWithLock. rewrite (bind_run get _ g g g) by done.
  destruct (layers g) as [|l0 ls] eqn:Hlayers.
  - exists (mem g). split; [done|]. simpl. unfold ret.
    by rewrite <- Hlayers, set_mem_layers_id.
  - rewrite <- Hlayers in *.
    destruct (Delete_layers_spec key (dom (objs (mem g))) (length (layers g)) 0 false g)
      as (s' & Hall & Hrun); [done|done| |].
    { intros l k a Hin Hk. apply elem_of_dom.
      rewrite Forall_forall in Hptr. exact (Hptr l Hin k a Hk). }
    rewrite drop_0 in Hall, Hrun. rewrite take_0 in Hrun. simpl in Hrun.
    exists s'. by split.
Qed.

Lemma Delete_layers_absent key (g : Graph K) :
  (∀ l, l ∈ layers g → l !! key = None) →
  ∀ idx deleted,
    (∀ i, i ∈ idx → (i < length (layers g))%nat) →
    Delete_layers key idx deleted g = Done (deleted, g).
Proof.
  intros Habs idx. induction idx as [|i idx IH]; intros deleted Hidx; simpl; [done|].
  rewrite (bind_run get _ g g g) by done.
  destruct (lookup_lt_is_Some_2 (layers g) i) as [l Hl]; [apply Hidx; left|].
  rewrite Hl, (Habs l) by (by eapply list_elem_of_lookup_2).
  apply IH. intros j Hj. apply Hidx. by right.
Qed.

Lemma Delete_absent_run (g : Graph K) key :
  (∀ l, l ∈ layers g → l !! key = None) → Delete key g = Done (false, g).
Proof.
  intros Habs. unfold Delete, DeleteWithLock.
  rewrite (bind_run get _ g g g) by done.
  destruct (layers g) as [|l0 ls] eqn:Hlayers; [done|].
  rewrite <- Hlayers in *. apply Delete_layers_absent; [done|].
  intros i Hi%elem_of_seq. lia.
Qed.

(** X3. [Delete] of a key that no layer holds returns false and changes
    nothing, on every graph. *)
Theorem Delete_absent (g : Graph K) key :
  (∀ l, l ∈ layers g → l !! key = None) → Delete key g = Done (false, g).
Proof. apply Delete_absent_run. Qed.

(** X4. On a graph whose pointers are valid, after [Delete key] the key
    is gone for [Lookup], and a second [Delete key] returns false and
    changes nothing more. *)
Theorem Delete_then_Lookup (g : Graph K) key :
  graph_wf g →
  ∃ deleted g',
    Delete key g = Done (deleted, g') ∧
    Lookup g' key = Done ([], false) ∧
    Delete key g' = Done (false, g').
Proof.
  intros Hwf. destruct (Delete_run g key Hwf) as (s' & _ & Hrun).
  eexists _, _. split; [exact Hrun|].
  assert (Hgone : ∀ l, l ∈ delete key <$> layers g → l !! key = None).
  { intros l (l' & -> & _)%list_elem_of_fmap. apply lookup_delete_eq. }
  split; [|by apply Delete_absent_run].
  unfold Lookup. simpl.
  destruct (layers g) as [|l0 ls]; simpl; [done|]. by rewrite lookup_delete_eq.
Qed.

(** X5. On a graph whose pointers are valid, [Delete key] lowers [Len] by
    one when the base layer held [key], and leaves it as it was
    otherwise. *)
Theorem Delete_Len (g : Graph K) key deleted g' :
  graph_wf g → Delete key g = Done (deleted, g') →
  (has_key g key → Len g' = Len g - 1) ∧
  (¬ has_key g key → Len g' = Len g).
Proof.
  intros Hwf Hdel. destruct (Delete_run g key Hwf) as (s' & _ & Hrun).
  rewrite Hrun in Hdel. injection Hdel as _ <-.
  unfold has_key, Len, layer_size. simpl.
  destruct (layers g) as [|l0 ls]; simpl; [done|]. split.
  - intros Hk. rewrite map_size_delete_Some by done.
    destruct Hk as [a Hk]. assert (size l0 ≠ 0%nat); [|lia].
    intros ->%map_size_empty_inv. by rewrite lookup_empty in Hk.
  - intros Hk. rewrite delete_id; [done|].
    destruct (l0 !! key) eqn:E; [|done]. destruct Hk. eauto.
Qed.

(** X6. On a graph whose pointers are valid, [Delete key] changes what
    [Lookup] returns for no other key. *)
Theorem Delete_keeps_others (g : Graph K) key deleted g' k' :
  graph_wf g → Delete key g = Done (deleted, g') → k' ≠ key →
  Lookup g' k' = Lookup g k'.
Proof.
  intros Hwf Hdel Hne. destruct (Delete_run g key Hwf) as (s' & Hiso & Hrun).
  rewrite Hrun in Hdel. injection Hdel as _ <-.
  pose proof (keeps_isolate_all _ _ _ _ _ Hiso) as Hkeep.
  destruct Hwf as [_ Hptr]. rewrite Forall_forall in Hptr.
  unfold Lookup. simpl.
  destruct (layers g) as [|l0 ls] eqn:Hl; simpl; [done|].
  rewrite lookup_delete_ne by done.
  destruct (l0 !! k') as [a|] eqn:Ha; [|done].
  destruct (Hptr l0 (ltac:(left)) k' a Ha) as [n Hn].
  destruct (Hkeep a n Hn) as (n' & Hn' & Heq).
  by rewrite Hn, Hn', Heq.
Qed.

(** X7. [Delete] keeps the pointers of the graph valid. *)
Theorem Delete_keeps_wf (g : Graph K) key deleted g' :
  graph_wf g → Delete key g = Done (deleted, g') → graph_wf g'.
Proof.
  intros Hwf Hdel. destruct (Delete_run g key Hwf) as (s' & Hiso & Hrun).
  rewrite Hrun in Hdel. injection Hdel as _ <-.
  destruct Hwf as [Hcl Hptr]. rewrite Forall_forall in Hptr.
  assert (Hin : ∀ l k a, l ∈ layers g → l !! k = Some a → a ∈ dom (objs (mem g))).
  { intros l k a Hl Hk. apply elem_of_dom. exact (Hptr l Hl k a Hk). }
  pose proof (wp_isolate_all (dom (objs (mem g))) (detached (layers g) key) (M g)
                (mem g) (conj eq_refl Hcl)) as Hwp.
  apply wp_Done in Hwp as ([] & s1 & Hiso1 & Hdom & Hcl1).
  2:{ intros a (l & Hl & Hk)%detached_elem. by eapply Hin. }
  rewrite Hiso in Hiso1. injection Hiso1 as ->.
  split; [exact Hcl1|]. simpl. rewrite Forall_forall.
  intros l (l' & -> & Hl')%list_elem_of_fmap k a [_ Hk]%lookup_delete_Some.
  apply elem_of_dom. rewrite Hdom. by eapply Hin.
Qed.

(** ** Add *)

Lemma entry_run (l : layer K) (s : memory K) :
  entry l s = Done (snd <$> head (range_order (default [] (head (sched s))) l),
                    {| objs := objs s; sched := tail (sched s) |}).
Proof. unfold entry. by rewrite (bind_run _ _ _ _ _ (next_plan_run s)). Qed.

Lemma entry_empty_run (s : memory K) :
  entry ∅ s = Done (None, {| objs := objs s; sched := tail (sched s) |}).
Proof. rewrite entry_run. by rewrite (proj2 (range_order_nil _ ∅)). Qed.

Lemma on_mem_run {A} (c : prog (memory K) A) (g : Graph K) a s' :
  c (mem g) = Done (a, s') → on_mem c g = Done (a, set_mem g s').
Proof. intros Hc. apply on_mem_Done. eauto. Qed.

(** The layer loop of [Add] over layers that hold no node: each gets the
    new node as its only node, and no search is run. *)
Lemma Add_layers_empty fuel key vec lvl n :
  ∀ el wu (g : Graph K),
    (∀ i, (i < n)%nat → layers g !! i = Some ∅) →
    ∃ g',
      Add_layers fuel key vec lvl n el wu g = Done (inr wu, g') ∧
      length (layers g') = length (layers g) ∧
      (∀ i, (n ≤ i)%nat → layers g' !! i = layers g !! i) ∧
      (∀ i, (i < n)%nat → ∃ a, layers g' !! i = Some {[key := a]}).
Proof.
  induction n as [|i IH]; intros el wu g Hall.
  - exists g. simpl. split; [done|]. split; [done|]. split; [done|]. lia.
  - simpl. rewrite (bind_run get _ g g g) by done.
    rewrite (Hall i) by lia.
    set (new := {| lnode := {| Key := key; Value := vec |}; neighbors := ∅ |}).
    set (a := fresh (dom (objs (mem g)))).
    set (s1 := {| objs := <[a := new]> (objs (mem g)); sched := sched (mem g) |}).
    rewrite (bind_run (on_mem (alloc new)) _ g a (set_mem g s1))
      by (by apply on_mem_run).
    rewrite (bind_run (on_mem (entry ∅)) _ _ _ _
               (on_mem_run _ _ _ _ (entry_empty_run _))).
    set (g2 := set_mem (set_mem g s1) _).
    rewrite (bind_run (modify_layer i _) _ g2 tt
               (set_layers g2 (<[i := {[key := a]}]> (layers g2))))
      by (apply modify_layer_Done; exists ∅; split; [apply Hall; lia|done]).
    destruct (IH el wu (set_layers g2 (<[i := {[key := a]}]> (layers g2))))
      as (g' & Hrun & Hlen & Hhigh & Hlow).
    { intros j Hj. simpl. rewrite list_lookup_insert_ne by lia. apply Hall. lia. }
    exists g'. split; [exact Hrun|]. simpl in Hlen, Hhigh.
    rewrite length_insert in Hlen. split; [exact Hlen|]. split.
    + intros j Hj. rewrite Hhigh by lia. apply list_lookup_insert_ne. lia.
    + intros j Hj. destruct (decide (j = i)) as [->|Hne]; [|apply Hlow; lia].
      exists a. rewrite Hhigh by lia. apply list_lookup_insert_eq.
      apply lookup_lt_is_Some. rewrite (Hall i) by lia. eauto.
Qed.

Lemma assertDims_no_layers vec (g : Graph K) :
  layers g = [] → assertDims vec g = Done (None, g).
Proof.
  intros Hl. unfold assertDims. rewrite (bind_run get _ g g g) by done.
  by rewrite Hl.
Qed.

Lemma randomLevel_no_layers (g : Graph K) :
  layers g = [] →
  randomLevel g
    = Done ((if SFltb (Ml g) (draw_of g 0) then 0 else 1, None), advance g 1).
Proof.
  intros Hl. unfold randomLevel. rewrite (bind_run get _ g g g) by done.
  rewrite Hl. simpl.
  rewrite (bind_run _ _ _ _ _ (Float64_run g)).
  rewrite (bind_run (gets Ml) _ (advance g 1) (Ml g) (advance g 1)) by done.
  by destruct (SFltb (Ml g) (draw_of g 0)).
Qed.

(** X8. The first [Add]: on a graph without layers, [Add] of one node
    returns no error, whatever the parameters of the graph (no distance is
    computed and [Ml] is not checked). The graph then has one or two
    layers, each with the new node as its only node; [Len] is 1 and
    [Lookup] finds the node. *)
Theorem Add_first fuel (g : Graph K) nd :
  layers g = [] →
  ∃ g',
    Add fuel [nd] g = Done (None, g') ∧
    Len g' = 1 ∧
    Lookup g' (Key nd) = Done (Value nd, true) ∧
    (length (layers g') = 1 ∨ length (layers g') = 2)%nat ∧
    ∀ l, l ∈ layers g' → ∃ a, l = {[Key nd := a]}.
Proof.
  intros Hl.
  assert (Hnode : ∃ g' (n : nat),
            Add_node fuel nd g = Done (None, g') ∧ (n = 1 ∨ n = 2)%nat ∧
            length (layers g') = n ∧
            ∀ i, (i < n)%nat → ∃ a, layers g' !! i = Some {[Key nd := a]}).
  { unfold Add_node.
    rewrite (bind_run _ _ _ _ _ (assertDims_no_layers (Value nd) g Hl)).
    cbv beta. rewrite (bind_run _ _ _ _ _ (randomLevel_no_layers g Hl)).
    assert (Hl1 : layers (advance g 1) = []) by done.
    set (lvl := if SFltb (Ml g) (draw_of g 0) then 0 else 1).
    assert (Hlvl : lvl = 0 ∨ lvl = 1)
      by (unfold lvl; destruct (SFltb (Ml g) (draw_of g 0)); auto).
    cbv beta iota. rewrite (bind_unfold (modify _)). unfold modify at 1.
    rewrite decide_False by lia.
    set (g1 := set_layers _ _).
    assert (Hg1 : layers g1 = replicate (Z.to_nat (lvl + 1)) ∅).
    { unfold g1. simpl. rewrite Hl. simpl. f_equal. lia. }
    rewrite (bind_run (gets Len) _ g1 0 g1).
    2:{ unfold gets, Len. rewrite Hg1.
        destruct Hlvl as [-> | ->]; done. }
    rewrite (bind_run get _ g1 g1 g1) by done.
    destruct (Add_layers_empty fuel (Key nd) (Value nd) lvl (length (layers g1))
                None false g1) as (g' & Hrun & Hlen & _ & Hlow).
    { intros i Hi. rewrite Hg1 in Hi |- *. rewrite length_replicate in Hi.
      by apply lookup_replicate_2. }
    rewrite (bind_run _ _ _ _ _ Hrun).
    rewrite Hg1, length_replicate in Hlen, Hlow.
    destruct (Hlow 0%nat) as [a Ha]; [lia|].
    rewrite (bind_run (gets Len) _ g' 1 g').
    2:{ unfold gets, Len. destruct (layers g') as [|l0 ls]; [done|].
        injection Ha as ->. unfold layer_size. by rewrite map_size_singleton. }
    rewrite decide_False by lia.
    exists g', (Z.to_nat (lvl + 1)). split; [done|]. split; [lia|]. done. }
  destruct Hnode as (g' & n & Hrun & Hn & Hlen & Hlow).
  assert (Hadd : Add fuel [nd] g = Done (None, g')).
  { simpl. by rewrite (bind_run _ _ _ _ _ Hrun). }
  exists g'. split; [exact Hadd|]. split.
  { destruct (Hlow 0%nat) as [a Ha]; [lia|].
    unfold Len. destruct (layers g') as [|l0 ls]; [done|].
    injection Ha as ->. unfold layer_size. by rewrite map_size_singleton. }
  split; [by eapply Add_Lookup|]. split; [lia|].
  intros l (i & Hi)%list_elem_of_lookup_1.
  destruct (Hlow i) as [a Ha].
  { apply lookup_lt_Some in Hi. lia. }
  exists a. congruence.
Qed.

#[local] Instance keeps_graph_preorder : PreOrder (keeps_graph (K := K)).
Proof.
  split.
  - intros g. unfold keeps_graph. reflexivity.
  - intros g1 g2 g3 H12 H23. unfold keeps_graph in *. by etransitivity.
Qed.

Lemma keeps_graph_on_mem {A} (c : prog (memory K) A) :
  stable keeps_nodes c → stable keeps_graph (on_mem c).
Proof. intros Hc g a g' (s' & Hrun & ->)%on_mem_Done. exact (Hc _ _ _ Hrun). Qed.

Lemma keeps_graph_modify_layer i f : stable keeps_graph (modify_layer (K := K) i f).
Proof. intros g a g' (l & _ & ->)%modify_layer_Done. unfold keeps_graph. reflexivity. Qed.

Lemma keeps_graph_modify (f : Graph K → Graph K) :
  (∀ g, mem (f g) = mem g) → stable keeps_graph (modify f).
Proof.
  intros Hf g a g' [= _ <-]. unfold keeps_graph. rewrite Hf. reflexivity.
Qed.

Lemma keeps_graph_Float64 : stable keeps_graph (Float64 (K := K)).
Proof. intros g a g' [= _ <-]. unfold keeps_graph. reflexivity. Qed.

#[local] Hint Resolve keeps_graph_on_mem keeps_graph_modify_layer
  keeps_graph_Float64 : stable.
#[local] Hint Extern 1 (stable _ (lift _)) => (apply stable_lift; apply _) : stable.
#[local] Hint Extern 1 (stable keeps_graph (modify _)) =>
  (apply keeps_graph_modify; done) : stable.

Lemma keeps_graph_randomLevel_loop steps :
  ∀ level max, stable keeps_graph (randomLevel_loop (K := K) steps level max).
Proof. induction steps as [|steps IH]; intros level max; simpl; stable_prog. Qed.
#[local] Hint Resolve keeps_graph_randomLevel_loop : stable.

Lemma keeps_graph_randomLevel : stable keeps_graph (randomLevel (K := K)).
Proof. unfold randomLevel. stable_prog. Qed.

Lemma keeps_graph_Dims : stable keeps_graph (Dims (K := K)).
Proof. unfold Dims. stable_prog. Qed.
#[local] Hint Resolve keeps_graph_randomLevel keeps_graph_Dims : stable.

Lemma keeps_graph_assertDims vec : stable keeps_graph (assertDims (K := K) vec).
Proof. unfold assertDims. stable_prog. Qed.
#[local] Hint Resolve keeps_graph_assertDims : stable.

Lemma keeps_graph_Add_layers fuel key vec lvl n :
  ∀ el wu, stable keeps_graph (Add_layers (K := K) fuel key vec lvl n el wu).
Proof. induction n as [|i IH]; intros el wu; simpl; stable_prog. Qed.
#[local] Hint Resolve keeps_graph_Add_layers : stable.

Lemma keeps_graph_Add_node fuel nd : stable keeps_graph (Add_node (K := K) fuel nd).
Proof. unfold Add_node. stable_prog. Qed.
#[local] Hint Resolve keeps_graph_Add_node : stable.

Lemma keeps_graph_Add fuel nodes : stable keeps_graph (Add (K := K) fuel nodes).
Proof. induction nodes as [|nd rest IH]; simpl; stable_prog. Qed.

(** [Add] of a list, as [Add] of its first node and of the rest. *)
Lemma Add_cons_Done fuel nd rest (g g' : Graph K) :
  Add fuel (nd :: rest) g = Done (None, g') →
  ∃ g1, Add fuel [nd] g = Done (None, g1) ∧ Add fuel rest g1 = Done (None, g').
Proof.
  simpl. intros ([e|] & g1 & Hnode & Hrest)%bind_Done.
  - by apply ret_Done in Hrest as [[=] _].
  - exists g1. split; [|done]. by rewrite (bind_run _ _ _ _ _ Hnode).
Qed.

Lemma Add_one_keeps_others fuel (g g' : Graph K) nd k' v :
  Add fuel [nd] g = Done (None, g') → k' ≠ Key nd →
  Lookup g k' = Done (v, true) → Lookup g' k' = Done (v, true).
Proof.
  intros Hadd Hne Hlook.
  pose proof (keeps_graph_Add _ _ _ _ _ Hadd) as Hkeep.
  destruct (Add_base_layer _ _ _ _ Hadd)
    as (lvl & newNode & n' & rest' & _ & Hlayers & _).
  unfold Lookup in *. rewrite Hlayers.
  destruct (layers g) as [|l0 ls]; [done|]. simpl.
  destruct (l0 !! k') as [a|] eqn:Ha; [|done].
  destruct (objs (mem g) !! a) as [n|] eqn:Hn; [|done].
  injection Hlook as <-.
  assert (Hl0 : l0 ≠ ∅) by (intros ->; by rewrite lookup_empty in Ha).
  assert (Hafter : layer_after 0 lvl (Key nd) newNode l0 !! k' = Some a).
  { unfold layer_after. rewrite decide_False by done.
    destruct (decide _); [by rewrite lookup_insert_ne|done]. }
  rewrite Hafter. destruct (Hkeep a n Hn) as (n2 & -> & ->). done.
Qed.

Lemma Add_list_keeps_others fuel nodes :
  ∀ (g g' : Graph K) k' v,
    Add fuel nodes g = Done (None, g') →
    (∀ nd, nd ∈ nodes → Key nd ≠ k') →
    Lookup g k' = Done (v, true) → Lookup g' k' = Done (v, true).
Proof.
  induction nodes as [|nd rest IH]; intros g g' k' v Hadd Hkeys Hlook.
  - by injection Hadd as <-.
  - apply Add_cons_Done in Hadd as (g1 & Hone & Hrest).
    eapply IH; [exact Hrest| |].
    + intros nd' Hin. apply Hkeys. by right.
    + eapply Add_one_keeps_others; [exact Hone| |exact Hlook].
      intros Heq. by apply (Hkeys nd); [left|].
Qed.

(** X9. A successful [Add] changes what [Lookup] returns for no key it
    does not insert: a key found before, and not among the keys of the new
    nodes, is found afterwards with the same vector. *)
Theorem Add_keeps_others fuel nodes (g g' : Graph K) k' v :
  Add fuel nodes g = Done (None, g') →
  (∀ nd, nd ∈ nodes → Key nd ≠ k') →
  Lookup g k' = Done (v, true) → Lookup g' k' = Done (v, true).
Proof. apply Add_list_keeps_others. Qed.

(** X10. [Add] of a list of nodes is [Add] of a first part of it followed
    by [Add] of the rest; when the first part returns an error (or
    panics), that is the outcome, with the graph as that part left it,
    and the rest is not inserted. *)
Theorem Add_app fuel xs ys :
  ∀ g : Graph K,
    Add fuel (xs ++ ys) g =
    match Add fuel xs g with
    | Done (None, g1) => Add fuel ys g1
    | other => other
    end.
Proof.
  induction xs as [|nd xs IH]; intros g; [done|].
  simpl. rewrite !bind_unfold.
  destruct (Add_node fuel nd g) as [[[e|] g1]| |]; [done| |done..].
  apply IH.
Qed.

Lemma Add_one_keys fuel (g g' : Graph K) nd :
  Add fuel [nd] g = Done (None, g') → keys_of g' = {[Key nd]} ∪ keys_of g.
Proof.
  intros Hadd.
  destruct (Add_base_layer _ _ _ _ Hadd)
    as (lvl & newNode & n' & rest' & Hlvl & Hlayers & _).
  unfold keys_of. rewrite Hlayers. simpl.
  set (l0 := default ∅ (head (layers g))).
  unfold layer_after. destruct (decide (l0 = ∅)) as [->|Hne].
  - by rewrite dom_singleton_L, dom_empty_L, union_empty_r_L.
  - rewrite decide_True by lia. by rewrite dom_insert_L.
Qed.

(** X19. A successful [Add] inserts exactly the keys it is given: the
    keys of the graph afterwards are those it had and those of the new
    nodes, and [Len] counts them. *)
Theorem Add_keys fuel nodes :
  ∀ g g' : Graph K,
    Add fuel nodes g = Done (None, g') →
    keys_of g' = keys_of g ∪ list_to_set (Key <$> nodes) ∧
    Len g' = Z.of_nat (size (keys_of g')).
Proof.
  assert (Hlen : ∀ g : Graph K, Len g = Z.of_nat (size (keys_of g))).
  { intros g. unfold Len, keys_of, layer_size.
    destruct (layers g) as [|l0 ls]; simpl.
    - by rewrite dom_empty_L, size_empty.
    - by rewrite size_dom. }
  induction nodes as [|nd rest IH]; intros g g' Hadd; (split; [|apply Hlen]).
  - injection Hadd as <-. simpl. by rewrite union_empty_r_L.
  - apply Add_cons_Done in Hadd as (g1 & Hone & Hrest).
    destruct (IH _ _ Hrest) as [-> _]. rewrite (Add_one_keys _ _ _ _ Hone).
    simpl. by rewrite (union_comm_L {[Key nd]}), <- (assoc_L (∪)).
Qed.

(** X20. [Add] of several nodes with distinct keys, then [Lookup]: after
    a successful [Add], [Lookup] of the key of each node of the list
    returns the vector of that node. *)
Theorem Add_all_then_Lookup fuel nodes :
  ∀ g g' : Graph K,
    Add fuel nodes g = Done (None, g') → NoDup (Key <$> nodes) →
    ∀ nd, nd ∈ nodes → Lookup g' (Key nd) = Done (Value nd, true).
Proof.
  induction nodes as [|n0 rest IH]; intros g g' Hadd Hdup nd Hin.
  - by apply not_elem_of_nil in Hin.
  - apply Add_cons_Done in Hadd as (g1 & Hone & Hrest).
    simpl in Hdup. apply NoDup_cons in Hdup as [Hfresh Hdup].
    apply elem_of_cons in Hin as [->|Hin]; [|by eapply IH].
    eapply Add_list_keeps_others; [exact Hrest| |by eapply Add_Lookup].
    intros nd' Hin' Heq. apply Hfresh. rewrite <- Heq.
    by apply list_elem_of_fmap_2.
Qed.

(** ** Dims and Search *)

Lemma Dims_empty_base (g : Graph K) ls : layers g = ∅ :: ls → Dims g = Panic.
Proof.
  intros Hl. unfold Dims. rewrite (bind_run get _ g g g) by done. rewrite Hl.
  by rewrite (bind_run (on_mem (entry ∅)) _ _ _ _
                (on_mem_run _ _ _ _ (entry_empty_run _))).
Qed.

Lemma assertDims_empty_base vec (g : Graph K) ls :
  layers g = ∅ :: ls → assertDims vec g = Panic.
Proof.
  intros Hl. unfold assertDims. rewrite (bind_run get _ g g g) by done.
  rewrite Hl. by rewrite bind_unfold, (Dims_empty_base g ls Hl).
Qed.

(** X11. A graph that has layers but no node in its base layer (as
    [Delete] of the last node leaves it) is unusable: [Dims] panics on
    the nil entry of the base layer, and so do [Add] of any node and
    [Search], which both start with [assertDims]. *)
Theorem emptied_graph_panics fuel (g : Graph K) ls :
  layers g = ∅ :: ls →
  Dims g = Panic ∧
  (∀ nd nodes, Add fuel (nd :: nodes) g = Panic) ∧
  (∀ near k, Search fuel near k g = Panic).
Proof.
  intros Hl. split; [by eapply Dims_empty_base|]. split.
  - intros nd nodes. simpl. unfold Add_node.
    by rewrite !bind_unfold, (assertDims_empty_base _ g ls Hl).
  - intros near k. unfold Search.
    by rewrite bind_unfold, (assertDims_empty_base _ g ls Hl).
Qed.

(** X12. [Search] on a graph without layers returns the error of the
    empty graph and no result, and leaves the graph as it is. *)
Theorem Search_no_layers fuel near k (g : Graph K) :
  layers g = [] → Search fuel near k g = Done (([], Some ErrGraphEmpty), g).
Proof.
  intros Hl. unfold Search.
  rewrite (bind_run _ _ _ _ _ (assertDims_no_layers near g Hl)).
  rewrite (bind_run get _ g g g) by done. by rewrite Hl.
Qed.

#[local] Instance same_objs_preorder : PreOrder (same_objs (K := K)).
Proof.
  split; [done|]. unfold same_objs. intros s1 s2 s3 H12 H23. congruence.
Qed.

#[local] Instance same_graph_preorder : PreOrder (same_graph (K := K)).
Proof.
  split.
  - intros [? ? ? ? ? ? ? []]. done.
  - unfold same_graph. intros g1 g2 g3 -> ->. done.
Qed.

Lemma same_objs_deref a : stable same_objs (deref (K := K) a).
Proof. intros s n s'. unfold deref. destruct (objs s !! a); [|done]. by intros [= _ <-]. Qed.

Lemma same_objs_next_plan : stable same_objs (next_plan (K := K)).
Proof. intros s p s' Hrun. by apply next_plan_Done in Hrun. Qed.
#[local] Hint Resolve same_objs_deref same_objs_next_plan : stable.

Lemma same_objs_entry (l : layer K) : stable same_objs (entry l).
Proof. unfold entry. stable_prog. Qed.

Lemma same_objs_Search_out nodes : stable same_objs (Search_out (K := K) nodes).
Proof. induction nodes as [|c rest IH]; simpl; stable_prog. Qed.
#[local] Hint Resolve same_objs_entry same_objs_Search_out : stable.

Lemma same_graph_on_mem {A} (c : prog (memory K) A) :
  stable same_objs c → stable same_graph (on_mem c).
Proof.
  intros Hc g a g' (s' & Hrun & ->)%on_mem_Done.
  pose proof (Hc _ _ _ Hrun) as Hobjs. unfold same_objs in Hobjs.
  unfold same_graph, set_mem. simpl. destruct s'. simpl in *. by subst.
Qed.
#[local] Hint Resolve same_graph_on_mem : stable.

Lemma same_graph_Dims : stable same_graph (Dims (K := K)).
Proof. unfold Dims. stable_prog. Qed.
#[local] Hint Resolve same_graph_Dims : stable.

Lemma same_graph_assertDims vec : stable same_graph (assertDims (K := K) vec).
Proof. unfold assertDims. stable_prog. Qed.
#[local] Hint Resolve same_graph_assertDims : stable.

Lemma same_graph_Search_layers fuel near k n :
  ∀ el, stable same_graph (Search_layers (K := K) fuel near k n el).
Proof. induction n as [|i IH]; intros el; simpl; stable_prog. Qed.
#[local] Hint Resolve same_graph_Search_layers : stable.

(** X13. [Search] does not change the graph: whatever it returns, the
    parameters, the generator, the layers and the nodes with their
    neighbor maps are as before (only map iterations have been
    consumed). *)
Theorem Search_reads_only fuel near k (g : Graph K) r g' :
  Search fuel near k g = Done (r, g') → same_graph g g'.
Proof.
  revert g r g'. change (stable same_graph (Search (K := K) fuel near k)).
  unfold Search. stable_prog.
Qed.

Lemma same_graph_layers (g g' : Graph K) : same_graph g g' → layers g' = layers g.
Proof. by intros ->. Qed.

Lemma same_graph_objs (g g' : Graph K) :
  same_graph g g' → objs (mem g') = objs (mem g).
Proof. by intros ->. Qed.

Lemma same_graph_Distance (g g' : Graph K) :
  same_graph g g' → Distance g' = Distance g.
Proof. by intros ->. Qed.

(** What [Dims] returns on a graph with a node in its base layer. *)
Lemma Dims_run_wf (g : Graph K) l0 ls :
  graph_wf g → layers g = l0 :: ls → l0 ≠ ∅ →
  ∃ key a n g',
    l0 !! key = Some a ∧ objs (mem g) !! a = Some n ∧
    Dims g = Done (Z.of_nat (length (Value (lnode n))), g').
Proof.
  intros [_ Hptr] Hl Hne. rewrite Forall_forall in Hptr.
  unfold Dims. rewrite (bind_run get _ g g g) by done. rewrite Hl.
  rewrite (bind_run (on_mem (entry l0)) _ _ _ _
             (on_mem_run _ _ _ _ (entry_run l0 (mem g)))).
  destruct (head (range_order _ l0)) as [[key a]|] eqn:Hhead.
  - assert (Hka : l0 !! key = Some a).
    { apply elem_of_map_to_list. rewrite <- range_order_perm.
      by eapply head_Some_elem_of. }
    destruct (Hptr l0) with key a as [n Hn]; [rewrite Hl; left|done|].
    exists key, a, n. simpl.
    eexists. split; [done|]. split; [done|].
    erewrite (bind_run (on_mem (deref a)) _ _ n); [done|].
    apply on_mem_run. unfold deref. simpl. by rewrite Hn.
  - apply head_None in Hhead. by apply range_order_nil in Hhead.
Qed.

Lemma assertDims_run_wf vec (g : Graph K) l0 ls :
  graph_wf g → layers g = l0 :: ls → l0 ≠ ∅ →
  ∃ r g', assertDims vec g = Done (r, g') ∧ same_graph g g'.
Proof.
  intros Hwf Hl Hne.
  destruct (Dims_run_wf g l0 ls Hwf Hl Hne) as (key & a & n & g1 & _ & _ & Hdims).
  assert (Hrun : ∃ r g', assertDims vec g = Done (r, g')).
  { unfold assertDims. rewrite (bind_run get _ g g g) by done. rewrite Hl.
    rewrite (bind_run _ _ _ _ _ Hdims). destruct (decide _); by eexists _, _. }
  destruct Hrun as (r & g' & Hrun). exists r, g'. split; [done|].
  by eapply same_graph_assertDims.
Qed.

(** X14. [Dims] is the length of the vector of one node of the base
    layer, the one [entry] picks: on a graph with valid pointers and a
    node in its base layer it returns, without changing the graph, the
    dimension of some node the base layer holds. *)
Theorem Dims_of_a_node (g : Graph K) l0 ls :
  graph_wf g → layers g = l0 :: ls → l0 ≠ ∅ →
  ∃ key a n g',
    Dims g = Done (Z.of_nat (length (Value (lnode n))), g') ∧
    l0 !! key = Some a ∧ objs (mem g) !! a = Some n ∧ same_graph g g'.
Proof.
  intros Hwf Hl Hne.
  destruct (Dims_run_wf g l0 ls Hwf Hl Hne) as (key & a & n & g' & Hk & Hn & Hrun).
  exists key, a, n, g'. repeat split; try done. by eapply same_graph_Dims.
Qed.

(** X15. [Search] fails on a graph whose top layer holds no node, even
    when the layers below hold nodes: above the base layer the search
    starts from the nil entry of the top layer and returns the error of
    the nil node. ([Delete] never removes a layer it has emptied.) *)
Theorem Search_top_layer_empty fuel near k (g : Graph K) l0 ls :
  graph_wf g → layers g = l0 :: ls ++ [∅] → l0 ≠ ∅ →
  ∃ g', Search fuel near k g = Done (([], Some ErrNodeNil), g').
Proof.
  intros Hwf Hl Hne.
  destruct (assertDims_run_wf near g l0 _ Hwf Hl Hne) as (r & g1 & Hdims & Hsame).
  pose proof (same_graph_layers _ _ Hsame) as Hl1. rewrite Hl in Hl1.
  unfold Search. rewrite (bind_run _ _ _ _ _ Hdims).
  rewrite (bind_run get _ g1 g1 g1) by done. rewrite Hl1.
  replace (length (l0 :: ls ++ [∅])) with (S (S (length ls)))
    by (simpl; rewrite length_app; simpl; lia).
  cbn [Search_layers]. rewrite (bind_run get _ g1 g1 g1) by done.
  assert (Hlast : layers g1 !! S (length ls) = Some (∅ : layer K)).
  { rewrite Hl1. simpl. rewrite lookup_app_r by lia.
    by replace (length ls - length ls)%nat with 0%nat by lia. }
  rewrite Hlast.
  rewrite (bind_run (on_mem (entry ∅)) _ _ _ _
             (on_mem_run _ _ _ _ (entry_empty_run _))).
  rewrite bind_unfold. unfold gets at 1.
  assert (Hs : ∀ store, search_with fuel store 1 (EfSearch g1) near (Distance g1) None
                        = Done (inr ErrNodeNil)).
  { intros store. unfold search_with, search. by destruct (Distance g1). }
  rewrite bind_unfold. rewrite Hs. simpl. by eexists.
Qed.

(** ** randomLevel, and Add without a distance function *)

Lemma only_Rng_refl (g : Graph K) : only_Rng g g.
Proof. by destruct g. Qed.

Lemma only_Rng_trans (g1 g2 g3 : Graph K) :
  only_Rng g1 g2 → only_Rng g2 g3 → only_Rng g1 g3.
Proof. unfold only_Rng. by intros -> ->. Qed.

Lemma randomLevel_loop_run steps :
  ∀ level max (g : Graph K),
    ∃ lvl g',
      randomLevel_loop steps level max g = Done ((lvl, None), g') ∧
      only_Rng g g' ∧
      (level ≤ lvl < level + Z.of_nat steps ∨ lvl = max).
Proof.
  induction steps as [|steps IH]; intros level max g; simpl.
  - exists max, g. split; [done|]. split; [apply only_Rng_refl|by right].
  - rewrite (bind_run _ _ _ _ _ (Float64_run g)).
    rewrite (bind_run (gets Ml) _ (advance g 1) (Ml g) (advance g 1)) by done.
    destruct (SFltb (Ml g) (draw_of g 0)).
    + exists level, (advance g 1). split; [done|]. split; [done|]. left. lia.
    + destruct (IH (level + 1) max (advance g 1)) as (lvl & g' & Hrun & Honly & Hlvl).
      exists lvl, g'. split; [done|]. split.
      * by apply (only_Rng_trans g (advance g 1) g').
      * destruct Hlvl; [left; lia|by right].
Qed.

Lemma randomLevel_run (g : Graph K) :
  ∃ lvl e g',
    randomLevel g = Done ((lvl, e), g') ∧ only_Rng g g' ∧
    ((e = None ∧ (0 ≤ lvl < level_ceiling g ∨ lvl = level_ceiling g)) ∨
     (e = Some ErrGraphMlZero ∧ lvl = 0 ∧ g' = g ∧
      layers g ≠ [] ∧ SFeqb (Ml g) float64_zero = true)).
Proof.
  destruct (decide (layers g = [])) as [Hl|Hl];
    [|destruct (SFeqb (Ml g) float64_zero) eqn:Hml].
  - rewrite randomLevel_ceiling by auto.
    destruct (randomLevel_loop_run (Z.to_nat (level_ceiling g)) 0 (level_ceiling g) g)
      as (lvl & g' & Hrun & Honly & Hlvl).
    exists lvl, None, g'. split; [done|]. split; [done|]. left. split; [done|].
    destruct Hlvl; [left; lia|by right].
  - exists 0, (Some ErrGraphMlZero), g. split.
    + unfold randomLevel. rewrite (bind_run get _ g g g) by done.
      destruct (layers g); [done|]. by rewrite Hml.
    + split; [apply only_Rng_refl|]. by right.
  - rewrite randomLevel_ceiling by auto.
    destruct (randomLevel_loop_run (Z.to_nat (level_ceiling g)) 0 (level_ceiling g) g)
      as (lvl & g' & Hrun & Honly & Hlvl).
    exists lvl, None, g'. split; [done|]. split; [done|]. left. split; [done|].
    destruct Hlvl; [left; lia|by right].
Qed.

(** X16. [randomLevel] always returns, and changes nothing of the graph
    but its generator. Its only error is that of [Ml = 0] on a graph with
    layers; otherwise the level it returns is either at least 0 and below
    the ceiling, or the ceiling itself (the only way to a negative
    level, which [Add] rejects). *)
Theorem randomLevel_range (g : Graph K) :
  ∃ lvl e g',
    randomLevel g = Done ((lvl, e), g') ∧ only_Rng g g' ∧
    ((e = None ∧ (0 ≤ lvl < level_ceiling g ∨ lvl = level_ceiling g)) ∨
     (e = Some ErrGraphMlZero ∧ lvl = 0 ∧ g' = g ∧
      layers g ≠ [] ∧ SFeqb (Ml g) float64_zero = true)).
Proof. apply randomLevel_run. Qed.

Lemma entry_nonempty_run (l : layer K) (s : memory K) :
  l ≠ ∅ →
  ∃ a, entry l s = Done (Some a, {| objs := objs s; sched := tail (sched s) |}).
Proof.
  intros Hne. rewrite entry_run.
  destruct (head (range_order _ l)) as [[k a]|] eqn:Hhead; [by exists a|].
  apply head_None in Hhead. by apply range_order_nil in Hhead.
Qed.

(** The layer loop of [Add] without a distance function, on a graph with
    a node in its base layer: the first layer that holds a node ends it. *)
Lemma Add_layers_unset fuel key vec lvl n :
  ∀ el wu (g : Graph K) l0,
    Distance g = None → (0 < n ≤ length (layers g))%nat →
    layers g !! 0%nat = Some l0 → l0 ≠ ∅ →
    ∃ g', Add_layers fuel key vec lvl n el wu g = Done (inl ErrDistanceUnset, g').
Proof.
  induction n as [|i IH]; intros el wu g l0 Hdist Hn Hl0 Hne; [lia|].
  simpl. rewrite (bind_run get _ g g g) by done.
  destruct (lookup_lt_is_Some_2 (layers g) i) as [l Hl]; [lia|]. rewrite Hl.
  set (new := {| lnode := {| Key := key; Value := vec |}; neighbors := ∅ |}).
  set (a := fresh (dom (objs (mem g)))).
  set (s1 := {| objs := <[a := new]> (objs (mem g)); sched := sched (mem g) |}).
  rewrite (bind_run (on_mem (alloc new)) _ g a (set_mem g s1))
    by (by apply on_mem_run).
  destruct (decide (l = ∅)) as [->|Hlne].
  - assert (Hi : i ≠ 0%nat) by (intros ->; congruence).
    rewrite (bind_run (on_mem (entry ∅)) _ _ _ _
               (on_mem_run _ _ _ _ (entry_empty_run _))).
    set (g2 := set_mem (set_mem g s1) _).
    rewrite (bind_run (modify_layer i _) _ g2 tt
               (set_layers g2 (<[i := {[key := a]}]> (layers g2))))
      by (apply modify_layer_Done; exists ∅; by split).
    apply (IH el wu _ l0); simpl.
    + done.
    + rewrite length_insert. lia.
    + by rewrite list_lookup_insert_ne.
    + done.
  - destruct (entry_nonempty_run l (mem (set_mem g s1)) Hlne) as [e He].
    rewrite (bind_run (on_mem (entry l)) _ _ _ _ (on_mem_run _ _ _ _ He)).
    cbv beta iota.
    set (g2 := set_mem (set_mem g s1) _).
    destruct (entry_nonempty_run l (mem g2) Hlne) as [e' He'].
    rewrite (bind_run (on_mem (entry l)) _ _ _ _ (on_mem_run _ _ _ _ He')).
    rewrite Hdist. by eexists.
Qed.

(** X17. [Add] needs a distance function only from the second node on:
    on a graph with valid pointers, a node in its base layer and no
    distance function, [Add] returns an error. It is the error of the
    unset distance, unless [randomLevel] has failed before ([Ml = 0]) or
    returned a negative level. *)
Theorem Add_Distance_unset fuel (g : Graph K) nd rest l0 ls :
  graph_wf g → layers g = l0 :: ls → l0 ≠ ∅ → Distance g = None →
  ∃ e g',
    Add fuel (nd :: rest) g = Done (Some e, g') ∧
    (e = ErrDistanceUnset ∨ e = ErrGraphMlZero ∨
     ∃ lvl, lvl < 0 ∧ e = ErrInvalidLevel lvl).
Proof.
  intros Hwf Hl Hne Hdist.
  destruct (assertDims_run_wf (Value nd) g l0 ls Hwf Hl Hne)
    as (r & g1 & Hdims & Hsame).
  destruct (randomLevel_run g1) as (lvl & e & g2 & Hlvl & Honly & Hcases).
  assert (Hl2 : layers g2 = l0 :: ls).
  { rewrite Honly. simpl. by rewrite (same_graph_layers _ _ Hsame). }
  assert (Hd2 : Distance g2 = None).
  { rewrite Honly. simpl. by rewrite (same_graph_Distance _ _ Hsame). }
  assert (Hnode : ∃ e g', Add_node fuel nd g = Done (Some e, g') ∧
            (e = ErrDistanceUnset ∨ e = ErrGraphMlZero ∨
             ∃ lvl, lvl < 0 ∧ e = ErrInvalidLevel lvl)).
  { unfold Add_node. rewrite (bind_run _ _ _ _ _ Hdims). cbv beta.
    rewrite (bind_run _ _ _ _ _ Hlvl).
    destruct Hcases as [[-> _]|(-> & _)]; [|eexists _, _; split; [done|auto]].
    rewrite (bind_unfold (modify _)). unfold modify at 1.
    destruct (decide (lvl < 0)) as [Hneg|Hpos].
    { eexists _, _. split; [done|]. right. right. eauto. }
    set (g3 := set_layers _ _).
    rewrite (bind_unfold (gets Len)). unfold gets at 1.
    rewrite (bind_run get _ g3 g3 g3) by done.
    destruct (Add_layers_unset fuel (Key nd) (Value nd) lvl (length (layers g3))
                None false g3 l0) as (g' & Hrun).
    - done.
    - unfold g3. simpl. rewrite Hl2. simpl. lia.
    - unfold g3. simpl. by rewrite Hl2.
    - done.
    - rewrite (bind_run _ _ _ _ _ Hrun). eexists _, _. split; [done|auto]. }
  destruct Hnode as (e' & g' & Hrun & He).
  exists e', g'. split; [|done]. simpl. by rewrite (bind_run _ _ _ _ _ Hrun).
Qed.

(** ** replenish *)

(** What [replenish] may have done to the neighbor map [nb] of the
    receiver [n]: no key is lost, and an entry that is new or changed
    does not point to [n]. *)
Lemma wp_replenish_adds D n m (s : memory K) nn :
  closed_on D s → objs s !! n = Some nn →
  wp (replenish n m)
     (λ _ s', ∃ nn',
        objs s' !! n = Some nn' ∧ lnode nn' = lnode nn ∧
        dom (neighbors nn) ⊆ dom (neighbors nn') ∧
        (∀ k p, neighbors nn' !! k = Some p → neighbors nn !! k = Some p ∨ p ≠ n) ∧
        Z.of_nat (size (neighbors nn')) ≤ Z.max m (Z.of_nat (size (neighbors nn)))) s.
Proof.
  intros Hcl Hnn. unfold replenish, replenish_with.
  assert (Hn : n ∈ D) by (destruct Hcl as [<- _]; by apply elem_of_dom).
  apply wp_bind. eapply wp_deref; [exact Hnn|].
  destruct (decide (m ≤ Z.of_nat (size (neighbors nn)))) as [Hfull|Hroom].
  { apply wp_ret. exists nn. repeat split; auto. lia. }
  set (P := λ nn' : layerNode K,
              lnode nn' = lnode nn ∧ dom (neighbors nn) ⊆ dom (neighbors nn') ∧
              ∀ k p, neighbors nn' !! k = Some p → neighbors nn !! k = Some p ∨ p ≠ n).
  set (J := λ s' : memory K,
              closed_on D s' ∧
              ∃ nn', objs s' !! n = Some nn' ∧ P nn' ∧ Z.of_nat (size (neighbors nn')) ≤ m).
  set (I := λ s' : memory K,
              closed_on D s' ∧
              ∃ nn', objs s' !! n = Some nn' ∧ P nn' ∧ Z.of_nat (size (neighbors nn')) < m).
  assert (HIsched : ∀ s sch, I s → I {| objs := objs s; sched := sch |}) by done.
  assert (HIJ : ∀ s', I s' → J s').
  { intros s' [Hc (nn' & Hn' & HP & Hsz)]. split; [done|]. exists nn'.
    repeat split; try done; try apply HP. lia. }
  apply wp_bind.
  eapply wp_mono;
    [|apply (wp_range_neighbors I J); [exact HIsched| | |]].
  - intros c s' Hpost. apply wp_ret.
    assert (HJ : J s') by (destruct c; simpl in Hpost; auto).
    destruct HJ as [_ (nn' & Hn' & (Hln & Hdom & Hent) & Hsz)].
    exists nn'. repeat split; try done. lia.
  - intros s0 [_ (nn0 & Hnn0 & _)]. eauto.
  - intros k0 neighbor s0 nn0 HI0 Hnn0 Hnb.
    assert (Hnb_in : neighbor ∈ D)
      by exact (closed_on_neighbor D s0 n nn0 k0 neighbor (proj1 HI0) Hnn0 Hnb).
    apply (wp_range_neighbors I J); [exact HIsched| | |exact HI0].
    + intros s1 [Hc1 _]. destruct (closed_on_lookup D s1 neighbor Hc1 Hnb_in); eauto.
    + intros key candidate s1 nb1 [Hc1 (nn1 & Hnn1 & HP1 & Hsz1)] Hnb1 Hcand.
      assert (Hcand_in : candidate ∈ D)
        by exact (closed_on_neighbor D s1 neighbor nb1 key candidate Hc1 Hnb1 Hcand).
      destruct (closed_on_lookup D s1 candidate Hc1 Hcand_in) as [cn Hcn].
      apply wp_bind. eapply wp_deref; [exact Hnn1|].
      assert (HI1 : I s1) by (split; [done|]; eauto).
      destruct (decide (is_Some (neighbors nn1 !! key))); [by apply wp_ret|].
      destruct (decide (candidate = n)) as [|Hself]; [by apply wp_ret|].
      apply wp_bind. eapply wp_addNeighbor_below; [exact Hnn1|exact Hcn|exact Hsz1|].
      set (nn2 := {| lnode := lnode nn1;
                     neighbors := <[Key (lnode cn) := candidate]> (neighbors nn1) |}).
      assert (Hc2 : closed_on D {| objs := <[n := nn2]> (objs s1); sched := sched s1 |}).
      { apply closed_on_update; [done..|].
        intros k p [[_ <-]|[_ Hp]]%lookup_insert_Some; [done|].
        exact (closed_on_neighbor D s1 n nn1 k p Hc1 Hnn1 Hp). }
      assert (HP2 : P nn2).
      { destruct HP1 as (Hln & Hdom & Hent). split; [done|]. split.
        - simpl. rewrite dom_insert. set_solver.
        - simpl. intros k p [[_ <-]|[_ Hp]]%lookup_insert_Some; [by right|].
          by apply Hent. }
      pose proof (size_insert_le (neighbors nn1) (Key (lnode cn)) candidate) as Hle.
      apply wp_bind. eapply wp_deref; [apply lookup_insert_eq|].
      change (neighbors nn2) with (<[Key (lnode cn) := candidate]> (neighbors nn1)).
      destruct (decide (m ≤ _)) as [Hfull'|Hroom']; apply wp_ret; simpl.
      * split; [done|]. exists nn2. split; [apply lookup_insert_eq|].
        split; [done|]. simpl. lia.
      * split; [done|]. exists nn2. split; [apply lookup_insert_eq|].
        split; [done|]. simpl. lia.
  - split; [done|]. exists nn. split; [done|]. split; [|lia].
    split; [done|]. split; [done|]. auto.
Qed.

(** X18. [replenish] only adds neighbors: on a store with valid pointers
    it returns with the receiver's node unchanged and every key of its
    neighbor map still there; an entry that is new does not point to the
    receiver itself; and the map ends with at most [m] entries, or as
    many as it had if those were more. *)
Theorem replenish_only_adds n m (s : memory K) nn :
  closed (objs s) → objs s !! n = Some nn →
  ∃ s' nn',
    replenish n m s = Done (tt, s') ∧
    objs s' !! n = Some nn' ∧ lnode nn' = lnode nn ∧
    dom (neighbors nn) ⊆ dom (neighbors nn') ∧
    (∀ k p, neighbors nn' !! k = Some p → neighbors nn !! k = Some p ∨ p ≠ n) ∧
    Z.of_nat (size (neighbors nn')) ≤ Z.max m (Z.of_nat (size (neighbors nn))).
Proof.
  intros Hc Hn.
  assert (Hwp := wp_replenish_adds (dom (objs s)) n m s nn (conj eq_refl Hc) Hn).
  unfold wp in Hwp.
  destruct (replenish n m s) as [[[] s']| |]; [|done..].
  destruct Hwp as (nn' & Hwp). by exists s', nn'.
Qed.

(** ** isolate *)

Lemma wp_isolate_frame D n m (s : memory K) nn :
  closed_on D s → objs s !! n = Some nn →
  (∀ k, neighbors nn !! k ≠ Some n) →
  wp (isolate n m)
     (λ _ s', objs s' !! n = Some nn ∧
              ∀ a, (∀ k, neighbors nn !! k ≠ Some a) → objs s' !! a = objs s !! a) s.
Proof.
  intros Hcl Hnn Hself. unfold isolate. apply wp_bind.
  set (I := λ s' : memory K,
              closed_on D s' ∧ objs s' !! n = Some nn ∧
              ∀ a, (∀ k, neighbors nn !! k ≠ Some a) → objs s' !! a = objs s !! a).
  eapply wp_mono; [|apply (wp_range_neighbors I I); [done| | |by split]].
  - intros c s' Hpost. apply wp_ret.
    assert (HI : I s') by (by destruct c). apply HI.
  - intros s0 (_ & Hn0 & _). eauto.
  - intros k0 neighbor s0 nn0 (Hc0 & Hn0 & Hfr0) Hnn0 Hnb.
    assert (nn0 = nn) as -> by congruence.
    assert (Hne : neighbor ≠ n) by (intros ->; by eapply Hself).
    assert (Hnb_in : neighbor ∈ D)
      by exact (closed_on_neighbor D s0 n nn k0 neighbor Hc0 Hnn0 Hnb).
    destruct (closed_on_lookup D s0 neighbor Hc0 Hnb_in) as [nb Hnb'].
    apply wp_bind. eapply wp_deref; [exact Hnn0|].
    apply wp_bind. eapply wp_deref; [exact Hnb'|].
    apply wp_bind. eapply wp_set_neighbors; [exact Hnb'|].
    apply wp_bind. eapply wp_mono; [|apply (wp_replenish D); [|exact Hnb_in]].
    + intros [] s1 [Hc1 Hfr1]. apply wp_ret. simpl in Hfr1. split; [done|]. split.
      * rewrite Hfr1 by done. by rewrite lookup_insert_ne.
      * intros a Ha. assert (a ≠ neighbor) by (intros ->; by eapply Ha).
        rewrite Hfr1 by done. rewrite lookup_insert_ne by done. by apply Hfr0.
    + apply closed_on_update; [done..|].
      intros k p [_ Hp]%lookup_delete_Some.
      exact (closed_on_neighbor D s0 neighbor nb k p Hc0 Hnb' Hp).
Qed.

(** X21. [isolate] writes to the neighbors of its receiver only: on a
    store with valid pointers, for a receiver that is not its own
    neighbor, it returns with the receiver as it was (its own neighbor map
    included) and with every node that is not one of its neighbors as it
    was. *)
Theorem isolate_frame n m (s : memory K) nn :
  closed (objs s) → objs s !! n = Some nn →
  (∀ k, neighbors nn !! k ≠ Some n) →
  ∃ s',
    isolate n m s = Done (tt, s') ∧
    objs s' !! n = Some nn ∧
    ∀ a, (∀ k, neighbors nn !! k ≠ Some a) → objs s' !! a = objs s !! a.
Proof.
  intros Hc Hn Hself.
  assert (Hwp := wp_isolate_frame (dom (objs s)) n m s nn (conj eq_refl Hc) Hn Hself).
  unfold wp in Hwp.
  destruct (isolate n m s) as [[[] s']| |]; [|done..]. by exists s'.
Qed.

(** ** Search and the errors of the distance function *)

(** X22. [Search] returns the error of the distance function: on a graph
    with valid pointers whose base and top layers hold nodes, with
    [EfSearch] not negative, if the distance to the query fails for every
    vector then [Search] returns that error and no result. *)
Theorem Search_distance_error fuel near k (g : Graph K) l0 ls top d e :
  graph_wf g → layers g = l0 :: ls → l0 ≠ ∅ →
  last (layers g) = Some top → top ≠ ∅ →
  Distance g = Some d → (∀ v, d v near = inr e) → 0 ≤ EfSearch g →
  ∃ g', Search fuel near k g = Done (([], Some e), g').
Proof.
  intros Hwf Hl Hne Hlast Htop Hdist Hfail Hef.
  destruct (assertDims_run_wf near g l0 _ Hwf Hl Hne) as (r & g1 & Hdims & Hsame).
  pose proof (same_graph_layers _ _ Hsame) as Hl1.
  pose proof (same_graph_objs _ _ Hsame) as Hobjs.
  pose proof (same_graph_Distance _ _ Hsame) as Hd1.
  assert (Hef1 : EfSearch g1 = EfSearch g) by (by rewrite Hsame).
  unfold Search. rewrite (bind_run _ _ _ _ _ Hdims).
  rewrite (bind_run get _ g1 g1 g1) by done. rewrite Hl1, Hl.
  rewrite <- Hl. destruct (length (layers g)) as [|layer] eqn:Hlen;
    [by rewrite Hl in Hlen|].
  cbn [Search_layers]. rewrite (bind_run get _ g1 g1 g1) by done.
  assert (Htop1 : layers g1 !! layer = Some top).
  { rewrite Hl1. rewrite last_lookup in Hlast. by rewrite Hlen in Hlast. }
  rewrite Htop1.
  destruct (entry_nonempty_run top (mem g1) Htop) as [a Ha].
  rewrite (bind_run (on_mem (entry top)) _ _ _ _ (on_mem_run _ _ _ _ Ha)).
  assert (Hka : ∃ key, top !! key = Some a).
  { rewrite entry_run in Ha. injection Ha as Ha.
    destruct (head (range_order _ top)) as [[key a']|] eqn:Hhead; [|done].
    injection Ha as ->. exists key.
    apply elem_of_map_to_list. rewrite <- range_order_perm.
    by eapply head_Some_elem_of. }
  destruct Hka as [key Hka].
  destruct Hwf as [_ Hptr]. rewrite Forall_forall in Hptr.
  destruct (Hptr top) with key a as [n Hn]; [|done|].
  { rewrite <- Hl1. by eapply list_elem_of_lookup_2. }
  rewrite bind_unfold. unfold gets at 1. cbv beta iota.
  assert (Hs : ∀ k', search_with fuel (objs (mem g1)) k' (EfSearch g1) near
                        (Distance g1) (Some a) = Done (inr e)).
  { intros k'. unfold search_with, search. rewrite Hd1, Hdist.
    rewrite decide_False by lia. simpl. rewrite Hobjs, Hn. by rewrite Hfail. }
  destruct layer; rewrite bind_unfold, Hs; simpl; by eexists.
Qed.

(** ** addNeighbor, whatever the distance function returns *)

Lemma size_delete_le (m : gmap K addr) k : (size (delete k m) ≤ size m)%nat.
Proof.
  destruct (m !! k) eqn:E.
  - rewrite map_size_delete_Some by eauto. lia.
  - by rewrite delete_id.
Qed.

Lemma wp_worst_loop_some distance nValue entries :
  ∀ worstDist w (s : memory K),
    (∀ k p, (k, p) ∈ entries → is_Some (objs s !! p)) →
    wp (worst_loop distance nValue entries worstDist (Some w))
       (λ r s', s' = s ∧
          match r with
          | inr _ => True
          | inl r' => ∃ p, r' = Some p ∧ (p = w ∨ ∃ k, (k, p) ∈ entries)
          end) s.
Proof.
  induction entries as [|[k p] entries IH]; intros wd w s Hall; simpl.
  - apply wp_ret. split; [done|]. exists w. auto.
  - destruct (Hall k p) as [pn Hp]; [left|].
    apply wp_bind. eapply wp_deref; [exact Hp|].
    destruct (distance _ _) as [d|err]; [|by apply wp_ret].
    rewrite orb_false_r.
    destruct (SFltb wd d).
    + eapply wp_mono; [|apply IH; intros k' p' Hin; apply (Hall k' p'); by right].
      intros [r'|e] s' [-> Hr]; (split; [done|]); [|done].
      destruct Hr as (p' & -> & Hp'). exists p'. split; [done|]. right.
      destruct Hp' as [->|[k' Hk']]; [exists k; left|exists k'; by right].
    + eapply wp_mono; [|apply IH; intros k' p' Hin; apply (Hall k' p'); by right].
      intros [r'|e] s' [-> Hr]; (split; [done|]); [|done].
      destruct Hr as (p' & -> & Hp'). exists p'. split; [done|].
      destruct Hp' as [->|[k' Hk']]; [by left|right; exists k'; by right].
Qed.

Lemma wp_worst_loop distance nValue entries (s : memory K) :
  entries ≠ [] →
  (∀ k p, (k, p) ∈ entries → is_Some (objs s !! p)) →
  wp (worst_loop distance nValue entries neg_inf None)
     (λ r s', s' = s ∧
        match r with
        | inr _ => True
        | inl r' => ∃ k p, r' = Some p ∧ (k, p) ∈ entries
        end) s.
Proof.
  intros Hne Hall. destruct entries as [|[k p] entries]; [done|]. simpl.
  destruct (Hall k p) as [pn Hp]; [left|].
  apply wp_bind. eapply wp_deref; [exact Hp|].
  destruct (distance _ _) as [d|err]; [|by apply wp_ret].
  rewrite orb_true_r.
  eapply wp_mono;
    [|apply wp_worst_loop_some; intros k' p' Hin; apply (Hall k' p'); by right].
  intros [r'|e] s' [-> Hr]; (split; [done|]); [|done].
  destruct Hr as (p' & -> & Hp'). destruct Hp' as [->|[k' Hk']].
  - exists k, p. split; [done|left].
  - exists k', p'. split; [done|by right].
Qed.

(** [addNeighbor] on a store with valid pointers: it returns, with the
    pointers still valid; and when every key of the receiver's map is the
    key of the node it points to, a call without error leaves the
    receiver with at most [m] entries, or no more than it had. *)
Lemma wp_addNeighbor D n newNode m distance (s : memory K) nn new :
  closed_on D s → objs s !! n = Some nn → objs s !! newNode = Some new →
  wp (addNeighbor n newNode m distance)
     (λ r s', closed_on D s' ∧
        ∃ nn', objs s' !! n = Some nn' ∧ lnode nn' = lnode nn ∧
          ((∀ k p, neighbors nn !! k = Some p →
              ∃ pn, objs s !! p = Some pn ∧ Key (lnode pn) = k) →
           r = None →
           Z.of_nat (size (neighbors nn')) ≤ Z.max m (Z.of_nat (size (neighbors nn))))) s.
Proof.
  intros Hcl Hn Hnew. unfold addNeighbor, addNeighbor_with.
  set (ins := <[Key (lnode new) := newNode]> (neighbors nn)).
  assert (HD : ∀ a x, objs s !! a = Some x → a ∈ D).
  { intros a x Ha. destruct Hcl as [<- _]. by apply elem_of_dom. }
  assert (Hins_in : ∀ k p, ins !! k = Some p → p ∈ D).
  { intros k p [[_ <-]|[_ Hp]]%lookup_insert_Some; [by eapply HD|].
    exact (closed_on_neighbor D s n nn k p Hcl Hn Hp). }
  pose proof (size_insert_le (neighbors nn) (Key (lnode new)) newNode) as Hsz.
  fold ins in Hsz.
  apply wp_bind. eapply wp_deref; [exact Hn|].
  apply wp_bind. eapply wp_deref; [exact Hnew|].
  apply wp_bind. eapply wp_set_neighbors; [exact Hn|]. fold ins.
  set (nn0 := {| lnode := lnode nn; neighbors := ins |}).
  assert (Hcl0 : ∀ sch, closed_on D {| objs := <[n := nn0]> (objs s); sched := sch |}).
  { intros sch. by apply closed_on_update. }
  assert (Hlnode0 : ∀ p x, (<[n := nn0]> (objs s)) !! p = Some x →
            ∃ y, objs s !! p = Some y ∧ lnode x = lnode y).
  { intros p x. destruct (decide (p = n)) as [->|Hne].
    - rewrite lookup_insert_eq. intros [= <-]. eauto.
    - rewrite lookup_insert_ne by done. eauto. }
  apply wp_bind. eapply wp_deref; [apply lookup_insert_eq|]. simpl.
  destruct (decide (Z.of_nat (size ins) ≤ m)) as [Hfit|Hover].
  { apply wp_ret. split; [apply Hcl0|]. exists nn0. simpl.
    split; [apply lookup_insert_eq|]. split; [done|]. intros _ _. lia. }
  apply wp_bind, wp_next_plan. intros plan sch. simpl.
  set (s0 := {| objs := <[n := nn0]> (objs s); sched := sch |}).
  apply wp_bind.
  eapply wp_mono; [|apply (wp_worst_loop distance _ (range_order plan ins) s0)].
  2:{ rewrite range_order_nil. apply insert_non_empty. }
  2:{ intros k p Hin. apply (closed_on_lookup D s0); [apply Hcl0|].
      apply (Hins_in k). apply elem_of_map_to_list. by rewrite <- (range_order_perm plan). }
  intros [[worst|]|err] s1 [-> Hr].
  3:{ apply wp_ret. split; [apply Hcl0|]. exists nn0.
      split; [apply lookup_insert_eq|]. split; [done|]. by intros _ [=]. }
  2:{ by destruct Hr as (? & ? & [=] & _). }
  destruct Hr as (wk & p & [= <-] & Hin).
  assert (Hwk : ins !! wk = Some worst).
  { apply elem_of_map_to_list. by rewrite <- (range_order_perm plan). }
  assert (Hworst_in : worst ∈ D) by (by eapply Hins_in).
  destruct (closed_on_lookup D s0 worst (Hcl0 sch) Hworst_in) as [w Hw].
  apply wp_bind. eapply wp_deref; [exact Hw|].
  apply wp_bind. eapply wp_deref; [apply lookup_insert_eq|].
  apply wp_bind. eapply wp_set_neighbors; [apply lookup_insert_eq|]. simpl.
  rewrite insert_insert_eq.
  set (nn1 := {| lnode := lnode nn; neighbors := delete (Key (lnode w)) ins |}).
  set (s1 := {| objs := <[n := nn1]> (objs s); sched := sch |}).
  assert (Hcl1 : closed_on D s1).
  { apply closed_on_update; [done..|].
    intros k p' [_ Hp]%lookup_delete_Some. by eapply Hins_in. }
  destruct (closed_on_lookup D s1 worst Hcl1 Hworst_in) as [w1 Hw1].
  apply wp_bind. eapply wp_deref; [exact Hw1|].
  apply wp_bind. eapply wp_deref; [apply lookup_insert_eq|].
  apply wp_bind. eapply wp_set_neighbors; [exact Hw1|]. simpl.
  set (w2 := {| lnode := lnode w1;
                neighbors := delete (Key (lnode nn)) (neighbors w1) |}).
  set (s2 := {| objs := <[worst := w2]> (objs s1); sched := sch |}).
  assert (Hcl2 : closed_on D s2).
  { apply closed_on_update; [done..|].
    intros k p' [_ Hp]%lookup_delete_Some.
    exact (closed_on_neighbor D s1 worst w1 k p' Hcl1 Hw1 Hp). }
  pose proof (wp_replenish D worst m s2 Hcl2 Hworst_in) as Hrep1.
  pose proof (wp_replenish_adds D worst m s2 w2 Hcl2 (lookup_insert_eq _ _ _)) as Hrep2.
  apply wp_Done in Hrep1 as ([] & s3 & Hrun & Hcl3 & Hframe).
  unfold wp in Hrep2. rewrite Hrun in Hrep2.
  destruct Hrep2 as (w3 & Hw3 & Hlw3 & _ & _ & Hsz3).
  apply wp_bind, wp_Done. exists tt, s3. split; [exact Hrun|].
  apply wp_ret. split; [done|].
  (* the key of the worst neighbor, when the keys of the map are right *)
  assert (Hkey : (∀ k p, neighbors nn !! k = Some p →
                    ∃ pn, objs s !! p = Some pn ∧ Key (lnode pn) = k) →
                 Key (lnode w) = wk).
  { intros Hkeyed.
    assert (Hpn : ∃ pn, objs s !! worst = Some pn ∧ Key (lnode pn) = wk).
    { unfold ins in Hwk. apply lookup_insert_Some in Hwk as [[<- <-]|[_ Hp]]; eauto. }
    destruct Hpn as (pn & Hpn & <-).
    destruct (Hlnode0 worst w Hw) as (y & Hy & ->). congruence. }
  assert (Hdel : (∀ k p, neighbors nn !! k = Some p →
                    ∃ pn, objs s !! p = Some pn ∧ Key (lnode pn) = k) →
                 (size (delete (Key (lnode w)) ins) ≤ size (neighbors nn))%nat).
  { intros Hkeyed. rewrite (Hkey Hkeyed).
    rewrite map_size_delete_Some by eauto. lia. }
  destruct (decide (worst = n)) as [->|Hwn].
  - exists w3. split; [done|]. split.
    + rewrite Hlw3. simpl. unfold s1 in Hw1. simpl in Hw1.
      rewrite lookup_insert_eq in Hw1. by injection Hw1 as <-.
    + intros Hkeyed _. simpl in Hsz3.
      unfold s1 in Hw1. simpl in Hw1. rewrite lookup_insert_eq in Hw1.
      injection Hw1 as <-. simpl in Hsz3.
      pose proof (size_delete_le (delete (Key (lnode w)) ins) (Key (lnode nn))).
      pose proof (Hdel Hkeyed). lia.
  - exists nn1. split.
    + rewrite Hframe by done. simpl. rewrite lookup_insert_ne by done.
      apply lookup_insert_eq.
    + split; [done|]. intros Hkeyed _. simpl. pose proof (Hdel Hkeyed). lia.
Qed.

(** X23. [addNeighbor] always returns on a store with valid pointers,
    whatever the distance function returns (errors and NaN included): it
    never follows a nil worst neighbor, allocates nothing and keeps the
    pointers valid. When every key of the receiver's neighbor map is the
    key of the node it points to, a call that returns no error leaves the
    receiver with at most [m] neighbors, or no more than it had. *)
Theorem addNeighbor_returns n newNode m distance (s : memory K) nn new :
  closed (objs s) → objs s !! n = Some nn → objs s !! newNode = Some new →
  ∃ r s' nn',
    addNeighbor n newNode m distance s = Done (r, s') ∧
    dom (objs s') = dom (objs s) ∧ closed (objs s') ∧
    objs s' !! n = Some nn' ∧ lnode nn' = lnode nn ∧
    ((∀ k p, neighbors nn !! k = Some p →
        ∃ pn, objs s !! p = Some pn ∧ Key (lnode pn) = k) →
     r = None →
     Z.of_nat (size (neighbors nn')) ≤ Z.max m (Z.of_nat (size (neighbors nn)))).
Proof.
  intros Hc Hn Hnew.
  assert (Hwp := wp_addNeighbor (dom (objs s)) n newNode m distance s nn new
                   (conj eq_refl Hc) Hn Hnew).
  apply wp_Done in Hwp as (r & s' & Hrun & [Hdom Hc'] & nn' & Hn' & Hl & Hsz).
  by exists r, s', nn'.
Qed.

End proofs.

(** * The claims on the example graphs *)

Lemma after_Add_Done nodes g :
  returned (Add 16 nodes g) = Some None →
  Add 16 nodes g = Done (None, after_Add nodes g).
Proof.
  unfold after_Add, returned.
  by destruct (Add 16 nodes g) as [[[e|] g']| |]; intros [=].
Qed.

Lemma after_Delete_Done key g deleted :
  returned (Delete key g) = Some deleted →
  Delete key g = Done (deleted, after_Delete key g).
Proof.
  unfold after_Delete, returned.
  by destruct (Delete key g) as [[d g']| |]; intros [= ->].
Qed.

(** C1. Bidirectionality is not an invariant of the reachable graphs.
    [line_graph] is what [Add] of four points on a line leaves of a new
    graph with [M = 2]; in its base layer the node of key 3 has the
    nodes of keys 2 and 4 as neighbors, and neither has key 3 in its own
    neighbor map: the last [Add] evicted the edge 2 -- 3 on the side of
    node 2, and [replenish] on node 3 put node 2 back, and then node 4,
    with [addNeighbor] on node 3 only. *)
Theorem replenish_breaks_bidirectionality :
  Add 16 line_nodes (example_graph 2 sq_euclid) = Done (None, line_graph) ∧
  reachable line_graph ∧
  ¬ bidirectional line_graph.
Proof.
  assert (Hadd : Add 16 line_nodes (example_graph 2 sq_euclid)
                 = Done (None, line_graph))
    by (apply after_Add_Done; vm_compute; reflexivity).
  split; [exact Hadd|]. split.
  { eapply reachable_Add; [|exact Hadd]. apply reachable_new. }
  intros Hb.
  pose (L := default (∅ : layer Z) (head (layers line_graph))).
  pose (n := default (mkLayerNode (mkNode 0 []) ∅)
                     (objs (mem line_graph) !! 2%nat)).
  destruct (Hb L 3 2%nat n 4 3%nat) as [_ (pn & Hpn & Hback)].
  - apply (list_elem_of_lookup_2 _ 0%nat). vm_compute. reflexivity.
  - vm_compute. reflexivity.
  - vm_compute. reflexivity.
  - vm_compute. reflexivity.
  - vm_compute in Hpn. injection Hpn as <-.
    vm_compute in Hback. destruct Hback as [? [=]].
Qed.

(** C2. [Add] does not return the dimension mismatch. [one_graph] holds
    one vector of three dimensions, so [Dims] is 3 and [assertDims]
    reports the mismatch for a vector of two; [Add] of that vector
    succeeds all the same, and the graph then holds both. *)
Theorem Add_drops_assertDims :
  Len one_graph = 1 ∧
  returned (Dims one_graph) = Some 3 ∧
  returned (assertDims (Value short_node) one_graph)
    = Some (Some (ErrDimMismatch 3 2)) ∧
  Add 16 [short_node] one_graph = Done (None, two_graph) ∧
  Len two_graph = 2 ∧
  Lookup two_graph 2 = Done (Value short_node, true).
Proof.
  split; [vm_compute; reflexivity|].
  split; [vm_compute; reflexivity|].
  split; [vm_compute; reflexivity|].
  split; [apply after_Add_Done; vm_compute; reflexivity|].
  split; vm_compute; reflexivity.
Qed.

(** C3. [Add] does not return the error of the distance function.
    [pair_graph] holds the origin and a second point, with [M = 1] and a
    distance that fails when its second argument is the origin. In [Add]
    of a third point, the call of [addNeighbor] on the origin's node
    (object 0) for the new node (object 2) fails with that error; [Add]
    goes on, gives the new node its edge to the origin, and returns no
    error. *)
Theorem Add_drops_distance_error :
  (∃ s, addNeighbor 0%nat 2%nat (M pair_graph) guarded_sq_euclid triple_memory
        = Done (Some origin_error, s)) ∧
  Add 16 [third_node] pair_graph = Done (None, triple_graph) ∧
  (∃ new, objs (mem triple_graph) !! 2%nat = Some new ∧
          lnode new = third_node ∧ neighbors new = {[ 1 := 0%nat ]}) ∧
  objs (mem triple_graph) ≠ objs triple_memory.
Proof.
  split; [eexists; vm_compute; reflexivity|].
  split; [apply after_Add_Done; vm_compute; reflexivity|].
  split; [eexists; repeat split; vm_compute; reflexivity|].
  intros Heq.
  assert (Hne : objs (mem triple_graph) !! 2%nat = objs triple_memory !! 2%nat)
    by (by rewrite Heq).
  vm_compute in Hne. discriminate Hne.
Qed.

(** C4. The bound [M] on the neighbor maps is not an invariant of the
    reachable graphs. [triple_graph] is what two calls of [Add] leave of
    a new graph with [M = 1]; in its base layer the node of key 1 has
    two neighbors. *)
Theorem neighbors_exceed_M :
  Add 16 [mkNode 1 [f32 0]; mkNode 2 [f32 3]] (example_graph 1 guarded_sq_euclid)
    = Done (None, pair_graph) ∧
  Add 16 [third_node] pair_graph = Done (None, triple_graph) ∧
  reachable triple_graph ∧
  ¬ within_M triple_graph.
Proof.
  assert (Hadd1 : Add 16 [mkNode 1 [f32 0]; mkNode 2 [f32 3]]
                    (example_graph 1 guarded_sq_euclid) = Done (None, pair_graph))
    by (apply after_Add_Done; vm_compute; reflexivity).
  assert (Hadd2 : Add 16 [third_node] pair_graph = Done (None, triple_graph))
    by (apply after_Add_Done; vm_compute; reflexivity).
  split; [exact Hadd1|]. split; [exact Hadd2|]. split.
  { eapply reachable_Add; [|exact Hadd2].
    eapply reachable_Add; [|exact Hadd1]. apply reachable_new. }
  intros Hm.
  pose (L := default (∅ : layer Z) (head (layers triple_graph))).
  pose (n := default (mkLayerNode (mkNode 0 []) ∅)
                     (objs (mem triple_graph) !! 0%nat)).
  assert (Hle : Z.of_nat (size (neighbors n)) ≤ M triple_graph).
  { apply (Hm L 1 0%nat n).
    - apply (list_elem_of_lookup_2 _ 0%nat). vm_compute. reflexivity.
    - vm_compute. reflexivity.
    - vm_compute. reflexivity. }
  vm_compute in Hle. by apply Hle.
Qed.

(** C7. [Delete] does not leave the deleted node isolated.
    [triangle_graph] is what [Add] of three points leaves of a new graph
    with [M = 2]: each node has the other two as neighbors. [Delete] of
    key 2 returns true and takes the key out of the layer, but the nodes
    of keys 1 and 3 end with key 2, and the detached node (object 1), in
    their neighbor maps: [isolate] deletes the key from the map of node
    1 and calls [replenish] on it, which finds the detached node in the
    map of node 3 and puts it back; then the same happens to node 3
    through the map of node 1. *)
Theorem Delete_leaves_node_linked :
  Add 16 triangle_nodes (example_graph 2 sq_euclid) = Done (None, triangle_graph) ∧
  Delete 2 triangle_graph = Done (true, deleted_graph) ∧
  reachable deleted_graph ∧
  detached (layers triangle_graph) 2 = [1%nat] ∧
  (∀ l, l ∈ layers deleted_graph → l !! 2 = None) ∧
  default ∅ (head (layers deleted_graph)) = {[ 1 := 0%nat; 3 := 2%nat ]} ∧
  neighbors <$> objs (mem deleted_graph) !! 0%nat
    = Some {[ 2 := 1%nat; 3 := 2%nat ]} ∧
  neighbors <$> objs (mem deleted_graph) !! 2%nat
    = Some {[ 1 := 0%nat; 2 := 1%nat ]} ∧
  ¬ detached_isolated triangle_graph deleted_graph 2.
Proof.
  assert (Hadd : Add 16 triangle_nodes (example_graph 2 sq_euclid)
                 = Done (None, triangle_graph))
    by (apply after_Add_Done; vm_compute; reflexivity).
  assert (Hdel : Delete 2 triangle_graph = Done (true, deleted_graph))
    by (apply after_Delete_Done; vm_compute; reflexivity).
  split; [exact Hadd|]. split; [exact Hdel|]. split.
  { eapply reachable_Delete; [|exact Hdel].
    eapply reachable_Add; [|exact Hadd]. apply reachable_new. }
  split; [vm_compute; reflexivity|]. split.
  { apply Forall_forall. refine (bool_decide_unpack _ _). vm_compute. exact I. }
  split; [vm_compute; reflexivity|].
  split; [vm_compute; reflexivity|].
  split; [vm_compute; reflexivity|].
  intros Hiso.
  pose (dn := default (mkLayerNode (mkNode 0 []) ∅)
                      (objs (mem triangle_graph) !! 1%nat)).
  pose (pn := default (mkLayerNode (mkNode 0 []) ∅)
                      (objs (mem deleted_graph) !! 0%nat)).
  apply (Hiso 1%nat dn 1 0%nat pn 2).
  - vm_compute. left.
  - vm_compute. reflexivity.
  - vm_compute. reflexivity.
  - vm_compute. reflexivity.
  - vm_compute. reflexivity.
Qed.

(** The amended C5 on [small_memory 5]: the receiver (object 0, at [5])
    has the neighbor of key 2 (at [5], distance 0) and gets the node of
    key 3 (at [1], distance 16), with [M = 1]. *)
Lemma addNeighbor_evicts_witness :
  ∃ s', addNeighbor 0%nat 2%nat 1 sq_euclid (small_memory 5) = Done (None, s').
Proof.
  pose (nn := mkLayerNode (mkNode 1 [f32 5]) {[ 2 := 1%nat ]} : layerNode Z).
  pose (new := mkLayerNode (mkNode 3 [f32 1]) ∅ : layerNode Z).
  destruct (addNeighbor_evicts (small_memory 5) 0%nat 2%nat 1 sq_euclid nn new)
    as (wk & worst & d & s' & Hrun & _).
  - refine (bool_decide_unpack _ _). vm_compute. exact I.
  - vm_compute. reflexivity.
  - vm_compute. reflexivity.
  - vm_compute. reflexivity.
  - refine (bool_decide_unpack _ _). vm_compute. exact I.
  - exists s'. exact Hrun.
Defined.

(** C5 as worded fails on [small_memory 0] with the guarded distance:
    the receiver is the origin, the first distance asked for is an
    error, and [addNeighbor] returns it with both entries still in the
    receiver's map. *)
Lemma addNeighbor_keeps_on_error :
  ¬ evicts_one guarded_sq_euclid 1 0%nat 2%nat (small_memory 0).
Proof.
  intros Hev.
  pose (nn := mkLayerNode (mkNode 1 [f32 0]) {[ 2 := 1%nat ]} : layerNode Z).
  pose (new := mkLayerNode (mkNode 3 [f32 1]) ∅ : layerNode Z).
  destruct (Hev nn new) as (r & s' & nn' & wk & Hrun & Hnn' & Hwk & Hdel).
  - vm_compute. reflexivity.
  - vm_compute. reflexivity.
  - vm_compute. reflexivity.
  - apply (f_equal size) in Hdel.
    rewrite map_size_delete_Some in Hdel by exact Hwk.
    assert (Hs' : s' = failed_memory).
    { unfold failed_memory. by rewrite Hrun. }
    subst s'.
    assert (Hsize : (size (neighbors nn') = 2)%nat).
    { assert (Hn : default nn (objs failed_memory !! 0%nat) = nn')
        by (by rewrite Hnn').
      rewrite <- Hn. vm_compute. reflexivity. }
    rewrite Hsize in Hdel. vm_compute in Hdel. discriminate Hdel.
Qed.

(** C6 on the replacement of the vector of key 1 in [one_graph]. *)
Lemma Add_Len_witness :
  (has_key one_graph 1 → Len replaced_graph = Len one_graph) ∧
  (¬ has_key one_graph 1 → Len replaced_graph = Len one_graph + 1).
Proof.
  apply (Add_Len 16 one_graph replacement replaced_graph).
  apply after_Add_Done. vm_compute. reflexivity.
Defined.

(** X24 on [line_graph] and key 3. *)
Lemma Delete_spec_witness :
  ∃ g', Delete 3 line_graph = Done (true, g') ∧
        (∀ l, l ∈ layers g' → l !! 3 = None) ∧
        length (layers g') = length (layers line_graph).
Proof.
  destruct (Delete_spec line_graph 3)
    as (deleted & g' & Hrun & Hdel & _ & Hgone & Hlen & _).
  - refine (bool_decide_unpack _ _). vm_compute. exact I.
  - exists g'. split; [|by split].
    rewrite Hrun. do 2 f_equal. apply Hdel.
    exists (default ∅ (head (layers line_graph))). split.
    + apply (list_elem_of_lookup_2 _ 0%nat). vm_compute. reflexivity.
    + vm_compute. by eexists.
Defined.

(** The amended C8 on [line_graph]: four nodes and [Ml = 0.25] give the
    ceiling 2, and the first draw, [0.5], is above [Ml]. *)
Lemma randomLevel_spec_witness :
  level_ceiling line_graph = 2 ∧
  randomLevel line_graph = Done ((0, None), advance line_graph 1).
Proof.
  split; [vm_compute; reflexivity|].
  apply (proj1 (proj2 (randomLevel_spec line_graph)
                      (or_intror (eq_refl : SFeqb (Ml line_graph) float64_zero = false)))
               0%nat).
  - vm_compute. reflexivity.
  - vm_compute. reflexivity.
  - intros j Hj. lia.
Defined.

(** C8 as worded fails on a graph without layers: [randomLevel] does not
    look at [Ml] there, and returns level 0 without error for [Ml = 0]. *)
Lemma randomLevel_zero_Ml_no_error :
  ¬ (∀ g : Graph Z, SFeqb (Ml g) float64_zero = true →
       ∃ lvl err g', randomLevel g = Done ((lvl, Some err), g')).
Proof.
  intros Hall.
  destruct (Hall zero_Ml_graph) as (lvl & err & g' & Hrun).
  - vm_compute. reflexivity.
  - assert (Hr : returned (randomLevel zero_Ml_graph) = Some (lvl, Some err))
      by (by rewrite Hrun).
    vm_compute in Hr. discriminate Hr.
Qed.

(** C9 on the replacement of the vector of key 1 in [one_graph]. *)
Lemma Add_then_Lookup_witness :
  Lookup one_graph 1 = Done ([f32 1; f32 1; f32 1], true) ∧
  Lookup replaced_graph 1 = Done ([f32 2; f32 2; f32 2], true).
Proof.
  split; [vm_compute; reflexivity|].
  refine (proj1 (Add_then_Lookup 16 one_graph replacement replaced_graph _)).
  apply after_Add_Done. vm_compute. reflexivity.
Defined.

(** X1 on [small_memory 0]: the receiver (object 0) has one neighbor and
    room for two. *)
Lemma replenish_returns_witness :
  ∃ s', replenish 0%nat 2 (small_memory 0) = Done (tt, s') ∧
        closed (objs s').
Proof.
  destruct (replenish_returns 0%nat 2 (small_memory 0))
    as (s' & Hrun & _ & Hc & _).
  - refine (bool_decide_unpack _ _). vm_compute. exact I.
  - vm_compute. by eexists.
  - by exists s'.
Defined.

(** X2 on [small_memory 0] and its object 0. *)
Lemma isolate_returns_witness :
  ∃ s', isolate 0%nat 2 (small_memory 0) = Done (tt, s') ∧
        closed (objs s').
Proof.
  destruct (isolate_returns 0%nat 2 (small_memory 0))
    as (s' & Hrun & _ & Hc).
  - refine (bool_decide_unpack _ _). vm_compute. exact I.
  - vm_compute. by eexists.
  - by exists s'.
Defined.

(** * The further properties on the example graphs *)

Lemma returned_Done {S A : Type} (o : outcome (A * S)) a :
  returned o = Some a → ∃ s, o = Done (a, s).
Proof.
  unfold returned. destruct o as [[a' s]| |]; intros [=]. subst. by exists s.
Qed.

Lemma line_graph_wf : graph_wf line_graph.
Proof. refine (bool_decide_unpack _ _). vm_compute. exact I. Qed.

Lemma line_graph_Delete : Delete 3 line_graph = Done (true, after_Delete 3 line_graph).
Proof. apply after_Delete_Done. vm_compute. reflexivity. Qed.

(** X3 on [one_graph] and a key it does not hold. *)
Lemma Delete_absent_witness : Delete 9 one_graph = Done (false, one_graph).
Proof.
  apply (Delete_absent one_graph 9). apply Forall_forall.
  refine (bool_decide_unpack _ _). vm_compute. exact I.
Defined.

(** X4 on [line_graph] and key 3. *)
Lemma Delete_then_Lookup_witness :
  ∃ deleted g',
    Delete 3 line_graph = Done (deleted, g') ∧
    Lookup g' 3 = Done ([], false) ∧
    Delete 3 g' = Done (false, g').
Proof. exact (Delete_then_Lookup line_graph 3 line_graph_wf). Defined.

(** X5 on [line_graph] and key 3. *)
Lemma Delete_Len_witness :
  (has_key line_graph 3 → Len (after_Delete 3 line_graph) = Len line_graph - 1) ∧
  (¬ has_key line_graph 3 → Len (after_Delete 3 line_graph) = Len line_graph).
Proof.
  exact (Delete_Len line_graph 3 true _ line_graph_wf line_graph_Delete).
Defined.

(** X6 on [line_graph]: key 3 deleted, key 4 looked up. *)
Lemma Delete_keeps_others_witness :
  Lookup (after_Delete 3 line_graph) 4 = Lookup line_graph 4.
Proof.
  apply (Delete_keeps_others line_graph 3 true _ 4 line_graph_wf line_graph_Delete).
  lia.
Defined.

(** X7 on [line_graph] and key 3. *)
Lemma Delete_keeps_wf_witness : graph_wf (after_Delete 3 line_graph).
Proof.
  exact (Delete_keeps_wf line_graph 3 true _ line_graph_wf line_graph_Delete).
Defined.

(** X8 on [NewGraph()]. *)
Lemma Add_first_witness :
  ∃ g',
    Add 16 [mkNode 1 [f32 1; f32 1; f32 1]] NewGraph = Done (None, g') ∧
    Len g' = 1 ∧
    Lookup g' 1 = Done ([f32 1; f32 1; f32 1], true) ∧
    (length (layers g') = 1 ∨ length (layers g') = 2)%nat ∧
    ∀ l, l ∈ layers g' → ∃ a, l = {[1 := a]}.
Proof. exact (Add_first 16 NewGraph (mkNode 1 [f32 1; f32 1; f32 1]) eq_refl). Defined.

(** X9 on [one_graph]: key 2 added, key 1 looked up. *)
Lemma Add_keeps_others_witness :
  Lookup two_graph 1 = Done ([f32 1; f32 1; f32 1], true).
Proof.
  apply (Add_keeps_others 16 [short_node] one_graph two_graph 1).
  - apply after_Add_Done. vm_compute. reflexivity.
  - intros nd ->%list_elem_of_singleton. done.
  - vm_compute. reflexivity.
Defined.

(** X11 on [one_graph] after [Delete] of its only node. *)
Lemma emptied_graph_panics_witness :
  Dims (after_Delete 1 one_graph) = Panic ∧
  (∀ nd nodes, Add 16 (nd :: nodes) (after_Delete 1 one_graph) = Panic) ∧
  (∀ near k, Search 16 near k (after_Delete 1 one_graph) = Panic).
Proof.
  apply (emptied_graph_panics 16 (after_Delete 1 one_graph) []).
  vm_compute. reflexivity.
Defined.

(** X12 on [NewGraph()]. *)
Lemma Search_no_layers_witness :
  Search 16 [f32 1] 1 NewGraph = Done (([], Some ErrGraphEmpty), NewGraph).
Proof. exact (Search_no_layers 16 [f32 1] 1 NewGraph eq_refl). Defined.

(** X13 on [line_graph]. *)
Lemma Search_reads_only_witness :
  ∃ r g', Search 16 [f32 3] 2 line_graph = Done (r, g') ∧ same_graph line_graph g'.
Proof.
  destruct (returned (Search 16 [f32 3] 2 line_graph)) as [r|] eqn:Hr.
  - destruct (returned_Done _ _ Hr) as [g' Hrun].
    exists r, g'. split; [exact Hrun|].
    exact (Search_reads_only 16 [f32 3] 2 line_graph r g' Hrun).
  - vm_compute in Hr. discriminate Hr.
Defined.

(** X14 on [two_graph], whose two vectors differ in length. *)
Lemma Dims_of_a_node_witness :
  ∃ key a n g',
    Dims two_graph = Done (Z.of_nat (length (Value (lnode n))), g') ∧
    default ∅ (head (layers two_graph)) !! key = Some a ∧
    objs (mem two_graph) !! a = Some n ∧ same_graph two_graph g'.
Proof.
  apply (Dims_of_a_node two_graph _ (tail (layers two_graph))).
  - refine (bool_decide_unpack _ _). vm_compute. exact I.
  - vm_compute. reflexivity.
  - refine (bool_decide_unpack _ _). vm_compute. exact I.
Defined.

(** X15 on [topless_graph]. *)
Lemma Search_top_layer_empty_witness :
  ∃ g', Search 16 [f32 1] 1 topless_graph = Done (([], Some ErrNodeNil), g').
Proof.
  apply (Search_top_layer_empty 16 [f32 1] 1 topless_graph
           (default ∅ (head (layers topless_graph))) []).
  - refine (bool_decide_unpack _ _). vm_compute. exact I.
  - vm_compute. reflexivity.
  - refine (bool_decide_unpack _ _). vm_compute. exact I.
Defined.

(** X17 on [one_graph] with its distance function taken away. *)
Lemma Add_Distance_unset_witness :
  ∃ e g',
    Add 16 [mkNode 5 [f32 1]] (with_Distance None one_graph) = Done (Some e, g') ∧
    (e = ErrDistanceUnset ∨ e = ErrGraphMlZero ∨
     ∃ lvl, lvl < 0 ∧ e = ErrInvalidLevel lvl).
Proof.
  apply (Add_Distance_unset 16 (with_Distance None one_graph) (mkNode 5 [f32 1]) []
           (default ∅ (head (layers one_graph))) (tail (layers one_graph))).
  - refine (bool_decide_unpack _ _). vm_compute. exact I.
  - vm_compute. reflexivity.
  - refine (bool_decide_unpack _ _). vm_compute. exact I.
  - reflexivity.
Defined.

(** X18 on [small_memory 0]: the receiver (object 0) has one neighbor and
    room for two. *)
Lemma replenish_only_adds_witness :
  ∃ s' nn',
    replenish 0%nat 2 (small_memory 0) = Done (tt, s') ∧
    objs s' !! 0%nat = Some nn' ∧
    Z.of_nat (size (neighbors nn')) ≤ 2.
Proof.
  pose (nn := mkLayerNode (mkNode 1 [f32 0]) {[ 2 := 1%nat ]} : layerNode Z).
  destruct (replenish_only_adds 0%nat 2 (small_memory 0) nn)
    as (s' & nn' & Hrun & Hn' & _ & _ & _ & Hsz).
  - refine (bool_decide_unpack _ _). vm_compute. exact I.
  - vm_compute. reflexivity.
  - exists s', nn'. split; [exact Hrun|]. split; [exact Hn'|].
    assert (Hone : Z.of_nat (size (neighbors nn)) = 1) by (vm_compute; reflexivity).
    rewrite Hone in Hsz. lia.
Defined.

(** X19 on the four points of [line_graph]. *)
Lemma Add_keys_witness :
  keys_of line_graph
    = keys_of (example_graph 2 sq_euclid) ∪ list_to_set (Key <$> line_nodes) ∧
  Len line_graph = Z.of_nat (size (keys_of line_graph)).
Proof.
  apply (Add_keys 16 line_nodes (example_graph 2 sq_euclid) line_graph).
  apply after_Add_Done. vm_compute. reflexivity.
Defined.

(** X20 on the four points of [line_graph]. *)
Lemma Add_all_then_Lookup_witness :
  Lookup line_graph 3 = Done ([f32 10], true).
Proof.
  apply (Add_all_then_Lookup 16 line_nodes (example_graph 2 sq_euclid) line_graph
           (after_Add_Done line_nodes (example_graph 2 sq_euclid) ltac:(vm_compute; reflexivity))
           ltac:(refine (bool_decide_unpack _ _); vm_compute; exact I)
           (mkNode 3 [f32 10])).
  unfold line_nodes. do 2 (apply elem_of_cons; right). apply elem_of_cons. by left.
Defined.

(** X21 on [small_memory 0] and its object 0, whose only neighbor is
    object 1. *)
Lemma isolate_frame_witness :
  ∃ s',
    isolate 0%nat 2 (small_memory 0) = Done (tt, s') ∧
    objs s' !! 0%nat = objs (small_memory 0) !! 0%nat ∧
    objs s' !! 2%nat = objs (small_memory 0) !! 2%nat.
Proof.
  pose (nn := mkLayerNode (mkNode 1 [f32 0]) {[ 2 := 1%nat ]} : layerNode Z).
  destruct (isolate_frame 0%nat 2 (small_memory 0) nn) as (s' & Hrun & Hn & Hframe).
  - refine (bool_decide_unpack _ _). vm_compute. exact I.
  - vm_compute. reflexivity.
  - intros k Hk. simpl in Hk. by apply lookup_singleton_Some in Hk as [_ [=]].
  - exists s'. split; [exact Hrun|]. split.
    + rewrite Hn. vm_compute. reflexivity.
    + apply Hframe. intros k Hk. simpl in Hk.
      by apply lookup_singleton_Some in Hk as [_ [=]].
Defined.

(** X22 on [pair_graph] with the guarded distance and the origin as the
    query. *)
Lemma Search_distance_error_witness :
  ∃ g', Search 16 [f32 0] 1 (with_Distance (Some guarded_sq_euclid) pair_graph)
        = Done (([], Some origin_error), g').
Proof.
  apply (Search_distance_error 16 [f32 0] 1
           (with_Distance (Some guarded_sq_euclid) pair_graph)
           (default ∅ (head (layers pair_graph))) (tail (layers pair_graph))
           (default ∅ (head (layers pair_graph))) guarded_sq_euclid origin_error).
  - refine (bool_decide_unpack _ _). vm_compute. exact I.
  - vm_compute. reflexivity.
  - refine (bool_decide_unpack _ _). vm_compute. exact I.
  - vm_compute. reflexivity.
  - refine (bool_decide_unpack _ _). vm_compute. exact I.
  - reflexivity.
  - intros v. reflexivity.
  - by vm_compute.
Defined.

(** X23 on [small_memory 0] with the guarded distance, which fails on
    the receiver. *)
Lemma addNeighbor_returns_witness :
  ∃ r s',
    addNeighbor 0%nat 2%nat 1 guarded_sq_euclid (small_memory 0) = Done (r, s') ∧
    closed (objs s').
Proof.
  pose (nn := mkLayerNode (mkNode 1 [f32 0]) {[ 2 := 1%nat ]} : layerNode Z).
  pose (new := mkLayerNode (mkNode 3 [f32 1]) ∅ : layerNode Z).
  destruct (addNeighbor_returns 0%nat 2%nat 1 guarded_sq_euclid (small_memory 0) nn new)
    as (r & s' & nn' & Hrun & _ & Hc & _).
  - refine (bool_decide_unpack _ _). vm_compute. exact I.
  - vm_compute. reflexivity.
  - vm_compute. reflexivity.
  - by exists r, s'.
Defined.
